(** * autocereal: reflection-driven save/load for cereal

    A shallow embedding of [fr/autocereal/autocereal.h]: the per-class
    descriptor singleton, the field accessors, the index-recursive
    save/load helpers and the stream/string convenience functions,
    together with the properties stated about them. *)

From Stdlib Require Import ZArith Ascii String Lia.
From stdpp Require Import base option list strings gmap pretty.



(** ** The reflection provider

    [std::meta::nonstatic_data_members_of], [std::meta::bases_of],
    [std::meta::identifier_of] and [std::meta::type_of] are consumed, not
    built, by the header.  A class is named by a [TypeId]; the provider
    answers with the ordered direct members and the ordered direct bases. *)

Abbreviation TypeId := string (only parsing).

Record Member (FieldTy : Type) := mkMember {
  identifier_of : string;
  type_of : FieldTy
}.
Arguments mkMember {FieldTy} _ _.
Arguments identifier_of {FieldTy} _.
Arguments type_of {FieldTy} _.

Record Reflection (FieldTy : Type) := mkReflection {
  nonstatic_data_members_of : TypeId → list (Member FieldTy);
  bases_of : TypeId → list TypeId
}.
Arguments mkReflection {FieldTy} _ _.
Arguments nonstatic_data_members_of {FieldTy} _ _.
Arguments bases_of {FieldTy} _ _.

(** ** Results of running a piece of the header

    A [static_assert] that does not hold and a constant expression that
    cannot be evaluated both reject the program when it is built; they are
    kept apart from what can go wrong while it runs. *)

Inductive Error :=
| EStaticAssert   (* a [static_assert] of the traversal does not hold *)
| EIllFormed      (* another build-time rejection: failed consteval assert,
                     constant index out of range *)
| EUndefined      (* run-time access outside a container *)
| EShape          (* the object does not have the layout of its class *)
| EArchive        (* the archive rejected the value or the input *)
| EFuel.          (* the call budget of the model is used up *)

Inductive Outcome (X : Type) :=
| Done (x : X)
| Failed (e : Error).
Arguments Done {X} _.
Arguments Failed {X} _.

Definition Outcome_bind {X Y} (m : Outcome X) (k : X → Outcome Y) : Outcome Y :=
  match m with
  | Done x => k x
  | Failed e => Failed e
  end.

Definition orFail {X} (e : Error) (o : option X) : Outcome X :=
  match o with
  | Some x => Done x
  | None => Failed e
  end.

Declare Scope outcome_scope.
Delimit Scope outcome_scope with outcome.
Notation "'do' x <- m ; k" := (Outcome_bind m (λ x, k))
  (at level 10, x pattern, m at level 100, k at level 200,
   format "'[v' 'do'  x  <-  m ; '/' k ']'") : outcome_scope.
Open Scope outcome_scope.

(** ** The descriptor: [ClassSingleton<Class>] *)

Definition MAX_IDENTIFIER_LENGTH : nat := 256.
Definition MAX_CLASS_MEMBERS : nat := 256.

Definition NUL : ascii := Ascii.zero.

(** [std::array<std::array<char, MAX_IDENTIFIER_LENGTH>, MAX_CLASS_MEMBERS>] *)
Abbreviation NameTable := (list (list ascii)) (only parsing).

(** [std::copy(src.begin(), src.end(), dst.begin())] on a row that is at
    least as long as [src]. *)
Definition std_copy (src dst : list ascii) : list ascii :=
  src ++ drop (length src) dst.

(** The second loop of [classMemberNames], from [memberIndex] on; [None]
    when the [assert] on the identifier length fails. *)
Fixpoint copyNames (members : list string) (memberIndex : nat)
    (names : NameTable) : option NameTable :=
  match members with
  | [] => Some names
  | m :: members' =>
      let svName := list_ascii_of_string m in
      if decide (length svName < MAX_IDENTIFIER_LENGTH) then
        match names !! memberIndex with
        | Some row =>
            copyNames members' (S memberIndex)
              (<[memberIndex := std_copy svName row]> names)
        | None => None
        end
      else None
  end.

(** [consteval auto classMemberNames()], applied to the identifiers of the
    direct members; [None] is the failure of one of its two [assert]s
    during constant evaluation. *)
Definition classMemberNames (members : list string) : option NameTable :=
  if decide (length members < MAX_CLASS_MEMBERS - 1) then
    copyNames members 0
      (replicate MAX_CLASS_MEMBERS (replicate MAX_IDENTIFIER_LENGTH NUL))
  else None.

(** [std::string name(row.data())]: the characters before the first NUL;
    [None] when the row holds no NUL. *)
Fixpoint c_str (row : list ascii) : option (list ascii) :=
  match row with
  | [] => None
  | ch :: row' =>
      if decide (ch = NUL) then Some []
      else match c_str row' with
           | Some s => Some (ch :: s)
           | None => None
           end
  end.

(** The [while] loop of the constructor over the rows from [idx] on; it
    stops at the first row whose first character is NUL and is undefined
    ([None]) when it leaves the table. *)
Fixpoint restringify (rows : NameTable) : option (list string) :=
  match rows with
  | [] => None
  | row :: rows' =>
      match row with
      | [] => None
      | ch :: _ =>
          if decide (ch = NUL) then Some []
          else match c_str row, restringify rows' with
               | Some name, Some names =>
                   Some (string_of_list_ascii name :: names)
               | _, _ => None
               end
      end
  end.

Record ClassSingleton := mkClassSingleton {
  ReflectionType : TypeId;
  _memberCount : nat;
  _baseCount : nat;
  _bases : list TypeId;
  _memberNamesStrings : list string
}.

Definition memberAtIndex (d : ClassSingleton) (index : nat) : option string :=
  _memberNamesStrings d !! index.
Definition memberCount (d : ClassSingleton) : nat := _memberCount d.
Definition baseCount (d : ClassSingleton) : nat := _baseCount d.
Definition getMemberNames (d : ClassSingleton) : list string :=
  _memberNamesStrings d.

Section Descriptor.
Context {FieldTy : Type}.
Variable R : Reflection FieldTy.

Definition memberIdentifiers (Class : TypeId) : list string :=
  identifier_of <$> nonstatic_data_members_of R Class.

(** The private constructor [ClassSingleton()]. *)
Definition ClassSingleton_ctor (Class : TypeId) : option ClassSingleton :=
  match classMemberNames (memberIdentifiers Class) with
  | Some memberNames =>
      match restringify memberNames with
      | Some names =>
          Some {| ReflectionType := Class;
                  _memberCount := length (nonstatic_data_members_of R Class);
                  _baseCount := length (bases_of R Class);
                  _bases := bases_of R Class;
                  _memberNamesStrings := names |}
      | None => None
      end
  | None => None
  end.

(** [static const ClassSingleton& instance()]: the function-local static
    is constructed by the first call and handed out by every later one.
    The state is the set of statics initialised so far. *)
Definition instance (Class : TypeId) (statics : gmap TypeId ClassSingleton)
    : option (ClassSingleton * gmap TypeId ClassSingleton) :=
  match statics !! Class with
  | Some d => Some (d, statics)
  | None =>
      match ClassSingleton_ctor Class with
      | Some d => Some (d, <[Class := d]> statics)
      | None => None
      end
  end.

(** A run of descriptor look-ups, in order. *)
Fixpoint lookups (requests : list TypeId) (statics : gmap TypeId ClassSingleton)
    : option (list ClassSingleton * gmap TypeId ClassSingleton) :=
  match requests with
  | [] => Some ([], statics)
  | Class :: requests' =>
      match instance Class statics with
      | Some (d, statics') =>
          match lookups requests' statics' with
          | Some (ds, statics'') => Some (d :: ds, statics'')
          | None => None
          end
      | None => None
      end
  end.
End Descriptor.

(** Rows of the table, for stating what the constructor reads back. *)

Definition zeroRow : list ascii := replicate MAX_IDENTIFIER_LENGTH NUL.

(** The row that holds identifier [s] once it has been copied in. *)
Definition nameRow (s : string) : list ascii :=
  std_copy (list_ascii_of_string s) zeroRow.

(** What reflection hands out as an identifier: not empty, no NUL inside. *)
Definition identifier_ok (s : string) : Prop :=
  s ≠ ""%string ∧ NUL ∉ list_ascii_of_string s.

#[global] Instance identifier_ok_dec s : Decision (identifier_ok s).
Proof. unfold identifier_ok. apply _. Defined.


(** ** Objects and references

    An object of a class holds the sub-objects of its direct bases, in
    declaration order, and the values of its own direct members, in
    declaration order.  [Value] is whatever a member can hold; the
    traversal never looks inside one. *)

#[local] Unset Elimination Schemes.
Inductive Object (Value : Type) := mkObject {
  obj_bases : list (Object Value);
  obj_fields : list Value
}.
#[local] Set Elimination Schemes.
Arguments mkObject {Value} _ _.
Arguments obj_bases {Value} _.
Arguments obj_fields {Value} _.

(** A [Class&] that was reached from the object handed to [save] or [load]
    is that object followed by the base indices of the
    [static_cast<Parent&>]s applied since. *)
Abbreviation Path := (list nat) (only parsing).

(** [static_cast<Parent&>(instance)] for the [index]-th direct base. *)
Definition static_cast (instance : Path) (index : nat) : Path :=
  instance ++ [index].

Fixpoint subobject {Value} (instance : Path) (o : Object Value)
    : option (Object Value) :=
  match instance with
  | [] => Some o
  | k :: instance' =>
      match obj_bases o !! k with
      | Some b => subobject instance' b
      | None => None
      end
  end.

(** Write [v] into member [index] of the sub-object that [instance]
    designates. *)
Fixpoint assign {Value} (instance : Path) (index : nat) (v : Value)
    (o : Object Value) : option (Object Value) :=
  match instance with
  | [] =>
      if decide (index < length (obj_fields o))
      then Some (mkObject (obj_bases o) (<[index := v]> (obj_fields o)))
      else None
  | k :: instance' =>
      match obj_bases o !! k with
      | Some b =>
          match assign instance' index v b with
          | Some b' => Some (mkObject (<[k := b']> (obj_bases o)) (obj_fields o))
          | None => None
          end
      | None => None
      end
  end.

(** Which accessor touched which member of which sub-object. *)
Inductive Access :=
| ConstAccess (instance : Path) (index : nat)     (* [member_ref_const] *)
| MutableAccess (instance : Path) (index : nat).  (* [member_ref] *)

Definition acc_instance (a : Access) : Path :=
  match a with
  | ConstAccess p _ => p
  | MutableAccess p _ => p
  end.

Definition acc_index (a : Access) : nat :=
  match a with
  | ConstAccess _ i => i
  | MutableAccess _ i => i
  end.

(** What a call of the header can read and change: the archive [ar], the
    object that [instance] refers into, and the record of the accessor
    calls made so far. *)
Record World (A Value : Type) := mkWorld {
  w_ar : A;
  w_obj : Object Value;
  w_log : list Access
}.
Arguments mkWorld {A Value} _ _ _.
Arguments w_ar {A Value} _.
Arguments w_obj {A Value} _.
Arguments w_log {A Value} _.

(** ** The archive, as the header uses it

    [ar(cereal::make_nvp(name, constRef))] on an output archive, [ar(ref)]
    on an input archive.  An input archive is told the static type of the
    reference and sees the value it currently holds; it answers with the
    value to store.  [None] is an exception thrown by the archive. *)

Class OutputArchive (A Value : Type) :=
  ar_nvp : A → string → Value → option A.

Class InputArchive (A Value FieldTy : Type) :=
  ar_ref : A → FieldTy → Value → option (A * Value).

(** [std::meta::info] of a direct member, as far as the header uses it. *)
Record Info (FieldTy : Type) := mkInfo {
  info_index : nat;
  info_member : Member FieldTy
}.
Arguments mkInfo {FieldTy} _ _.
Arguments info_index {FieldTy} _.
Arguments info_member {FieldTy} _.

(** The result of [member_ref]: a reference to a member. *)
Record FieldRef := mkFieldRef {
  ref_instance : Path;
  ref_index : nat
}.

Section Traversal.
Context {Value FieldTy : Type}.
Variable R : Reflection FieldTy.

(** The value of [ClassSingleton<Class>::instance()]; it is the same at
    every call of a run (see [instance] and [lookups] above), so the
    traversal reads it without threading the statics. *)
Definition ClassSingleton_instance (Class : TypeId) : Outcome ClassSingleton :=
  orFail EIllFormed (ClassSingleton_ctor R Class).

(** [member_info<Class, idx>()] *)
Definition member_info (Class : TypeId) (idx : nat) : Outcome (Info FieldTy) :=
  match nonstatic_data_members_of R Class !! idx with
  | Some member => Done (mkInfo idx member)
  | None => Failed EIllFormed
  end.

Section Accessors.
Context {A : Type}.

(** [member_ref_const<Class, info>(instance)]: returns [const auto], a
    copy of the member. *)
Definition member_ref_const (info : Info FieldTy) (instance : Path)
    (w : World A Value) : Outcome (Value * World A Value) :=
  match subobject instance (w_obj w) with
  | Some o =>
      match obj_fields o !! info_index info with
      | Some v =>
          Done (v, mkWorld (w_ar w) (w_obj w)
                     (w_log w ++ [ConstAccess instance (info_index info)]))
      | None => Failed EShape
      end
  | None => Failed EShape
  end.

(** [member_ref<Class, info>(instance)]: returns [auto&]. *)
Definition member_ref (info : Info FieldTy) (instance : Path)
    (w : World A Value) : Outcome (FieldRef * World A Value) :=
  match subobject instance (w_obj w) with
  | Some o =>
      if decide (info_index info < length (obj_fields o)) then
        Done (mkFieldRef instance (info_index info),
              mkWorld (w_ar w) (w_obj w)
                (w_log w ++ [MutableAccess instance (info_index info)]))
      else Failed EShape
  | None => Failed EShape
  end.

Definition deref (ref : FieldRef) (o : Object Value) : option Value :=
  match subobject (ref_instance ref) o with
  | Some s => obj_fields s !! ref_index ref
  | None => None
  end.
End Accessors.

Section Save.
Context {A : Type} {oar : OutputArchive A Value}.

(** [ar(cereal::make_nvp(name, constRef))] *)
Definition ar_make_nvp (name : string) (constRef : Value)
    (w : World A Value) : Outcome (World A Value) :=
  match ar_nvp (w_ar w) name constRef with
  | Some ar' => Done (mkWorld ar' (w_obj w) (w_log w))
  | None => Failed EArchive
  end.

(** [saveHelper<Archive, Class, memberCount, index>(ar, instance)] and
    [saveParents<Archive, Class, index>(ar, instance)].  Every call
    takes one unit of [fuel]. *)
Fixpoint saveHelper (fuel : nat) (Class : TypeId) (index : nat)
    (instance : Path) (w : World A Value) {struct fuel}
    : Outcome (World A Value) :=
  match fuel with
  | 0 => Failed EFuel
  | S fuel' =>
      do classInstance <- ClassSingleton_instance Class;
      if negb (0 <? memberCount classInstance) then Failed EStaticAssert
      else if negb (index <? memberCount classInstance) then Failed EStaticAssert
      else
        do w1 <- (if index =? 0 then
                    if 0 <? baseCount classInstance
                    then saveParents fuel' Class 0 instance w
                    else Done w
                  else Done w);
        do ref_info <- member_info Class index;
        do cw <- member_ref_const ref_info instance w1;
        do name <- orFail EUndefined (memberAtIndex classInstance index);
        do w2 <- ar_make_nvp name cw.1 cw.2;
        if index + 1 <? memberCount classInstance
        then saveHelper fuel' Class (index + 1) instance w2
        else Done w2
  end
with saveParents (fuel : nat) (Class : TypeId) (index : nat)
    (instance : Path) (w : World A Value) {struct fuel}
    : Outcome (World A Value) :=
  match fuel with
  | 0 => Failed EFuel
  | S fuel' =>
      do classInstance <- ClassSingleton_instance Class;
      do Parent <- orFail EIllFormed (_bases classInstance !! index);
      do parentInstance <- ClassSingleton_instance Parent;
      let baseInstance := static_cast instance index in
      do w1 <- saveHelper fuel' Parent 0 baseInstance w;
      if index + 1 <? baseCount classInstance
      then saveParents fuel' Class (index + 1) instance w1
      else Done w1
  end.

(** [cereal::save(ar, instance)] *)
Definition save (fuel : nat) (Class : TypeId) (instance : Path)
    (w : World A Value) : Outcome (World A Value) :=
  do classInstance <- ClassSingleton_instance Class;
  saveHelper fuel Class 0 instance w.
End Save.

Section Load.
Context {A : Type} {iar : InputArchive A Value FieldTy}.

(** [ar(ref)] for a reference to a member of static type [ty]. *)
Definition ar_load_ref (ty : FieldTy) (ref : FieldRef)
    (w : World A Value) : Outcome (World A Value) :=
  match deref ref (w_obj w) with
  | Some old =>
      match ar_ref (w_ar w) ty old with
      | Some (ar', new) =>
          match assign (ref_instance ref) (ref_index ref) new (w_obj w) with
          | Some obj' => Done (mkWorld ar' obj' (w_log w))
          | None => Failed EShape
          end
      | None => Failed EArchive
      end
  | None => Failed EShape
  end.

(** [loadHelper<Archive, Class, memberCount, index>(ar, instance)] and
    [loadParents<Archive, Class, index>(ar, instance)]. *)
Fixpoint loadHelper (fuel : nat) (Class : TypeId) (index : nat)
    (instance : Path) (w : World A Value) {struct fuel}
    : Outcome (World A Value) :=
  match fuel with
  | 0 => Failed EFuel
  | S fuel' =>
      do classInstance <- ClassSingleton_instance Class;
      if negb (0 <? memberCount classInstance) then Failed EStaticAssert
      else if negb (index <? memberCount classInstance) then Failed EStaticAssert
      else
        do w1 <- (if index =? 0 then
                    if 0 <? baseCount classInstance
                    then loadParents fuel' Class 0 instance w
                    else Done w
                  else Done w);
        do ref_info <- member_info Class index;
        do rw <- member_ref ref_info instance w1;
        do w2 <- ar_load_ref (type_of (info_member ref_info)) rw.1 rw.2;
        if index + 1 <? memberCount classInstance
        then loadHelper fuel' Class (index + 1) instance w2
        else Done w2
  end
with loadParents (fuel : nat) (Class : TypeId) (index : nat)
    (instance : Path) (w : World A Value) {struct fuel}
    : Outcome (World A Value) :=
  match fuel with
  | 0 => Failed EFuel
  | S fuel' =>
      do classInstance <- ClassSingleton_instance Class;
      do Parent <- orFail EIllFormed (_bases classInstance !! index);
      do parentInstance <- ClassSingleton_instance Parent;
      let baseInstance := static_cast instance index in
      do w1 <- loadHelper fuel' Parent 0 baseInstance w;
      if index + 1 <? baseCount classInstance
      then loadParents fuel' Class (index + 1) instance w1
      else Done w1
  end.

(** [cereal::load(ar, instance)] *)
Definition load (fuel : nat) (Class : TypeId) (instance : Path)
    (w : World A Value) : Outcome (World A Value) :=
  do classInstance <- ClassSingleton_instance Class;
  loadHelper fuel Class 0 instance w.
End Load.
End Traversal.

(** ** The traversal algorithm as iteration

    Section 4.3 of the specification describes the traversal as two loops:
    over the direct bases, in order, each handled by the same procedure,
    and then over the direct members, in order.  The definitions below
    follow those words; the theorems compare the recursive helpers of the
    header with them. *)

Section Algorithm.
Context {Value FieldTy : Type}.
Variable R : Reflection FieldTy.

(** The named values a save hands to the archive, in order. *)
Fixpoint flatten (Class : TypeId) (o : Object Value) {struct o}
    : list (string * Value) :=
  match o with
  | mkObject bases fields =>
      (fix flatten_bases (cs : list TypeId) (bs : list (Object Value))
           {struct bs} : list (string * Value) :=
         match cs, bs with
         | c :: cs', b :: bs' => flatten c b ++ flatten_bases cs' bs'
         | _, _ => []
         end) (bases_of R Class) bases
      ++ zip (memberIdentifiers R Class) fields
  end.

Fixpoint flatten_bases (cs : list TypeId) (bs : list (Object Value))
    : list (string * Value) :=
  match cs, bs with
  | c :: cs', b :: bs' => flatten c b ++ flatten_bases cs' bs'
  | _, _ => []
  end.

(** The members touched, in order: those of base [k] at
    [instance ++ [k]], for [k] from 0 on, and then the own members
    0 .. fieldCount-1 at [instance]. *)
Fixpoint visits (mk : Path → nat → Access) (Class : TypeId)
    (instance : Path) (o : Object Value) {struct o} : list Access :=
  match o with
  | mkObject bases fields =>
      (fix visits_bases (k : nat) (cs : list TypeId)
           (bs : list (Object Value)) {struct bs} : list Access :=
         match cs, bs with
         | c :: cs', b :: bs' =>
             visits mk c (static_cast instance k) b
               ++ visits_bases (S k) cs' bs'
         | _, _ => []
         end) 0 (bases_of R Class) bases
      ++ (mk instance <$> seq 0 (length (nonstatic_data_members_of R Class)))
  end.

Fixpoint visits_bases (mk : Path → nat → Access) (instance : Path) (k : nat)
    (cs : list TypeId) (bs : list (Object Value)) : list Access :=
  match cs, bs with
  | c :: cs', b :: bs' =>
      visits mk c (static_cast instance k) b
        ++ visits_bases mk instance (S k) cs' bs'
  | _, _ => []
  end.

(** Hand a list of named values to an output archive, one after the
    other. *)
Fixpoint run_nvps {A} `{!OutputArchive A Value} (ar : A)
    (nvps : list (string * Value)) : option A :=
  match nvps with
  | [] => Some ar
  | (name, v) :: nvps' =>
      match ar_nvp ar name v with
      | Some ar' => run_nvps ar' nvps'
      | None => None
      end
  end.

Section AlgorithmLoad.
Context {A : Type} {iar : InputArchive A Value FieldTy}.

(** Let the archive fill the members [olds] of static types [tys], one
    after the other; members beyond [tys] keep their value. *)
Fixpoint load_fields (tys : list FieldTy) (olds : list Value) (ar : A)
    : option (A * list Value) :=
  match tys, olds with
  | [], _ => Some (ar, olds)
  | ty :: tys', old :: olds' =>
      match ar_ref ar ty old with
      | Some (ar', new) =>
          match load_fields tys' olds' ar' with
          | Some (ar'', news) => Some (ar'', new :: news)
          | None => None
          end
      | None => None
      end
  | _ :: _, [] => None
  end.

(** Load an object of [Class]: the bases, in order, then the members. *)
Fixpoint unflatten (Class : TypeId) (o : Object Value) (ar : A) {struct o}
    : option (A * Object Value) :=
  match o with
  | mkObject bases fields =>
      match
        (fix unflatten_bases (cs : list TypeId) (bs : list (Object Value))
             (ar : A) {struct bs} : option (A * list (Object Value)) :=
           match cs, bs with
           | [], _ => Some (ar, bs)
           | c :: cs', b :: bs' =>
               match unflatten c b ar with
               | Some (ar', b') =>
                   match unflatten_bases cs' bs' ar' with
                   | Some (ar'', bs'') => Some (ar'', b' :: bs'')
                   | None => None
                   end
               | None => None
               end
           | _ :: _, [] => None
           end) (bases_of R Class) bases ar
      with
      | Some (ar', bases') =>
          match load_fields (type_of <$> nonstatic_data_members_of R Class)
                  fields ar' with
          | Some (ar'', fields') => Some (ar'', mkObject bases' fields')
          | None => None
          end
      | None => None
      end
  end.

Fixpoint unflatten_bases (cs : list TypeId) (bs : list (Object Value))
    (ar : A) : option (A * list (Object Value)) :=
  match cs, bs with
  | [], _ => Some (ar, bs)
  | c :: cs', b :: bs' =>
      match unflatten c b ar with
      | Some (ar', b') =>
          match unflatten_bases cs' bs' ar' with
          | Some (ar'', bs'') => Some (ar'', b' :: bs'')
          | None => None
          end
      | None => None
      end
  | _ :: _, [] => None
  end.
End AlgorithmLoad.

(** An object has the layout of [Class]: one sub-object per direct base,
    each with the layout of that base, and one value per direct member. *)
Fixpoint conforms (Class : TypeId) (o : Object Value) {struct o} : Prop :=
  match o with
  | mkObject bases fields =>
      (fix conforms_bases (cs : list TypeId) (bs : list (Object Value))
           {struct bs} : Prop :=
         match cs, bs with
         | [], [] => True
         | c :: cs', b :: bs' => conforms c b ∧ conforms_bases cs' bs'
         | _, _ => False
         end) (bases_of R Class) bases
      ∧ length fields = length (nonstatic_data_members_of R Class)
  end.

Fixpoint conforms_bases (cs : list TypeId) (bs : list (Object Value)) : Prop :=
  match cs, bs with
  | [], [] => True
  | c :: cs', b :: bs' => conforms c b ∧ conforms_bases cs' bs'
  | _, _ => False
  end.
(** The object has the layout of [Class] and every member holds a value of
    the member's type, where [typed] says which values a type has. *)
Fixpoint well_typed (typed : FieldTy → Value → Prop) (Class : TypeId)
    (o : Object Value) {struct o} : Prop :=
  match o with
  | mkObject bases fields =>
      (fix well_typed_bases (cs : list TypeId) (bs : list (Object Value))
           {struct bs} : Prop :=
         match cs, bs with
         | [], [] => True
         | c :: cs', b :: bs' => well_typed typed c b ∧ well_typed_bases cs' bs'
         | _, _ => False
         end) (bases_of R Class) bases
      ∧ Forall2 (λ m v, typed (type_of m) v)
          (nonstatic_data_members_of R Class) fields
  end.

Fixpoint well_typed_bases (typed : FieldTy → Value → Prop)
    (cs : list TypeId) (bs : list (Object Value)) : Prop :=
  match cs, bs with
  | [], [] => True
  | c :: cs', b :: bs' => well_typed typed c b ∧ well_typed_bases typed cs' bs'
  | _, _ => False
  end.
End Algorithm.

(** ** Member types and classes used in the examples *)

Inductive CppType :=
| TInt                         (* [int] *)
| TString                      (* [std::string] *)
| TClass (Class : TypeId)      (* a class held by value *)
| TSharedPtr (T : CppType).    (* [std::shared_ptr<T>] *)

(** [struct SerialPleh { int foo; std::string bar; };]
    [struct Parent { int foo; };  struct Child : public Parent { int bar; };]
    [struct Wibble { std::shared_ptr<std::string> wobble; };]
    [struct Sharers { std::shared_ptr<std::string> first, second; };]
    and classes that the examples need beyond the test-suite: one without
    members, one that only inherits, one with 255 members. *)
Definition exampleClasses : Reflection CppType :=
  mkReflection
    (λ Class,
       if decide (Class = "SerialPleh"%string) then
         [mkMember "foo" TInt; mkMember "bar" TString]
       else if decide (Class = "Parent"%string) then [mkMember "foo" TInt]
       else if decide (Class = "Child"%string) then [mkMember "bar" TInt]
       else if decide (Class = "Wibble"%string) then
         [mkMember "wobble" (TSharedPtr TString)]
       else if decide (Class = "Sharers"%string) then
         [mkMember "first" (TSharedPtr TString);
          mkMember "second" (TSharedPtr TString)]
       else if decide (Class = "Wide"%string) then
         (λ i, mkMember ("m" +:+ pretty i) TInt) <$> seq 0 255
       else [])
    (λ Class,
       if decide (Class = "Child"%string) then ["Parent"%string]
       else if decide (Class = "OnlyInherits"%string) then ["Parent"%string]
       else []).

(** Induction on objects, with the induction hypothesis for every base
    sub-object. *)
Section ObjectInduction.
Context {Value : Type} (P : Object Value → Prop).
Hypothesis Hmk : ∀ bases fields, Forall P bases → P (mkObject bases fields).

Fixpoint Object_ind (o : Object Value) : P o :=
  match o with
  | mkObject bases fields =>
      Hmk bases fields
        ((fix all (bs : list (Object Value)) : Forall P bs :=
            match bs with
            | [] => @List.Forall_nil _ P
            | b :: bs' => @List.Forall_cons _ P b bs' (Object_ind b) (all bs')
            end) bases)
  end.
End ObjectInduction.

(** Replace the sub-object that [instance] designates. *)
Fixpoint put_subobject {Value} (instance : Path) (s : Object Value)
    (o : Object Value) : option (Object Value) :=
  match instance with
  | [] => Some s
  | k :: instance' =>
      match obj_bases o !! k with
      | Some b =>
          match put_subobject instance' s b with
          | Some b' => Some (mkObject (<[k := b']> (obj_bases o)) (obj_fields o))
          | None => None
          end
      | None => None
      end
  end.

(** ** The shape that [saveHelper] and [loadHelper] share

    The two helpers differ only in what they do with the member that
    [member_info] designates.  [traverseHelper] takes that step as a
    parameter; it is used to prove once what holds for both. *)

Section Traverse.
Context {Value FieldTy A : Type}.
Variable R : Reflection FieldTy.
Variable step : ClassSingleton → Info FieldTy → Path → World A Value
                → Outcome (World A Value).

Fixpoint traverseHelper (fuel : nat) (Class : TypeId) (index : nat)
    (instance : Path) (w : World A Value) {struct fuel}
    : Outcome (World A Value) :=
  match fuel with
  | 0 => Failed EFuel
  | S fuel' =>
      do classInstance <- ClassSingleton_instance R Class;
      if negb (0 <? memberCount classInstance) then Failed EStaticAssert
      else if negb (index <? memberCount classInstance) then Failed EStaticAssert
      else
        do w1 <- (if index =? 0 then
                    if 0 <? baseCount classInstance
                    then traverseParents fuel' Class 0 instance w
                    else Done w
                  else Done w);
        do ref_info <- member_info R Class index;
        do w2 <- step classInstance ref_info instance w1;
        if index + 1 <? memberCount classInstance
        then traverseHelper fuel' Class (index + 1) instance w2
        else Done w2
  end
with traverseParents (fuel : nat) (Class : TypeId) (index : nat)
    (instance : Path) (w : World A Value) {struct fuel}
    : Outcome (World A Value) :=
  match fuel with
  | 0 => Failed EFuel
  | S fuel' =>
      do classInstance <- ClassSingleton_instance R Class;
      do Parent <- orFail EIllFormed (_bases classInstance !! index);
      do parentInstance <- ClassSingleton_instance R Parent;
      let baseInstance := static_cast instance index in
      do w1 <- traverseHelper fuel' Parent 0 baseInstance w;
      if index + 1 <? baseCount classInstance
      then traverseParents fuel' Class (index + 1) instance w1
      else Done w1
  end.
End Traverse.

(** The member step of [saveHelper] and of [loadHelper]. *)
Definition save_step {Value FieldTy A} `{!OutputArchive A Value}
    (classInstance : ClassSingleton) (ref_info : Info FieldTy)
    (instance : Path) (w : World A Value) : Outcome (World A Value) :=
  do cw <- member_ref_const ref_info instance w;
  do name <- orFail EUndefined (memberAtIndex classInstance (info_index ref_info));
  ar_make_nvp name cw.1 cw.2.

Definition load_step {Value FieldTy A} `{!InputArchive A Value FieldTy}
    (classInstance : ClassSingleton) (ref_info : Info FieldTy)
    (instance : Path) (w : World A Value) : Outcome (World A Value) :=
  do rw <- member_ref ref_info instance w;
  ar_load_ref (type_of (info_member ref_info)) rw.1 rw.2.

(** ** Which instantiations a traversal of [Root] asks for, how many calls
    deep it goes, and how many classes deep *)

Section Hierarchy.
Context {FieldTy : Type}.
Variable R : Reflection FieldTy.

(** [Invoked Root Class index]: the traversal that starts with
    [saveHelper<Root, 0>] (or [loadHelper<Root, 0>]) calls the helper of
    [Class] at [index]. *)
Inductive Invoked (Root : TypeId) : TypeId → nat → Prop :=
| Invoked_root : Invoked Root Root 0
| Invoked_base Class Parent :
    Invoked Root Class 0 →
    Parent ∈ bases_of R Class →
    Invoked Root Parent 0
| Invoked_next Class index :
    Invoked Root Class index →
    index + 1 < length (nonstatic_data_members_of R Class) →
    Invoked Root Class (index + 1).

(** Calls on the stack below [saveParents<Class, k>] when the bases from
    [k] on are [Parents] and base [b] needs [need b]. *)
Fixpoint parentFrames (need : TypeId → nat) (Parents : list TypeId) : nat :=
  match Parents with
  | [] => 0
  | Parent :: Parents' => S (need Parent `max` parentFrames need Parents')
  end.

(** Calls on the stack below and including [saveHelper<Class, 0>], for a
    class whose bases nest at most [r] deep. *)
Fixpoint frames (r : nat) (Class : TypeId) : nat :=
  match r with
  | 0 => 1 `max` length (nonstatic_data_members_of R Class)
  | S r' =>
      (1 `max` length (nonstatic_data_members_of R Class))
        `max` S (parentFrames (frames r') (bases_of R Class))
  end.

(** The number of ancestor levels above [Class]. *)
Fixpoint levels (r : nat) (Class : TypeId) : nat :=
  match r with
  | 0 => 0
  | S r' =>
      match bases_of R Class with
      | [] => 0
      | Parents => S (max_list (levels r' <$> Parents))
      end
  end.
End Hierarchy.

(** An access made through [member_ref_const]. *)
Definition is_const_access (a : Access) : Prop :=
  match a with
  | ConstAccess _ _ => True
  | MutableAccess _ _ => False
  end.

(** The largest number of [static_cast]s behind a logged access. *)
Definition depth_of (log : list Access) : nat :=
  max_list ((length ∘ acc_instance) <$> log).

(** ** Values and archives used in the examples *)

Inductive CppValue :=
| VInt (z : Z)
| VString (s : string)
| VShared (target : option nat).  (* [std::shared_ptr]: null or the address
                                     of the object it shares *)

(** An output archive that keeps the calls it receives, and an input
    archive that hands back recorded values in the order they were
    recorded, whatever their names. *)
#[global] Instance recorder_nvp {Value} : OutputArchive (list (string * Value)) Value :=
  λ ar name v, Some (ar ++ [(name, v)]).

#[global] Instance replayer_ref {Value FieldTy}
    : InputArchive (list (string * Value)) Value FieldTy :=
  λ ar _ _,
    match ar with
    | (_, v) :: ar' => Some (ar', v)
    | [] => None
    end.

Definition pleh : Object CppValue :=
  mkObject [] [VInt 1; VString "PLEH!"].

Definition child : Object CppValue :=
  mkObject [mkObject [] [VInt 22]] [VInt 42].

(** A default-constructed [Child], as the target of a load. *)
Definition child0 : Object CppValue :=
  mkObject [mkObject [] [VInt 0]] [VInt 0].

Definition onlyInherits : Object CppValue :=
  mkObject [mkObject [] [VInt 22]] [].

Definition empty : Object CppValue := mkObject [] [].

(** A descriptor that is not what the constructor builds for any of the
    example classes, and statics in which it is stored for [Wide]. *)
Definition storedDescriptor : ClassSingleton :=
  {| ReflectionType := "Wide"%string;
     _memberCount := 1; _baseCount := 0; _bases := [];
     _memberNamesStrings := ["stored"%string] |}.

Definition storedStatics : gmap TypeId ClassSingleton :=
  {[ "Wide"%string := storedDescriptor ]}.

(** [struct Empty {}; struct ChildOfEmpty : Empty { int bar; };]: a class
    with a member whose base has none. *)
Definition emptyBaseClasses : Reflection CppType :=
  mkReflection
    (λ Class,
       if decide (Class = "ChildOfEmpty"%string) then [mkMember "bar" TInt]
       else [])
    (λ Class,
       if decide (Class = "ChildOfEmpty"%string) then ["Empty"%string]
       else []).

Definition childOfEmpty : Object CppValue :=
  mkObject [mkObject [] []] [VInt 42].

(** The descriptor of [Class] can be built and the traversal's member-count
    check holds for it. *)
Definition accepted {FieldTy} (R : Reflection FieldTy) (Class : TypeId) : Prop :=
  ClassSingleton_ctor R Class ≠ None
  ∧ 0 < length (nonstatic_data_members_of R Class).

(** [Class] and every class it inherits from, directly or not, is
    [accepted]. *)
Definition hierarchy_accepted {FieldTy} (R : Reflection FieldTy)
    (Class : TypeId) : Prop :=
  ∀ Ancestor, rtc (λ C B, B ∈ bases_of R C) Class Ancestor → accepted R Ancestor.

(** ** cereal's archives

    Modelled from the spec: the archives are cereal's, not the header's.
    Section 4.4 of the specification gives what the header relies on: a
    binary form that keeps no names and leaves the meaning to the order,
    and two text forms, JSON and XML, that keep the name of every value and
    nest one node per object.  The wire form is kept as the sequence of
    its tokens.  On input a name is read past, never compared: the header
    passes none to match. *)

Inductive Tok :=
| TokName (name : string)
| TokStart
| TokEnd
| TokInt (z : Z)
| TokStr (s : string)
| TokFirst (id : nat)   (* a shared object met for the first time *)
| TokBack (id : nat)    (* a shared object met before *)
| TokNull.              (* a null pointer *)

Inductive Format := Binary | JSON | XML.

(** What the constructor of an output archive writes and what its
    destructor adds. *)
Definition archive_opens (f : Format) : list Tok :=
  match f with
  | Binary => []
  | JSON => [TokStart]
  | XML => [TokName "cereal"; TokStart]
  end.

Definition archive_closes (f : Format) : list Tok :=
  match f with
  | Binary => []
  | JSON | XML => [TokEnd]
  end.

(** The node around the members of an object. *)
Definition node_starts (f : Format) (name : string) : list Tok :=
  match f with
  | Binary => []
  | JSON | XML => [TokName name; TokStart]
  end.

Definition node_ends (f : Format) : list Tok :=
  match f with
  | Binary => []
  | JSON | XML => [TokEnd]
  end.

Definition scalar_token (v : CppValue) : option Tok :=
  match v with
  | VInt z => Some (TokInt z)
  | VString s => Some (TokStr s)
  | VShared _ => None
  end.

Definition encode (f : Format) (name : string) (v : CppValue)
    : option (list Tok) :=
  match scalar_token v with
  | Some t =>
      Some match f with
           | Binary => [t]
           | JSON => [TokName name; t]
           | XML => [TokName name; TokStart; t; TokEnd]
           end
  | None => None
  end.

Definition read_scalar (ty : CppType) (t : Tok) : option CppValue :=
  match ty, t with
  | TInt, TokInt z => Some (VInt z)
  | TString, TokStr s => Some (VString s)
  | _, _ => None
  end.

Definition decode (f : Format) (ty : CppType) (ts : list Tok)
    : option (list Tok * CppValue) :=
  match f, ts with
  | Binary, t :: rest =>
      match read_scalar ty t with
      | Some v => Some (rest, v)
      | None => None
      end
  | JSON, TokName _ :: t :: rest =>
      match read_scalar ty t with
      | Some v => Some (rest, v)
      | None => None
      end
  | XML, TokName _ :: TokStart :: t :: TokEnd :: rest =>
      match read_scalar ty t with
      | Some v => Some (rest, v)
      | None => None
      end
  | _, _ => None
  end.

(** Read past the tokens [expected], names aside. *)
Fixpoint read_past (expected ts : list Tok) : option (list Tok) :=
  match expected, ts with
  | [] , _ => Some ts
  | TokName _ :: expected', TokName _ :: ts' => read_past expected' ts'
  | TokStart :: expected', TokStart :: ts' => read_past expected' ts'
  | TokEnd :: expected', TokEnd :: ts' => read_past expected' ts'
  | _, _ => None
  end.

(** The stream an archive of format [f] is bound to. *)
Definition Stream (f : Format) : Type := list Tok.

#[global] Instance cereal_nvp f : OutputArchive (Stream f) CppValue :=
  λ ar name v,
    match encode f name v with
    | Some ts => Some (ar ++ ts)
    | None => None
    end.

#[global] Instance cereal_ref f : InputArchive (Stream f) CppValue CppType :=
  λ ar ty _, decode f ty ar.

Definition cpp_typed (ty : CppType) (v : CppValue) : Prop :=
  match ty, v with
  | TInt, VInt _ => True
  | TString, VString _ => True
  | _, _ => False
  end.

(** ** The convenience functions of the header *)

Section Convenience.
Variable R : Reflection CppType.

(** [ar(obj)] for an object of a class: cereal opens a node, calls
    [cereal::save] or [cereal::load] of the header, and closes the node. *)
Definition ar_object_out (f : Format) (fuel : nat) (Class : TypeId)
    (w : World (Stream f) CppValue) : Outcome (World (Stream f) CppValue) :=
  do w1 <- save (oar := cereal_nvp f) R fuel Class []
             (mkWorld (w_ar w ++ node_starts f "value0") (w_obj w) (w_log w));
  Done (mkWorld (w_ar w1 ++ node_ends f) (w_obj w1) (w_log w1)).

Definition ar_object_in (f : Format) (fuel : nat) (Class : TypeId)
    (w : World (Stream f) CppValue) : Outcome (World (Stream f) CppValue) :=
  do ts <- orFail EArchive (read_past (node_starts f "value0") (w_ar w));
  do w1 <- load (iar := cereal_ref f) R fuel Class []
             (mkWorld ts (w_obj w) (w_log w));
  do ts' <- orFail EArchive (read_past (node_ends f) (w_ar w1));
  Done (mkWorld ts' (w_obj w1) (w_log w1)).

(** [to_output_archive(obj, ar)] and [from_input_archive(obj, ar)] *)
Definition to_output_archive (f : Format) (fuel : nat) (Class : TypeId)
    (w : World (Stream f) CppValue) : Outcome (World (Stream f) CppValue) :=
  ar_object_out f fuel Class w.

Definition from_input_archive (f : Format) (fuel : nat) (Class : TypeId)
    (w : World (Stream f) CppValue) : Outcome (World (Stream f) CppValue) :=
  ar_object_in f fuel Class w.

(** An output archive of format [f] constructed on the stream, used by
    [body], and destroyed; the same for an input archive. *)
Definition with_output_archive (f : Format)
    (body : World (Stream f) CppValue → Outcome (World (Stream f) CppValue))
    (w : World (Stream f) CppValue) : Outcome (World (Stream f) CppValue) :=
  do w1 <- body (mkWorld (w_ar w ++ archive_opens f) (w_obj w) (w_log w));
  Done (mkWorld (w_ar w1 ++ archive_closes f) (w_obj w1) (w_log w1)).

Definition with_input_archive (f : Format)
    (body : World (Stream f) CppValue → Outcome (World (Stream f) CppValue))
    (w : World (Stream f) CppValue) : Outcome (World (Stream f) CppValue) :=
  do ts <- orFail EArchive (read_past (archive_opens f) (w_ar w));
  do w1 <- body (mkWorld ts (w_obj w) (w_log w));
  do ts' <- orFail EArchive (read_past (archive_closes f) (w_ar w1));
  Done (mkWorld ts' (w_obj w1) (w_log w1)).

(** [to_json(obj, stream)], [from_json(obj, stream)], [to_xml(obj, stream)]
    and [from_xml(obj, stream)]: the world holds the stream and [obj]. *)
Definition to_json (fuel : nat) (Class : TypeId)
    (w : World (Stream JSON) CppValue) : Outcome (World (Stream JSON) CppValue) :=
  with_output_archive JSON (to_output_archive JSON fuel Class) w.

Definition from_json (fuel : nat) (Class : TypeId)
    (w : World (Stream JSON) CppValue) : Outcome (World (Stream JSON) CppValue) :=
  with_input_archive JSON (from_input_archive JSON fuel Class) w.

Definition to_xml (fuel : nat) (Class : TypeId)
    (w : World (Stream XML) CppValue) : Outcome (World (Stream XML) CppValue) :=
  with_output_archive XML (ar_object_out XML fuel Class) w.

Definition from_xml (fuel : nat) (Class : TypeId)
    (w : World (Stream XML) CppValue) : Outcome (World (Stream XML) CppValue) :=
  with_input_archive XML (ar_object_in XML fuel Class) w.

(** The string versions: [to_json(obj)] returns [stream.str()] of a fresh
    stream, [from_json(obj, json)] reads from a stream that holds [json]. *)
Definition to_json_string (fuel : nat) (Class : TypeId) (obj : Object CppValue)
    : Outcome (list Tok) :=
  do w <- to_json fuel Class (mkWorld [] obj []);
  Done (w_ar w).

Definition from_json_string (fuel : nat) (Class : TypeId)
    (obj : Object CppValue) (json : list Tok) : Outcome (Object CppValue) :=
  do w <- from_json fuel Class (mkWorld json obj []);
  Done (w_obj w).

Definition to_xml_string (fuel : nat) (Class : TypeId) (obj : Object CppValue)
    : Outcome (list Tok) :=
  do w <- to_xml fuel Class (mkWorld [] obj []);
  Done (w_ar w).

Definition from_xml_string (fuel : nat) (Class : TypeId)
    (obj : Object CppValue) (xml : list Tok) : Outcome (Object CppValue) :=
  do w <- from_xml fuel Class (mkWorld xml obj []);
  Done (w_obj w).
End Convenience.

(** A default-constructed [SerialPleh]. *)
Definition pleh0 : Object CppValue :=
  mkObject [] [VInt 0; VString ""].

(** A rank for the example classes: the two derived classes above the
    rest. *)
Definition exampleRank (Class : TypeId) : nat :=
  if decide (Class = "Child"%string) then 1
  else if decide (Class = "OnlyInherits"%string) then 1
  else 0.

(** ** Shared references

    Modelled from the spec: members of type [std::shared_ptr] are handled
    by cereal's archives, which the header only includes.  Sections 3 and
    4.4 of the specification describe a registry owned by the archive:
    the first occurrence of an object identity is serialized in full, a
    later occurrence writes a back-reference only; on load the first
    occurrence materialises the shared instance and a later one is rewired
    to that instance.

    A shared object lives in a memory, a list of values addressed by
    position; the archive reads the memory when it follows a pointer on
    output and extends it when it materialises an object on input. *)

#[global] Instance Tok_eq_dec : EqDecision Tok.
Proof. solve_decision. Defined.

#[global] Instance CppValue_eq_dec : EqDecision CppValue.
Proof. solve_decision. Defined.

Record TrackingOutput := mkTrackingOutput {
  out_stream : list Tok;
  out_registry : gmap nat nat;     (* address of a shared object ↦ its id *)
  out_memory : list CppValue
}.

Record TrackingInput := mkTrackingInput {
  in_stream : list Tok;
  in_registry : gmap nat nat;      (* id ↦ address of the restored object *)
  in_memory : list CppValue
}.

(** The node a pointer is written as. *)
Definition pointer_node (f : Format) (name : string) (body : list Tok)
    : list Tok :=
  node_starts f name ++ body ++ node_ends f.

#[global] Instance tracking_nvp f : OutputArchive TrackingOutput CppValue :=
  λ ar name v,
    match v with
    | VShared None =>
        Some (mkTrackingOutput (out_stream ar ++ pointer_node f name [TokNull])
                (out_registry ar) (out_memory ar))
    | VShared (Some a) =>
        match out_registry ar !! a with
        | Some id =>
            Some (mkTrackingOutput
                    (out_stream ar ++ pointer_node f name [TokBack id])
                    (out_registry ar) (out_memory ar))
        | None =>
            match out_memory ar !! a with
            | Some target =>
                match encode f "data" target with
                | Some data =>
                    let id := size (out_registry ar) in
                    Some (mkTrackingOutput
                            (out_stream ar
                             ++ pointer_node f name (TokFirst id :: data))
                            (<[a := id]> (out_registry ar)) (out_memory ar))
                | None => None
                end
            | None => None
            end
        end
    | _ =>
        match encode f name v with
        | Some ts =>
            Some (mkTrackingOutput (out_stream ar ++ ts)
                    (out_registry ar) (out_memory ar))
        | None => None
        end
    end.

#[global] Instance tracking_ref f
    : InputArchive TrackingInput CppValue CppType :=
  λ ar ty _,
    match ty with
    | TSharedPtr T =>
        match read_past (node_starts f "") (in_stream ar) with
        | Some (TokNull :: ts) =>
            match read_past (node_ends f) ts with
            | Some rest =>
                Some (mkTrackingInput rest (in_registry ar) (in_memory ar),
                      VShared None)
            | None => None
            end
        | Some (TokBack id :: ts) =>
            match in_registry ar !! id, read_past (node_ends f) ts with
            | Some a, Some rest =>
                Some (mkTrackingInput rest (in_registry ar) (in_memory ar),
                      VShared (Some a))
            | _, _ => None
            end
        | Some (TokFirst id :: ts) =>
            match decode f T ts with
            | Some (ts', target) =>
                match read_past (node_ends f) ts' with
                | Some rest =>
                    let a := length (in_memory ar) in
                    Some (mkTrackingInput rest (<[id := a]> (in_registry ar))
                            (in_memory ar ++ [target]),
                          VShared (Some a))
                | None => None
                end
            | None => None
            end
        | _ => None
        end
    | _ =>
        match decode f ty (in_stream ar) with
        | Some (rest, v) =>
            Some (mkTrackingInput rest (in_registry ar) (in_memory ar), v)
        | None => None
        end
    end.

(** A value of a member type, with the pointers pointing into [memory]. *)
Definition tracked_typed (memory : list CppValue) (ty : CppType)
    (v : CppValue) : Prop :=
  match ty, v with
  | TSharedPtr _, VShared None => True
  | TSharedPtr T, VShared (Some a) =>
      ∃ target, memory !! a = Some target ∧ cpp_typed T target
  | TSharedPtr _, _ => False
  | _, _ => cpp_typed ty v
  end.

(** Member [index] of the sub-object at [instance]. *)
Definition field_at {Value} (instance : Path) (index : nat)
    (o : Object Value) : option Value :=
  match subobject instance o with
  | Some s => obj_fields s !! index
  | None => None
  end.

(** [*p] and [*p = new] *)
Definition pointee (memory : list CppValue) (p : CppValue)
    : option CppValue :=
  match p with
  | VShared (Some a) => memory !! a
  | _ => None
  end.

Definition assign_pointee (memory : list CppValue) (p : CppValue)
    (new : CppValue) : option (list CppValue) :=
  match p with
  | VShared (Some a) =>
      if decide (a < length memory) then Some (<[a := new]> memory) else None
  | _ => None
  end.

(** How often a token stands in a stream, and how many of the values
    handed to the archive are pointers to the object at [a]. *)
Definition occurrences_of (t : Tok) (ts : list Tok) : nat :=
  length (filter (λ t', t' = t) ts).

Definition pointers_to (a : nat) (nvps : list (string * CppValue)) : nat :=
  length (filter (λ nv, nv.2 = VShared (Some a)) nvps).

(** What a saved value is after the round trip: a pointer to the object
    at [a] becomes a pointer to the object restored for the id of [a]. *)
Definition restored_value (ids ptrs : gmap nat nat) (v : CppValue)
    : option CppValue :=
  match v with
  | VShared (Some a) =>
      match ids !! a with
      | Some id =>
          match ptrs !! id with
          | Some a' => Some (VShared (Some a'))
          | None => None
          end
      | None => None
      end
  | _ => Some v
  end.

Definition restored (ids ptrs : gmap nat nat) (o o' : Object CppValue)
    : Prop :=
  ∀ instance index v,
    field_at instance index o = Some v →
    ∃ v', field_at instance index o' = Some v'
          ∧ restored_value ids ptrs v = Some v'.

(** Two members pointing to one string, and a default-constructed object
    to load into. *)
Definition sharers : Object CppValue :=
  mkObject [] [VShared (Some 0); VShared (Some 0)].

Definition sharers0 : Object CppValue :=
  mkObject [] [VShared None; VShared None].

(** The ids handed out so far are the numbers below the size of the
    registry. *)
Definition registry_ok (out : TrackingOutput) : Prop :=
  ∀ a id, out_registry out !! a = Some id → id < size (out_registry out).

(** The input archive has read what the output archive had written when
    it was in state [out]: every object with an id has been restored, with
    its value. *)
Definition linked (out : TrackingOutput) (inp : TrackingInput) : Prop :=
  ∀ a id, out_registry out !! a = Some id →
    ∃ a' target, in_registry inp !! id = Some a'
                 ∧ in_memory inp !! a' = Some target
                 ∧ out_memory out !! a = Some target.

Definition grows (out : TrackingOutput) (inp : TrackingInput)
    (out' : TrackingOutput) (inp' : TrackingInput) : Prop :=
  ∀ u u',
    restored_value (out_registry out) (in_registry inp) u = Some u' →
    restored_value (out_registry out') (in_registry inp') u = Some u'.

(** Writing took [out] to [out'] and appended [enc]. *)
Definition written (out out' : TrackingOutput) (enc : list Tok) : Prop :=
  out_stream out' = out_stream out ++ enc
  ∧ out_memory out' = out_memory out
  ∧ registry_ok out'.

(** A reader that starts on [enc], linked to [out], takes exactly [enc],
    ends linked to [out'], and returns something that satisfies [post]. *)
Definition reads_back {T} (out out' : TrackingOutput) (enc : list Tok)
    (reader : TrackingInput → option (TrackingInput * T))
    (post : TrackingInput → T → Prop) : Prop :=
  ∀ inp rest,
    linked out inp → in_stream inp = enc ++ rest →
    ∃ inp' x,
      reader inp = Some (inp', x)
      ∧ in_stream inp' = rest
      ∧ linked out' inp'
      ∧ post inp' x
      ∧ grows out inp out' inp'.

(** The tokens that only a pointer puts on the stream. *)
Definition pointer_token (t : Tok) : Prop :=
  match t with
  | TokFirst _ | TokBack _ => True
  | _ => False
  end.

(** The stream and the registry after the values [nvps] were handed to a
    fresh archive: an object with an id was written in full once, and
    every other pointer to it as a back-reference; an object without an id
    was not pointed to; ids not handed out yet do not occur; no two
    objects share an id. *)
Definition counted (out : TrackingOutput) (nvps : list (string * CppValue))
    : Prop :=
  (∀ a,
     match out_registry out !! a with
     | Some id =>
         occurrences_of (TokFirst id) (out_stream out) = 1
         ∧ occurrences_of (TokBack id) (out_stream out) + 1
           = pointers_to a nvps
     | None => pointers_to a nvps = 0
     end)
  ∧ (∀ id, size (out_registry out) ≤ id →
       occurrences_of (TokFirst id) (out_stream out) = 0
       ∧ occurrences_of (TokBack id) (out_stream out) = 0)
  ∧ (∀ a b id,
       out_registry out !! a = Some id → out_registry out !! b = Some id →
       a = b)
  ∧ registry_ok out.

(** ** The header before the descriptor singleton

    [include/fr/autocereal/autocereal.h] also holds the header in its
    first form: the member names are collected by free functions, and
    the helpers take the member count as a template parameter and walk
    the direct members only.  [member_info], [member_ref] and
    [member_ref_const] are the ones above. *)

Module FirstVersion.
Section FirstVersion.
Context {Value FieldTy : Type}.
Variable R : Reflection FieldTy.

(** [consteval size_t member_list_size<Class>()] *)
Definition member_list_size (Class : TypeId) : nat :=
  length (nonstatic_data_members_of R Class).

(** [consteval auto class_member_names<Class>()]; [None] is the failure
    of one of its two [assert]s during constant evaluation. *)
Definition class_member_names (Class : TypeId) : option NameTable :=
  let members := memberIdentifiers R Class in
  if decide (length members < MAX_CLASS_MEMBERS) then
    copyNames members 0
      (replicate MAX_CLASS_MEMBERS (replicate MAX_IDENTIFIER_LENGTH NUL))
  else None.

(** [Stringify::stringify(names)]: the loop that the later constructor
    has in its body. *)
Definition stringify (names : NameTable) : option (list string) :=
  restringify names.

Section Save.
Context {A : Type} {oar : OutputArchive A Value}.

(** [saveHelper<Archive, Class, memberCount, index>(ar, instance)] *)
Fixpoint saveHelper (fuel : nat) (Class : TypeId) (memberCount index : nat)
    (instance : Path) (w : World A Value) {struct fuel}
    : Outcome (World A Value) :=
  match fuel with
  | 0 => Failed EFuel
  | S fuel' =>
      do namesArray <- orFail EIllFormed (class_member_names Class);
      do names <- orFail EUndefined (stringify namesArray);
      if negb (0 <? memberCount) then Failed EStaticAssert
      else if negb (index <? memberCount) then Failed EStaticAssert
      else
        do ref_info <- member_info R Class index;
        do cw <- member_ref_const ref_info instance w;
        do name <- orFail EUndefined (names !! index);
        do w2 <- ar_make_nvp name cw.1 cw.2;
        if index + 1 <? memberCount
        then saveHelper fuel' Class memberCount (index + 1) instance w2
        else Done w2
  end.

(** [cereal::save(ar, instance)] *)
Definition save (fuel : nat) (Class : TypeId) (instance : Path)
    (w : World A Value) : Outcome (World A Value) :=
  let memberCount := member_list_size Class in
  saveHelper fuel Class memberCount 0 instance w.
End Save.

Section Load.
Context {A : Type} {iar : InputArchive A Value FieldTy}.

(** [loadHelper<Archive, Class, memberCount, index>(ar, instance)] *)
Fixpoint loadHelper (fuel : nat) (Class : TypeId) (memberCount index : nat)
    (instance : Path) (w : World A Value) {struct fuel}
    : Outcome (World A Value) :=
  match fuel with
  | 0 => Failed EFuel
  | S fuel' =>
      if negb (0 <? memberCount) then Failed EStaticAssert
      else if negb (index <? memberCount) then Failed EStaticAssert
      else
        do ref_info <- member_info R Class index;
        do rw <- member_ref ref_info instance w;
        do w2 <- ar_load_ref (type_of (info_member ref_info)) rw.1 rw.2;
        if index + 1 <? memberCount
        then loadHelper fuel' Class memberCount (index + 1) instance w2
        else Done w2
  end.

(** [cereal::load(ar, instance)] *)
Definition load (fuel : nat) (Class : TypeId) (instance : Path)
    (w : World A Value) : Outcome (World A Value) :=
  let memberCount := member_list_size Class in
  loadHelper fuel Class memberCount 0 instance w.
End Load.
End FirstVersion.
End FirstVersion.
(** * Properties *)

(** ** Facts about the name table *)

Lemma length_list_ascii_of_string s :
  length (list_ascii_of_string s) = String.length s.
Proof. induction s as [|ch s IH]; simpl; congruence. Qed.

Lemma copyNames_spec members : ∀ pre k,
  length members ≤ k →
  copyNames members (length pre) (pre ++ replicate k zeroRow) =
    if decide (Forall (λ s, String.length s < MAX_IDENTIFIER_LENGTH) members)
    then Some (pre ++ (nameRow <$> members)
                   ++ replicate (k - length members) zeroRow)
    else None.
Proof.
  induction members as [|m members IH]; intros pre k Hk.
  - rewrite decide_True by constructor. simpl. by rewrite Nat.sub_0_r.
  - simpl in Hk. destruct k as [|k]; [lia|]. cbn [copyNames length fmap list_fmap].
    rewrite length_list_ascii_of_string.
    destruct (decide (String.length m < MAX_IDENTIFIER_LENGTH)) as [Hm|Hm].
    + rewrite lookup_app_r by lia. rewrite Nat.sub_diag. simpl.
      rewrite insert_app_r_alt by lia. rewrite Nat.sub_diag. simpl.
      replace (S (length pre)) with (length (pre ++ [nameRow m]))
        by (rewrite length_app; simpl; lia).
      replace (pre ++ std_copy (list_ascii_of_string m) zeroRow
                   :: replicate k zeroRow)
        with ((pre ++ [nameRow m]) ++ replicate k zeroRow)
        by (by rewrite <- app_assoc).
      rewrite IH by lia.
      destruct (decide (Forall _ members)) as [Ha|Ha].
      * rewrite decide_True by (by constructor).
        by rewrite <- app_assoc.
      * rewrite decide_False; [done|].
        intros Hall. apply Ha. by inversion Hall.
    + rewrite decide_False; [done|].
      intros Hall. apply Hm. by inversion Hall.
Qed.

Lemma classMemberNames_spec members :
  classMemberNames members =
    if decide (length members < MAX_CLASS_MEMBERS - 1) then
      if decide (Forall (λ s, String.length s < MAX_IDENTIFIER_LENGTH) members)
      then Some ((nameRow <$> members)
                   ++ replicate (MAX_CLASS_MEMBERS - length members) zeroRow)
      else None
    else None.
Proof.
  unfold classMemberNames.
  destruct (decide (length members < MAX_CLASS_MEMBERS - 1)) as [Hn|Hn]; [|done].
  apply (copyNames_spec members [] MAX_CLASS_MEMBERS). lia.
Qed.

Lemma c_str_terminated (l : list ascii) k :
  ∃ s, c_str (l ++ replicate (S k) NUL) = Some s.
Proof.
  induction l as [|ch l [s IH]].
  - simpl. eauto.
  - cbn [app c_str]. destruct (decide (ch = NUL)); [eauto|]. rewrite IH. eauto.
Qed.

Lemma c_str_clean (l : list ascii) k :
  NUL ∉ l → c_str (l ++ replicate (S k) NUL) = Some l.
Proof.
  induction l as [|ch l IH]; intros Hl.
  - done.
  - cbn [app c_str]. rewrite decide_False by (intros ->; apply Hl; left).
    rewrite IH; [done|]. intros Hin. apply Hl. by right.
Qed.

Lemma nameRow_shape s :
  String.length s < MAX_IDENTIFIER_LENGTH →
  nameRow s = list_ascii_of_string s
                ++ replicate (S (MAX_IDENTIFIER_LENGTH - S (String.length s))) NUL.
Proof.
  intros Hs. unfold nameRow, std_copy, zeroRow.
  rewrite drop_replicate, length_list_ascii_of_string.
  f_equal. f_equal. lia.
Qed.

Lemma zeroRow_head : ∃ row, zeroRow = NUL :: row.
Proof. by exists (replicate (MAX_IDENTIFIER_LENGTH - 1) NUL). Qed.

Lemma restringify_total members k :
  Forall (λ s, String.length s < MAX_IDENTIFIER_LENGTH) members →
  ∃ names, restringify ((nameRow <$> members) ++ replicate (S k) zeroRow)
           = Some names.
Proof.
  destruct zeroRow_head as [zr Hzr].
  induction 1 as [|m members Hm _ [names IH]].
  - cbn [fmap list_fmap app replicate restringify]. rewrite Hzr.
    rewrite decide_True by done. eauto.
  - cbn [fmap list_fmap app restringify]. cbn [fmap] in IH. rewrite IH.
    rewrite (nameRow_shape m Hm).
    destruct (c_str_terminated (list_ascii_of_string m)
                (MAX_IDENTIFIER_LENGTH - S (String.length m))) as [s Hs].
    destruct (list_ascii_of_string m ++ _) as [|ch row]; [done|].
    rewrite Hs. destruct (decide (ch = NUL)); eauto.
Qed.

Lemma restringify_identifiers members k :
  Forall (λ s, String.length s < MAX_IDENTIFIER_LENGTH) members →
  Forall identifier_ok members →
  restringify ((nameRow <$> members) ++ replicate (S k) zeroRow) = Some members.
Proof.
  destruct zeroRow_head as [zr Hzr].
  induction 1 as [|m members Hm _ IH]; intros Hok.
  - cbn [fmap list_fmap app replicate restringify]. rewrite Hzr.
    by rewrite decide_True.
  - inversion Hok as [|?? [Hne Hnul] Hok']; subst.
    cbn [fmap list_fmap app restringify]. cbn [fmap] in IH.
    rewrite IH by done. rewrite (nameRow_shape m Hm).
    rewrite (c_str_clean _ _ Hnul).
    rewrite string_of_list_ascii_of_string.
    destruct m as [|ch m]; [done|]. cbn [list_ascii_of_string app].
    rewrite decide_False; [done|].
    intros ->. apply Hnul. simpl. left.
Qed.

(** ** The descriptor and its bounds *)

Lemma ClassSingleton_ctor_spec {FieldTy} (R : Reflection FieldTy) Class :
  let ids := memberIdentifiers R Class in
  if decide (length ids < MAX_CLASS_MEMBERS - 1) then
    if decide (Forall (λ s, String.length s < MAX_IDENTIFIER_LENGTH) ids) then
      ∃ d, ClassSingleton_ctor R Class = Some d
           ∧ ReflectionType d = Class
           ∧ memberCount d = length (nonstatic_data_members_of R Class)
           ∧ baseCount d = length (bases_of R Class)
           ∧ _bases d = bases_of R Class
           ∧ (Forall identifier_ok ids → getMemberNames d = ids)
    else ClassSingleton_ctor R Class = None
  else ClassSingleton_ctor R Class = None.
Proof.
  intros ids. unfold ClassSingleton_ctor. fold ids.
  rewrite classMemberNames_spec.
  destruct (decide (length ids < _)) as [Hn|Hn]; [|done].
  destruct (decide (Forall _ ids)) as [Hs|Hs]; [|done].
  replace (MAX_CLASS_MEMBERS - length ids)
    with (S (MAX_CLASS_MEMBERS - S (length ids))) by lia.
  destruct (restringify_total ids (MAX_CLASS_MEMBERS - S (length ids)) Hs)
    as [names Hnames].
  rewrite Hnames. eexists. split; [done|]. repeat split.
  intros Hok. unfold getMemberNames. simpl.
  rewrite (restringify_identifiers _ _ Hs Hok) in Hnames. congruence.
Qed.

(** C4 (as the code has it).  Building the descriptor of a class fails, at
    build time, exactly when the class has [MAX_CLASS_MEMBERS - 1] or more
    direct members or one of their identifiers has
    [MAX_IDENTIFIER_LENGTH] or more characters; when it succeeds the stored
    names are the identifiers, none cut short, and the stored count is the
    number of members. *)
Theorem descriptor_construction_bounds {FieldTy} (R : Reflection FieldTy) Class :
  (ClassSingleton_ctor R Class = None ↔
     MAX_CLASS_MEMBERS - 1 ≤ length (nonstatic_data_members_of R Class)
     ∨ Exists (λ m, MAX_IDENTIFIER_LENGTH ≤ String.length (identifier_of m))
         (nonstatic_data_members_of R Class))
  ∧ ∀ d, ClassSingleton_ctor R Class = Some d →
      memberCount d = length (nonstatic_data_members_of R Class)
      ∧ (Forall identifier_ok (memberIdentifiers R Class) →
         getMemberNames d = memberIdentifiers R Class).
Proof.
  pose proof (ClassSingleton_ctor_spec R Class) as H. cbv zeta in H.
  assert (Hlen : length (memberIdentifiers R Class)
                 = length (nonstatic_data_members_of R Class))
    by apply length_fmap.
  assert (Hex : Forall (λ s, String.length s < MAX_IDENTIFIER_LENGTH)
                  (memberIdentifiers R Class)
                ↔ ¬ Exists (λ m, MAX_IDENTIFIER_LENGTH ≤ String.length (identifier_of m))
                      (nonstatic_data_members_of R Class)).
  { unfold memberIdentifiers. rewrite Forall_fmap, <- Forall_Exists_neg.
    apply Forall_iff. intros m. simpl. lia. }
  destruct (decide (length (memberIdentifiers R Class) < _)) as [Hn|Hn].
  - destruct (decide (Forall _ (memberIdentifiers R Class))) as [Hs|Hs].
    + destruct H as (d & Hd & _ & Hmc & _ & _ & Hnames). split.
      * split; [congruence|]. intros [Hbig|Hbig]; [lia|]. by apply Hex in Hs.
      * intros d' Hd'. assert (d' = d) as -> by congruence. done.
    + split.
      * split; [|done]. intros _. right.
        destruct (decide (Exists (λ m, MAX_IDENTIFIER_LENGTH
                                       ≤ String.length (identifier_of m))
                            (nonstatic_data_members_of R Class))) as [|Hne];
          [done|]. by apply Hex in Hne.
      * intros d Hd. congruence.
  - split.
    + split; [|done]. intros _. left. lia.
    + intros d Hd. congruence.
Qed.

(** C4 as stated fails: a class with 255 members, all with short names,
    is below both configured maxima and still has no descriptor. *)
Lemma descriptor_bound_is_not_the_maximum :
  length (nonstatic_data_members_of exampleClasses "Wide") < MAX_CLASS_MEMBERS
  ∧ Forall (λ m, String.length (identifier_of m) < MAX_IDENTIFIER_LENGTH)
      (nonstatic_data_members_of exampleClasses "Wide")
  ∧ ClassSingleton_ctor exampleClasses "Wide" = None.
Proof.
  split; [vm_compute; lia|]. split.
  - eapply (bool_decide_unpack _). vm_compute. exact I.
  - vm_compute. reflexivity.
Qed.

(** ** The descriptor cache *)

Section DescriptorCache.
Context {FieldTy : Type}.
Variable R : Reflection FieldTy.

Lemma instance_stored Class (statics : gmap string ClassSingleton) d statics' :
  instance R Class statics = Some (d, statics') → statics' !! Class = Some d.
Proof.
  unfold instance. destruct (statics !! Class) as [d0|] eqn:Hl.
  - intros [= <- <-]. done.
  - destruct (ClassSingleton_ctor R Class); [|done].
    intros [= <- <-]. apply lookup_insert_eq.
Qed.

Lemma instance_preserves Class C (statics : gmap string ClassSingleton) d d0 statics' :
  statics !! C = Some d0 →
  instance R Class statics = Some (d, statics') → statics' !! C = Some d0.
Proof.
  intros HC. unfold instance. destruct (statics !! Class) as [d1|] eqn:Hl.
  - intros [= <- <-]. done.
  - destruct (ClassSingleton_ctor R Class); [|done].
    intros [= <- <-]. rewrite lookup_insert_ne; [done|]. congruence.
Qed.

Lemma instance_again Class (statics : gmap string ClassSingleton) d :
  statics !! Class = Some d → instance R Class statics = Some (d, statics).
Proof. intros H. unfold instance. by rewrite H. Qed.

Lemma lookups_preserve requests : ∀ C (statics : gmap string ClassSingleton) d0 ds statics',
  statics !! C = Some d0 →
  lookups R requests statics = Some (ds, statics') →
  statics' !! C = Some d0
  ∧ ∀ i, requests !! i = Some C → ds !! i = Some d0.
Proof.
  induction requests as [|Class requests IH]; intros C statics d0 ds statics' HC; simpl.
  - intros [= <- <-]. split; [done|]. intros i Hi. by destruct i.
  - destruct (instance R Class statics) as [[d s1]|] eqn:Hi; [|done].
    destruct (lookups R requests s1) as [[ds1 s2]|] eqn:Hl; [|done].
    intros [= <- <-].
    pose proof (instance_preserves _ _ _ _ _ _ HC Hi) as HC1.
    destruct (IH _ _ _ _ _ HC1 Hl) as [Hs Hds]. split; [done|].
    intros [|i] Hreq; simpl in *.
    + injection Hreq as ->. rewrite (instance_again _ _ _ HC) in Hi. congruence.
    + by apply Hds.
Qed.

(** C8.  A look-up of a class that has no descriptor yet runs the
    constructor, and stores and returns what it builds (and fails when the
    constructor fails).  A look-up of a class that has a stored
    descriptor returns the stored one, whatever it is, and leaves the
    statics as they are: the constructor is not run, so the look-up
    neither fails nor depends on what the constructor would build.
    Whatever look-ups follow, of this or of other classes, the stored
    descriptor stays what it was and every later look-up of the class
    returns it, hence the same names and counts. *)
Theorem descriptor_built_once Class (statics : gmap string ClassSingleton) :
  (statics !! Class = None →
     instance R Class statics
     = match ClassSingleton_ctor R Class with
       | Some d => Some (d, <[Class := d]> statics)
       | None => None
       end)
  ∧ (∀ d0, statics !! Class = Some d0 →
       instance R Class statics = Some (d0, statics)
       ∧ ∀ later ds statics2,
           lookups R later statics = Some (ds, statics2) →
           statics2 !! Class = Some d0
           ∧ instance R Class statics2 = Some (d0, statics2)
           ∧ ∀ i, later !! i = Some Class →
               ds !! i = Some d0
               ∧ (getMemberNames <$> ds !! i) = Some (getMemberNames d0)
               ∧ (memberCount <$> ds !! i) = Some (memberCount d0)
               ∧ (baseCount <$> ds !! i) = Some (baseCount d0))
  ∧ (∀ d statics1 later ds statics2,
       instance R Class statics = Some (d, statics1) →
       lookups R later statics1 = Some (ds, statics2) →
       statics1 !! Class = Some d
       ∧ statics2 !! Class = Some d
       ∧ instance R Class statics2 = Some (d, statics2)
       ∧ ∀ i, later !! i = Some Class →
           ds !! i = Some d
           ∧ (getMemberNames <$> ds !! i) = Some (getMemberNames d)).
Proof.
  split; [|split].
  - intros Hnone. unfold instance. by rewrite Hnone.
  - intros d0 Hst. split; [by apply instance_again|].
    intros later ds statics2 Hlater.
    destruct (lookups_preserve _ _ _ _ _ _ Hst Hlater) as [Hs2 Hds].
    split; [done|]. split; [by apply instance_again|].
    intros i Hi. by rewrite (Hds i Hi).
  - intros d statics1 later ds statics2 Hfirst Hlater.
    pose proof (instance_stored _ _ _ _ Hfirst) as Hst.
    destruct (lookups_preserve _ _ _ _ _ _ Hst Hlater) as [Hs2 Hds].
    split; [done|]. split; [done|]. split; [by apply instance_again|].
    intros i Hi. by rewrite (Hds i Hi).
Qed.
End DescriptorCache.

(** The static of [Wide] holds a descriptor: a look-up returns it, and
    so does every later one, although the constructor, run for [Wide],
    would fail; and on [SerialPleh] the first look-up builds the names foo
    and bar. *)
Lemma descriptor_built_once_witness :
  ClassSingleton_ctor exampleClasses "Wide" = None
  ∧ instance exampleClasses "Wide" storedStatics
    = Some (storedDescriptor, storedStatics)
  ∧ lookups exampleClasses ["Wide"; "Wide"]%string storedStatics
    = Some ([storedDescriptor; storedDescriptor], storedStatics)
  ∧ (∃ d, instance exampleClasses "SerialPleh" storedStatics
          = Some (d, <["SerialPleh"%string := d]> storedStatics)
          ∧ getMemberNames d = ["foo"; "bar"]%string).
Proof.
  assert (Hst : storedStatics !! "Wide"%string = Some storedDescriptor)
    by apply lookup_singleton_eq.
  assert (Hnone : storedStatics !! "SerialPleh"%string = None)
    by (by apply lookup_singleton_ne).
  destruct (descriptor_built_once exampleClasses "Wide" storedStatics)
    as (_ & Hstored & _).
  destruct (Hstored storedDescriptor Hst) as [Hi _].
  split; [by vm_compute|]. split; [exact Hi|].
  split; [cbn [lookups]; by rewrite Hi|].
  destruct (descriptor_built_once exampleClasses "SerialPleh" storedStatics)
    as (Hfirst & _ & _).
  specialize (Hfirst Hnone).
  destruct (ClassSingleton_ctor exampleClasses "SerialPleh") as [d|] eqn:Hd;
    [|by vm_compute in Hd].
  exists d. split; [done|]. vm_compute in Hd. by injection Hd as <-.
Defined.

(** ** Tools for the traversal *)

Lemma Outcome_bind_Done {X Y} (m : Outcome X) (k : X → Outcome Y) y :
  Outcome_bind m k = Done y ↔ ∃ x, m = Done x ∧ k x = Done y.
Proof.
  destruct m as [x|e]; simpl; split.
  - eauto.
  - by intros (x' & [= <-] & Hk).
  - done.
  - by intros (x' & ? & _).
Qed.

Lemma orFail_Done {X} e (o : option X) x : orFail e o = Done x ↔ o = Some x.
Proof. destruct o; simpl; split; congruence. Qed.

Lemma flatten_unfold {Value FieldTy} (R : Reflection FieldTy) Class
    (o : Object Value) :
  flatten R Class o =
    flatten_bases R (bases_of R Class) (obj_bases o)
      ++ zip (memberIdentifiers R Class) (obj_fields o).
Proof.
  destruct o as [bases fields]. simpl. f_equal.
  generalize (bases_of R Class).
  induction bases as [|b bases IH]; intros [|c cs]; simpl; try done.
  by rewrite IH.
Qed.

Lemma visits_unfold {Value FieldTy} (R : Reflection FieldTy) mk Class instance
    (o : Object Value) :
  visits R mk Class instance o =
    visits_bases R mk instance 0 (bases_of R Class) (obj_bases o)
      ++ (mk instance <$> seq 0 (length (nonstatic_data_members_of R Class))).
Proof.
  destruct o as [bases fields]. simpl. f_equal.
  generalize (bases_of R Class) 0.
  induction bases as [|b bases IH]; intros [|c cs] k; simpl; try done.
  by rewrite IH.
Qed.

Lemma unflatten_unfold {Value FieldTy A} `{!InputArchive A Value FieldTy}
    (R : Reflection FieldTy) Class (o : Object Value) (ar : A) :
  unflatten R Class o ar =
    match unflatten_bases R (bases_of R Class) (obj_bases o) ar with
    | Some (ar', bases') =>
        match load_fields (type_of <$> nonstatic_data_members_of R Class)
                (obj_fields o) ar' with
        | Some (ar'', fields') => Some (ar'', mkObject bases' fields')
        | None => None
        end
    | None => None
    end.
Proof.
  destruct o as [bases fields]. simpl.
  match goal with
  | |- match ?x with _ => _ end = match ?y with _ => _ end =>
      replace x with y; [done|]
  end.
  generalize (bases_of R Class). revert ar.
  induction bases as [|b bases IH]; intros ar [|c cs]; simpl; try done.
  destruct (unflatten R c b ar) as [[ar' b']|]; [|done].
  by rewrite IH.
Qed.

Lemma conforms_unfold {Value FieldTy} (R : Reflection FieldTy) Class
    (o : Object Value) :
  conforms R Class o ↔
    conforms_bases R (bases_of R Class) (obj_bases o)
    ∧ length (obj_fields o) = length (nonstatic_data_members_of R Class).
Proof.
  destruct o as [bases fields]. simpl.
  match goal with
  | |- ?x ∧ _ ↔ ?y ∧ _ => cut (x ↔ y); [tauto|]
  end.
  generalize (bases_of R Class).
  induction bases as [|b bases IH]; intros [|c cs]; simpl; try done.
  by rewrite IH.
Qed.

Lemma run_nvps_app {Value A} `{!OutputArchive A Value} (ar : A)
    (l1 l2 : list (string * Value)) :
  run_nvps ar (l1 ++ l2) =
    match run_nvps ar l1 with
    | Some ar' => run_nvps ar' l2
    | None => None
    end.
Proof.
  revert ar. induction l1 as [|[name v] l1 IH]; intros ar; simpl; [done|].
  destruct (ar_nvp ar name v); [apply IH|done].
Qed.

Lemma subobject_app {Value} (p q : list nat) (o : Object Value) :
  subobject (p ++ q) o =
    match subobject p o with
    | Some s => subobject q s
    | None => None
    end.
Proof.
  revert o. induction p as [|k p IH]; intros o; simpl; [done|].
  destruct (obj_bases o !! k); [apply IH|done].
Qed.

Lemma subobject_static_cast {Value} (p : list nat) k (o b : Object Value) :
  subobject (static_cast p k) o = Some b ↔
    ∃ s, subobject p o = Some s ∧ obj_bases s !! k = Some b.
Proof.
  unfold static_cast. rewrite subobject_app.
  destruct (subobject p o) as [s|]; simpl.
  - destruct (obj_bases s !! k) as [b'|] eqn:Hk; split.
    + intros [= <-]. eauto.
    + intros (s' & [= <-] & Hb). congruence.
    + done.
    + intros (s' & [= <-] & Hb). congruence.
  - split; [done|]. by intros (s & ? & _).
Qed.

(** ** One step of each helper *)

Section Unfold.
Context {Value FieldTy : Type}.
Variable R : Reflection FieldTy.

Lemma saveHelper_S {A} `{!OutputArchive A Value} fuel Class index instance
    (w : World A Value) :
  saveHelper R (S fuel) Class index instance w =
    do classInstance <- ClassSingleton_instance R Class;
    if negb (0 <? memberCount classInstance) then Failed EStaticAssert
    else if negb (index <? memberCount classInstance) then Failed EStaticAssert
    else
      do w1 <- (if index =? 0 then
                  if 0 <? baseCount classInstance
                  then saveParents R fuel Class 0 instance w
                  else Done w
                else Done w);
      do ref_info <- member_info R Class index;
      do cw <- member_ref_const ref_info instance w1;
      do name <- orFail EUndefined (memberAtIndex classInstance index);
      do w2 <- ar_make_nvp name cw.1 cw.2;
      if index + 1 <? memberCount classInstance
      then saveHelper R fuel Class (index + 1) instance w2
      else Done w2.
Proof. reflexivity. Qed.

Lemma saveParents_S {A} `{!OutputArchive A Value} fuel Class index instance
    (w : World A Value) :
  saveParents R (S fuel) Class index instance w =
    do classInstance <- ClassSingleton_instance R Class;
    do Parent <- orFail EIllFormed (_bases classInstance !! index);
    do parentInstance <- ClassSingleton_instance R Parent;
    do w1 <- saveHelper R fuel Parent 0 (static_cast instance index) w;
    if index + 1 <? baseCount classInstance
    then saveParents R fuel Class (index + 1) instance w1
    else Done w1.
Proof. reflexivity. Qed.

Lemma loadHelper_S {A} `{!InputArchive A Value FieldTy} fuel Class index
    instance (w : World A Value) :
  loadHelper R (S fuel) Class index instance w =
    do classInstance <- ClassSingleton_instance R Class;
    if negb (0 <? memberCount classInstance) then Failed EStaticAssert
    else if negb (index <? memberCount classInstance) then Failed EStaticAssert
    else
      do w1 <- (if index =? 0 then
                  if 0 <? baseCount classInstance
                  then loadParents R fuel Class 0 instance w
                  else Done w
                else Done w);
      do ref_info <- member_info R Class index;
      do rw <- member_ref ref_info instance w1;
      do w2 <- ar_load_ref (type_of (info_member ref_info)) rw.1 rw.2;
      if index + 1 <? memberCount classInstance
      then loadHelper R fuel Class (index + 1) instance w2
      else Done w2.
Proof. reflexivity. Qed.

Lemma loadParents_S {A} `{!InputArchive A Value FieldTy} fuel Class index
    instance (w : World A Value) :
  loadParents R (S fuel) Class index instance w =
    do classInstance <- ClassSingleton_instance R Class;
    do Parent <- orFail EIllFormed (_bases classInstance !! index);
    do parentInstance <- ClassSingleton_instance R Parent;
    do w1 <- loadHelper R fuel Parent 0 (static_cast instance index) w;
    if index + 1 <? baseCount classInstance
    then loadParents R fuel Class (index + 1) instance w1
    else Done w1.
Proof. reflexivity. Qed.
End Unfold.

(** ** Reading and replacing sub-objects *)

Section Subobjects.
Context {Value : Type}.
Implicit Types (o s root : Object Value) (p : list nat).

Lemma put_subobject_lookup p s root root' :
  put_subobject p s root = Some root' → subobject p root' = Some s.
Proof.
  revert root root'. induction p as [|k p IH]; intros root root'; simpl.
  - congruence.
  - destruct (obj_bases root !! k) as [b|] eqn:Hk; [|done].
    destruct (put_subobject p s b) as [b'|] eqn:Hb; [|done].
    intros [= <-]. simpl.
    rewrite list_lookup_insert_eq by (by eapply lookup_lt_Some).
    by eapply IH.
Qed.

Lemma put_subobject_again p s s' root root' :
  put_subobject p s root = Some root' →
  put_subobject p s' root' = put_subobject p s' root.
Proof.
  revert root root'. induction p as [|k p IH]; intros root root'; simpl.
  - done.
  - destruct (obj_bases root !! k) as [b|] eqn:Hk; [|done].
    destruct (put_subobject p s b) as [b'|] eqn:Hb; [|done].
    intros [= <-]. simpl.
    rewrite list_lookup_insert_eq by (by eapply lookup_lt_Some).
    rewrite (IH _ _ Hb).
    destruct (put_subobject p s' b); [|done].
    by rewrite list_insert_insert_eq.
Qed.

Lemma put_subobject_same p root o :
  subobject p root = Some o → put_subobject p o root = Some root.
Proof.
  revert root. induction p as [|k p IH]; intros root; simpl.
  - congruence.
  - destruct (obj_bases root !! k) as [b|] eqn:Hk; [|done].
    intros Hs. rewrite (IH _ Hs). rewrite list_insert_id by done.
    by destruct root.
Qed.

Lemma put_subobject_is_Some p s root o :
  subobject p root = Some o → is_Some (put_subobject p s root).
Proof.
  revert root. induction p as [|k p IH]; intros root; simpl.
  - eauto.
  - destruct (obj_bases root !! k) as [b|] eqn:Hk; [|done].
    intros Hs. destruct (IH _ Hs) as [b' ->]. eauto.
Qed.

Lemma put_subobject_static_cast p k b' root :
  put_subobject (static_cast p k) b' root =
    match subobject p root with
    | Some o =>
        match obj_bases o !! k with
        | Some _ =>
            put_subobject p
              (mkObject (<[k := b']> (obj_bases o)) (obj_fields o)) root
        | None => None
        end
    | None => None
    end.
Proof.
  unfold static_cast. revert root.
  induction p as [|j p IH]; intros root; simpl.
  - by destruct (obj_bases root !! k).
  - destruct (obj_bases root !! j) as [b|] eqn:Hj; [|done].
    rewrite IH. destruct (subobject p b) as [o|]; [|done].
    by destruct (obj_bases o !! k).
Qed.

Lemma assign_put_subobject p index (v : Value) root :
  assign p index v root =
    match subobject p root with
    | Some o =>
        if decide (index < length (obj_fields o))
        then put_subobject p
               (mkObject (obj_bases o) (<[index := v]> (obj_fields o))) root
        else None
    | None => None
    end.
Proof.
  revert root. induction p as [|k p IH]; intros root; simpl.
  - done.
  - destruct (obj_bases root !! k) as [b|] eqn:Hk; [|done].
    rewrite IH. destruct (subobject p b) as [o|]; [|done].
    by destruct (decide (index < length (obj_fields o))).
Qed.
End Subobjects.

(** ** The recursive helpers against the iterative algorithm *)

Section TraversalFacts.
Context {Value FieldTy : Type}.
Variable R : Reflection FieldTy.

(** What [std::meta::identifier_of] returns is an identifier. *)
Hypothesis identifiers_wellformed :
  ∀ Class, Forall identifier_ok (memberIdentifiers R Class).

Lemma ClassSingleton_instance_Done Class d :
  ClassSingleton_instance R Class = Done d →
  memberCount d = length (nonstatic_data_members_of R Class)
  ∧ baseCount d = length (bases_of R Class)
  ∧ _bases d = bases_of R Class
  ∧ ∀ i, memberAtIndex d i = memberIdentifiers R Class !! i.
Proof.
  unfold ClassSingleton_instance. rewrite orFail_Done. intros Hd.
  pose proof (ClassSingleton_ctor_spec R Class) as H. cbv zeta in H.
  destruct (decide (length (memberIdentifiers R Class) < _)); [|congruence].
  destruct (decide (Forall _ (memberIdentifiers R Class))); [|congruence].
  destruct H as (d' & Hd' & _ & Hmc & Hbc & Hb & Hnames).
  assert (d' = d) as -> by congruence.
  repeat split; try done.
  intros i. unfold memberAtIndex.
  change (_memberNamesStrings d) with (getMemberNames d).
  by rewrite Hnames.
Qed.

Lemma zip_lookup_Some {X Y} (l1 : list X) (l2 : list Y) i x y :
  l1 !! i = Some x → l2 !! i = Some y → zip l1 l2 !! i = Some (x, y).
Proof.
  revert l2 i. induction l1 as [|x' l1 IH]; intros [|y' l2] [|i]; simpl;
    try done.
  - by intros [= ->] [= ->].
  - apply IH.
Qed.

Lemma drop_zip_ge {X Y} (l1 : list X) (l2 : list Y) i :
  length l1 ≤ i → drop i (zip l1 l2) = [].
Proof.
  intros Hi. apply drop_ge. rewrite length_zip_with. lia.
Qed.

Section WithArchive.
Context {A : Type} `{!OutputArchive A Value}.

Lemma save_characterised fuel :
  (∀ Class index instance (w w' : World A Value),
     saveHelper R fuel Class index instance w = Done w' →
     ∃ o, subobject instance (w_obj w) = Some o
       ∧ w_obj w' = w_obj w
       ∧ index < length (nonstatic_data_members_of R Class)
       ∧ (length (nonstatic_data_members_of R Class) ≤ length (obj_fields o)
          ∧ (index = 0 → length (bases_of R Class) ≤ length (obj_bases o)))
       ∧ run_nvps (w_ar w)
           ((if index =? 0
             then flatten_bases R (bases_of R Class) (obj_bases o) else [])
            ++ drop index (zip (memberIdentifiers R Class) (obj_fields o)))
         = Some (w_ar w')
       ∧ w_log w' =
           w_log w
           ++ (if index =? 0
               then visits_bases R ConstAccess instance 0
                      (bases_of R Class) (obj_bases o)
               else [])
           ++ (ConstAccess instance
                 <$> seq index (length (nonstatic_data_members_of R Class)
                                - index)))
  ∧ (∀ Class index instance (w w' : World A Value),
       saveParents R fuel Class index instance w = Done w' →
       ∃ o, subobject instance (w_obj w) = Some o
         ∧ w_obj w' = w_obj w
         ∧ index < length (bases_of R Class)
         ∧ length (bases_of R Class) ≤ length (obj_bases o)
         ∧ run_nvps (w_ar w)
             (flatten_bases R (drop index (bases_of R Class))
                (drop index (obj_bases o)))
           = Some (w_ar w')
         ∧ w_log w' =
             w_log w
             ++ visits_bases R ConstAccess instance index
                  (drop index (bases_of R Class))
                  (drop index (obj_bases o))).
Proof.
  induction fuel as [|fuel [IHh IHp]]; [by split|]. split.
  - (* saveHelper *)
    intros Class index instance w w' H. cbn [saveHelper] in H.
    apply Outcome_bind_Done in H as (d & Hd & H).
    destruct (ClassSingleton_instance_Done _ _ Hd) as (Hmc & Hbc & Hb & Hn).
    rewrite Hmc, Hbc in H.
    destruct (0 <? _) eqn:Hpos in H; [|done]. cbn [negb] in H.
    destruct (index <? _) eqn:Hidx in H; [|done]. cbn [negb] in H.
    apply Nat.ltb_lt in Hidx.
    apply Outcome_bind_Done in H as (w1 & Hw1 & H).
    apply Outcome_bind_Done in H as (info & Hinfo & H).
    unfold member_info in Hinfo.
    destruct (nonstatic_data_members_of R Class !! index) as [m|] eqn:Hm;
      [|done]. injection Hinfo as <-.
    apply Outcome_bind_Done in H as ([v w1'] & Hv & H).
    unfold member_ref_const in Hv. cbn [info_index] in Hv.
    destruct (subobject instance (w_obj w1)) as [o|] eqn:Ho; [|done].
    destruct (obj_fields o !! index) as [v'|] eqn:Hf; [|done].
    injection Hv as -> <-.
    apply Outcome_bind_Done in H as (name & Hname & H).
    apply orFail_Done in Hname. rewrite Hn in Hname.
    apply Outcome_bind_Done in H as (w2 & Hw2 & H).
    unfold ar_make_nvp in Hw2. cbn [fst snd w_ar w_obj w_log] in Hw2.
    destruct (ar_nvp (w_ar w1) name v) as [a2|] eqn:Ha2; [|done].
    injection Hw2 as <-.
    (* the own members from [index] on *)
    assert (Hown : drop index (zip (memberIdentifiers R Class) (obj_fields o))
                   = (name, v) :: drop (S index)
                                    (zip (memberIdentifiers R Class) (obj_fields o))).
    { apply drop_S. by apply zip_lookup_Some. }
    assert (Hseq : seq index (length (nonstatic_data_members_of R Class) - index)
                   = index :: seq (S index)
                       (length (nonstatic_data_members_of R Class) - S index)).
    { replace (length (nonstatic_data_members_of R Class) - index)
        with (S (length (nonstatic_data_members_of R Class) - S index)) by lia.
      done. }
    pose proof (lookup_lt_Some _ _ _ Hf) as Hflen.
    assert (Hrest :
      w_obj w' = w_obj w1
      ∧ length (nonstatic_data_members_of R Class) ≤ length (obj_fields o)
      ∧ run_nvps a2 (drop (S index)
                       (zip (memberIdentifiers R Class) (obj_fields o)))
        = Some (w_ar w')
      ∧ w_log w' = (w_log w1 ++ [ConstAccess instance index])
                   ++ (ConstAccess instance
                         <$> seq (S index)
                               (length (nonstatic_data_members_of R Class)
                                - S index))).
    { destruct (index + 1 <? _) eqn:Hnext in H.
      - apply Nat.ltb_lt in Hnext.
        apply IHh in H as (o' & Ho' & Hobj & _ & [Hcov _] & Hrun & Hlog).
        cbn [w_ar w_obj w_log] in *.
        replace (index + 1) with (S index) in * by lia.
        cbn [Nat.eqb app] in Hrun, Hlog.
        assert (o' = o) as -> by congruence. done.
      - apply Nat.ltb_ge in Hnext. injection H as <-.
        cbn [w_ar w_obj w_log].
        rewrite drop_zip_ge
          by (unfold memberIdentifiers; rewrite length_fmap; lia).
        replace (length (nonstatic_data_members_of R Class) - S index)
          with 0 by lia.
        cbn [seq fmap list_fmap run_nvps]. rewrite app_nil_r.
        split; [done|]. split; [lia|]. done. }
    destruct Hrest as (Hobj & Hcov & Hrun & Hlog).
    destruct (index =? 0) eqn:Hzero.
    + apply Nat.eqb_eq in Hzero. subst index.
      destruct (0 <? length (bases_of R Class)) eqn:Hbases.
      * apply IHp in Hw1 as (o0 & Ho0 & Hobj1 & _ & Hcov1 & Hrun1 & Hlog1).
        rewrite !drop_0 in Hrun1, Hlog1.
        rewrite Hobj1 in Ho. assert (o0 = o) as -> by congruence.
        exists o. split; [done|]. split; [congruence|]. split; [lia|].
        split; [done|]. split.
        -- rewrite run_nvps_app, Hrun1, Hown. cbn [run_nvps].
           by rewrite Ha2.
        -- rewrite Hlog, Hlog1, Hseq. cbn [fmap list_fmap].
           by rewrite <- !app_assoc.
      * injection Hw1 as <-.
        apply Nat.ltb_ge in Hbases.
        assert (bases_of R Class = []) as ->
          by (destruct (bases_of R Class); [done|simpl in *; lia]).
        exists o. split; [done|]. split; [congruence|]. split; [lia|].
        split; [split; [done|]; simpl; lia|]. split.
        -- destruct (obj_bases o); cbn [flatten_bases app];
             rewrite Hown; cbn [run_nvps]; by rewrite Ha2.
        -- rewrite Hlog, Hseq.
           destruct (obj_bases o); cbn [visits_bases app fmap list_fmap];
             by rewrite <- !app_assoc.
    + injection Hw1 as <-.
      exists o. split; [done|]. split; [congruence|]. split; [lia|].
      apply Nat.eqb_neq in Hzero. split; [done|]. split.
      * cbn [app]. rewrite Hown. cbn [run_nvps]. by rewrite Ha2.
      * rewrite Hlog, Hseq. cbn [app fmap list_fmap].
        by rewrite <- !app_assoc.
  - (* saveParents *)
    intros Class index instance w w' H. cbn [saveParents] in H.
    apply Outcome_bind_Done in H as (d & Hd & H).
    destruct (ClassSingleton_instance_Done _ _ Hd) as (Hmc & Hbc & Hb & Hn).
    rewrite Hbc, Hb in H.
    apply Outcome_bind_Done in H as (Parent & HP & H).
    apply orFail_Done in HP.
    apply Outcome_bind_Done in H as (dP & HdP & H).
    apply Outcome_bind_Done in H as (w1 & Hw1 & H).
    apply IHh in Hw1 as (b & Hb1 & Hobj1 & _ & _ & Hrun1 & Hlog1).
    cbn [Nat.eqb] in Hrun1, Hlog1.
    apply subobject_static_cast in Hb1 as (o & Ho & Hk).
    rewrite drop_0, <- flatten_unfold in Hrun1.
    rewrite Nat.sub_0_r, <- visits_unfold in Hlog1.
    pose proof (lookup_lt_Some _ _ _ HP) as HltP.
    pose proof (lookup_lt_Some _ _ _ Hk) as Hklen.
    assert (Hrest :
      w_obj w' = w_obj w1
      ∧ length (bases_of R Class) ≤ length (obj_bases o)
      ∧ run_nvps (w_ar w1)
          (flatten_bases R (drop (S index) (bases_of R Class))
             (drop (S index) (obj_bases o))) = Some (w_ar w')
      ∧ w_log w' = w_log w1
                   ++ visits_bases R ConstAccess instance (S index)
                        (drop (S index) (bases_of R Class))
                        (drop (S index) (obj_bases o))).
    { destruct (index + 1 <? _) eqn:Hnext in H.
      - apply IHp in H as (o' & Ho' & Hobj & _ & Hcov & Hrun & Hlog).
        replace (index + 1) with (S index) in * by lia.
        rewrite Hobj1 in Ho'. assert (o' = o) as -> by congruence. done.
      - apply Nat.ltb_ge in Hnext. injection H as <-.
        rewrite (drop_ge (bases_of R Class)) by lia.
        cbn [flatten_bases visits_bases run_nvps].
        rewrite app_nil_r. split; [done|]. split; [lia|]. done. }
    destruct Hrest as (Hobj & Hcov & Hrun & Hlog).
    exists o. split; [done|]. split; [congruence|]. split; [done|].
    split; [done|].
    rewrite (drop_S _ _ _ HP), (drop_S _ _ _ Hk).
    cbn [flatten_bases visits_bases]. split.
    + by rewrite run_nvps_app, Hrun1.
    + rewrite Hlog, Hlog1. by rewrite <- !app_assoc.
Qed.
End WithArchive.


Lemma take_S_insert {X} (l : list X) i x :
  i < length l → take (S i) (<[i := x]> l) = take i l ++ [x].
Proof.
  intros Hi. rewrite (take_S_r _ _ x) by (by apply list_lookup_insert_eq).
  by rewrite take_insert_ge.
Qed.

Section WithInputArchive.
Context {A : Type} `{!InputArchive A Value FieldTy}.

Lemma load_fields_nil_l (olds : list Value) (ar : A) :
  load_fields [] olds ar = Some (ar, olds).
Proof. by destruct olds. Qed.

Lemma unflatten_bases_nil_l (bs : list (Object Value)) (ar : A) :
  unflatten_bases R [] bs ar = Some (ar, bs).
Proof. by destruct bs. Qed.

Lemma load_characterised fuel :
  (∀ Class index instance (w w' : World A Value),
     loadHelper R fuel Class index instance w = Done w' →
     ∃ o ar1 bases' fields',
       subobject instance (w_obj w) = Some o
       ∧ index < length (nonstatic_data_members_of R Class)
       ∧ (if index =? 0
          then unflatten_bases R (bases_of R Class) (obj_bases o) (w_ar w)
          else Some (w_ar w, obj_bases o)) = Some (ar1, bases')
       ∧ load_fields
           (drop index (type_of <$> nonstatic_data_members_of R Class))
           (drop index (obj_fields o)) ar1 = Some (w_ar w', fields')
       ∧ put_subobject instance
           (mkObject bases' (take index (obj_fields o) ++ fields'))
           (w_obj w) = Some (w_obj w')
       ∧ w_log w' =
           w_log w
           ++ (if index =? 0
               then visits_bases R MutableAccess instance 0
                      (bases_of R Class) (obj_bases o)
               else [])
           ++ (MutableAccess instance
                 <$> seq index (length (nonstatic_data_members_of R Class)
                                - index)))
  ∧ (∀ Class index instance (w w' : World A Value),
       loadParents R fuel Class index instance w = Done w' →
       ∃ o bases',
         subobject instance (w_obj w) = Some o
         ∧ index < length (bases_of R Class)
         ∧ unflatten_bases R (drop index (bases_of R Class))
             (drop index (obj_bases o)) (w_ar w) = Some (w_ar w', bases')
         ∧ put_subobject instance
             (mkObject (take index (obj_bases o) ++ bases') (obj_fields o))
             (w_obj w) = Some (w_obj w')
         ∧ w_log w' =
             w_log w
             ++ visits_bases R MutableAccess instance index
                  (drop index (bases_of R Class))
                  (drop index (obj_bases o))).
Proof.
  induction fuel as [|fuel [IHh IHp]]; [by split|]. split.
  - (* loadHelper *)
    intros Class index instance w w' H. cbn [loadHelper] in H.
    apply Outcome_bind_Done in H as (d & Hd & H).
    destruct (ClassSingleton_instance_Done _ _ Hd) as (Hmc & Hbc & Hb & Hn).
    rewrite Hmc, Hbc in H.
    destruct (0 <? _) eqn:Hpos in H; [|done]. cbn [negb] in H.
    destruct (index <? _) eqn:Hidx in H; [|done]. cbn [negb] in H.
    apply Nat.ltb_lt in Hidx.
    apply Outcome_bind_Done in H as (w1 & Hw1 & H).
    apply Outcome_bind_Done in H as (info & Hinfo & H).
    unfold member_info in Hinfo.
    destruct (nonstatic_data_members_of R Class !! index) as [m|] eqn:Hm;
      [|done]. injection Hinfo as <-.
    apply Outcome_bind_Done in H as ([ref w1'] & Href & H).
    unfold member_ref in Href. cbn [info_index] in Href.
    destruct (subobject instance (w_obj w1)) as [o1|] eqn:Ho1; [|done].
    destruct (decide (index < length (obj_fields o1))) as [Hlen|]; [|done].
    injection Href as <- <-.
    apply Outcome_bind_Done in H as (w2 & Hw2 & H).
    unfold ar_load_ref, deref in Hw2.
    cbn [fst snd w_ar w_obj w_log ref_instance ref_index info_member] in Hw2.
    rewrite Ho1 in Hw2.
    destruct (obj_fields o1 !! index) as [old|] eqn:Hold; [|done].
    destruct (ar_ref (w_ar w1) (type_of m) old) as [[a2 new]|] eqn:Ha2;
      [|done].
    rewrite assign_put_subobject, Ho1 in Hw2.
    rewrite decide_True in Hw2 by done.
    destruct (put_subobject instance _ (w_obj w1)) as [obj2|] eqn:Hput;
      [|done].
    injection Hw2 as <-.
    pose proof (put_subobject_lookup _ _ _ _ Hput) as Ho2.
    assert (Hty : drop index (type_of <$> nonstatic_data_members_of R Class)
                  = type_of m
                    :: drop (S index)
                         (type_of <$> nonstatic_data_members_of R Class)).
    { apply drop_S. by rewrite list_lookup_fmap, Hm. }
    assert (Hseq : seq index (length (nonstatic_data_members_of R Class) - index)
                   = index :: seq (S index)
                       (length (nonstatic_data_members_of R Class) - S index)).
    { replace (length (nonstatic_data_members_of R Class) - index)
        with (S (length (nonstatic_data_members_of R Class) - S index)) by lia.
      done. }
    assert (Hrest : ∃ fs,
      load_fields
        (drop (S index) (type_of <$> nonstatic_data_members_of R Class))
        (drop (S index) (obj_fields o1)) a2 = Some (w_ar w', fs)
      ∧ put_subobject instance
          (mkObject (obj_bases o1) (take index (obj_fields o1) ++ new :: fs))
          (w_obj w1) = Some (w_obj w')
      ∧ w_log w' = (w_log w1 ++ [MutableAccess instance index])
                   ++ (MutableAccess instance
                         <$> seq (S index)
                               (length (nonstatic_data_members_of R Class)
                                - S index))).
    { destruct (index + 1 <? _) eqn:Hnext in H.
      - apply IHh in H
          as (o' & a1 & bs' & fs & Ho' & _ & Hpar & Hfs & Hput' & Hlog).
        cbn [w_ar w_obj w_log] in *.
        replace (index + 1) with (S index) in * by lia.
        cbn [Nat.eqb app] in Hpar, Hlog.
        rewrite Ho2 in Ho'. injection Ho' as <-.
        injection Hpar as <- <-. cbn [obj_bases obj_fields] in *.
        rewrite drop_insert_lt in Hfs by lia.
        rewrite take_S_insert in Hput' by done.
        rewrite (put_subobject_again _ _ _ _ _ Hput) in Hput'.
        rewrite <- app_assoc in Hput'. eauto.
      - apply Nat.ltb_ge in Hnext. injection H as <-.
        cbn [w_ar w_obj w_log].
        exists (drop (S index) (obj_fields o1)).
        rewrite (drop_ge (type_of <$> _)) by (rewrite length_fmap; lia).
        rewrite load_fields_nil_l.
        replace (length (nonstatic_data_members_of R Class) - S index)
          with 0 by lia.
        cbn [seq fmap list_fmap]. rewrite app_nil_r.
        split; [done|]. split; [|done].
        by rewrite <- insert_take_drop. }
    destruct Hrest as (fs & Hfs & Hput' & Hlog).
    assert (Hload : ∀ ar1,
      ar1 = w_ar w1 →
      load_fields
        (drop index (type_of <$> nonstatic_data_members_of R Class))
        (drop index (obj_fields o1)) ar1 = Some (w_ar w', new :: fs)).
    { intros ? ->. rewrite Hty, (drop_S _ _ _ Hold).
      cbn [load_fields]. by rewrite Ha2, Hfs. }
    destruct (index =? 0) eqn:Hzero.
    + apply Nat.eqb_eq in Hzero. subst index.
      destruct (0 <? length (bases_of R Class)) eqn:Hbases.
      * apply IHp in Hw1 as (o & bs' & Ho & _ & Hpar & Hput1 & Hlog1).
        rewrite !drop_0 in Hpar, Hlog1. cbn [take app] in Hput1.
        pose proof (put_subobject_lookup _ _ _ _ Hput1) as Ho1'.
        rewrite Ho1 in Ho1'. injection Ho1' as ->.
        cbn [obj_bases obj_fields] in *.
        rewrite (put_subobject_again _ _ _ _ _ Hput1) in Hput'.
        exists o, (w_ar w1), bs', (new :: fs).
        split; [done|]. split; [lia|]. split; [done|].
        split; [by apply Hload|]. split; [done|].
        rewrite Hlog, Hlog1, Hseq. cbn [fmap list_fmap].
        by rewrite <- !app_assoc.
      * injection Hw1 as <-.
        apply Nat.ltb_ge in Hbases.
        assert (bases_of R Class = []) as ->
          by (destruct (bases_of R Class); [done|simpl in *; lia]).
        exists o1, (w_ar w), (obj_bases o1), (new :: fs).
        split; [done|]. split; [lia|].
        split; [by rewrite unflatten_bases_nil_l|].
        split; [by apply Hload|]. split; [done|].
        rewrite Hlog, Hseq.
        destruct (obj_bases o1); cbn [visits_bases app fmap list_fmap];
          by rewrite <- !app_assoc.
    + injection Hw1 as <-.
      exists o1, (w_ar w), (obj_bases o1), (new :: fs).
      split; [done|]. split; [lia|]. split; [done|].
      split; [by apply Hload|]. split; [done|].
      rewrite Hlog, Hseq. cbn [app fmap list_fmap].
      by rewrite <- !app_assoc.
  - (* loadParents *)
    intros Class index instance w w' H. cbn [loadParents] in H.
    apply Outcome_bind_Done in H as (d & Hd & H).
    destruct (ClassSingleton_instance_Done _ _ Hd) as (Hmc & Hbc & Hb & Hn).
    rewrite Hbc, Hb in H.
    apply Outcome_bind_Done in H as (Parent & HP & H).
    apply orFail_Done in HP.
    apply Outcome_bind_Done in H as (dP & HdP & H).
    apply Outcome_bind_Done in H as (w1 & Hw1 & H).
    apply IHh in Hw1
      as (b & a1 & bs1 & fs1 & Hb1 & _ & Hpar1 & Hfs1 & Hput1 & Hlog1).
    cbn [Nat.eqb take app] in Hpar1, Hput1, Hlog1.
    rewrite !drop_0 in Hfs1. rewrite Nat.sub_0_r in Hlog1.
    rewrite <- visits_unfold in Hlog1.
    assert (Hun : unflatten R Parent b (w_ar w)
                  = Some (w_ar w1, mkObject bs1 fs1)).
    { rewrite unflatten_unfold, Hpar1. by rewrite Hfs1. }
    apply subobject_static_cast in Hb1 as (o & Ho & Hk).
    rewrite put_subobject_static_cast, Ho, Hk in Hput1.
    pose proof (put_subobject_lookup _ _ _ _ Hput1) as Ho1.
    pose proof (lookup_lt_Some _ _ _ HP) as HltP.
    pose proof (lookup_lt_Some _ _ _ Hk) as Hltk.
    assert (Hrest : ∃ bs,
      unflatten_bases R (drop (S index) (bases_of R Class))
        (drop (S index) (obj_bases o)) (w_ar w1) = Some (w_ar w', bs)
      ∧ put_subobject instance
          (mkObject (take index (obj_bases o) ++ mkObject bs1 fs1 :: bs)
             (obj_fields o)) (w_obj w) = Some (w_obj w')
      ∧ w_log w' = w_log w1
                   ++ visits_bases R MutableAccess instance (S index)
                        (drop (S index) (bases_of R Class))
                        (drop (S index) (obj_bases o))).
    { destruct (index + 1 <? _) eqn:Hnext in H.
      - apply IHp in H as (o' & bs & Ho' & _ & Hpar & Hput & Hlog).
        replace (index + 1) with (S index) in * by lia.
        rewrite Ho1 in Ho'. injection Ho' as <-.
        cbn [obj_bases obj_fields] in *.
        rewrite drop_insert_lt in Hpar, Hlog by lia.
        rewrite take_S_insert in Hput by done.
        rewrite (put_subobject_again _ _ _ _ _ Hput1) in Hput.
        rewrite <- app_assoc in Hput. eauto.
      - apply Nat.ltb_ge in Hnext. injection H as <-.
        exists (drop (S index) (obj_bases o)).
        rewrite (drop_ge (bases_of R Class)) by lia.
        rewrite unflatten_bases_nil_l.
        cbn [visits_bases]. rewrite app_nil_r.
        split; [done|]. split; [|done].
        by rewrite <- insert_take_drop. }
    destruct Hrest as (bs & Hpar & Hput & Hlog).
    exists o, (mkObject bs1 fs1 :: bs).
    split; [done|]. split; [done|].
    rewrite (drop_S _ _ _ HP), (drop_S _ _ _ Hk).
    cbn [unflatten_bases visits_bases]. rewrite Hun, Hpar.
    split; [done|]. split; [done|].
    rewrite Hlog, Hlog1. by rewrite <- !app_assoc.
Qed.
End WithInputArchive.
End TraversalFacts.

(** ** What holds for both helpers *)

Lemma Outcome_bind_not_Failed {X Y} (m : Outcome X) (k : X → Outcome Y) e :
  m ≠ Failed e → (∀ x, m = Done x → k x ≠ Failed e) →
  Outcome_bind m k ≠ Failed e.
Proof. destruct m as [x|e']; simpl; intros Hm Hk; [by apply Hk|congruence]. Qed.

Lemma orFail_not_Failed {X} (o : option X) e e' :
  e ≠ e' → orFail e o ≠ Failed e'.
Proof. destruct o; simpl; congruence. Qed.

Lemma ClassSingleton_instance_counts {FieldTy} (R : Reflection FieldTy) Class d :
  ClassSingleton_instance R Class = Done d →
  memberCount d = length (nonstatic_data_members_of R Class)
  ∧ baseCount d = length (bases_of R Class)
  ∧ _bases d = bases_of R Class.
Proof.
  unfold ClassSingleton_instance, ClassSingleton_ctor. rewrite orFail_Done.
  destruct (classMemberNames _); [|done].
  destruct (restringify _); [|done].
  by intros [= <-].
Qed.

Lemma ClassSingleton_instance_not_Failed {FieldTy} (R : Reflection FieldTy) Class e :
  e ≠ EIllFormed → ClassSingleton_instance R Class ≠ Failed e.
Proof. intros He. unfold ClassSingleton_instance. apply orFail_not_Failed. congruence. Qed.

Lemma member_info_not_Failed {FieldTy} (R : Reflection FieldTy) Class idx e :
  e ≠ EIllFormed → member_info R Class idx ≠ Failed e.
Proof.
  intros He. unfold member_info.
  destruct (nonstatic_data_members_of R Class !! idx); congruence.
Qed.

Lemma member_info_Done {FieldTy} (R : Reflection FieldTy) Class idx info :
  member_info R Class idx = Done info →
  info_index info = idx
  ∧ nonstatic_data_members_of R Class !! idx = Some (info_member info).
Proof.
  unfold member_info.
  destruct (nonstatic_data_members_of R Class !! idx); [|done].
  by intros [= <-].
Qed.

Lemma traverseHelper_S {Value FieldTy A} (R : Reflection FieldTy)
    (step : ClassSingleton → Info FieldTy → list nat → World A Value
            → Outcome (World A Value)) fuel Class index instance w :
  traverseHelper R step (S fuel) Class index instance w =
    do classInstance <- ClassSingleton_instance R Class;
    if negb (0 <? memberCount classInstance) then Failed EStaticAssert
    else if negb (index <? memberCount classInstance) then Failed EStaticAssert
    else
      do w1 <- (if index =? 0 then
                  if 0 <? baseCount classInstance
                  then traverseParents R step fuel Class 0 instance w
                  else Done w
                else Done w);
      do ref_info <- member_info R Class index;
      do w2 <- step classInstance ref_info instance w1;
      if index + 1 <? memberCount classInstance
      then traverseHelper R step fuel Class (index + 1) instance w2
      else Done w2.
Proof. reflexivity. Qed.

Lemma traverseParents_S {Value FieldTy A} (R : Reflection FieldTy)
    (step : ClassSingleton → Info FieldTy → list nat → World A Value
            → Outcome (World A Value)) fuel Class index instance w :
  traverseParents R step (S fuel) Class index instance w =
    do classInstance <- ClassSingleton_instance R Class;
    do Parent <- orFail EIllFormed (_bases classInstance !! index);
    do parentInstance <- ClassSingleton_instance R Parent;
    do w1 <- traverseHelper R step fuel Parent 0 (static_cast instance index) w;
    if index + 1 <? baseCount classInstance
    then traverseParents R step fuel Class (index + 1) instance w1
    else Done w1.
Proof. reflexivity. Qed.

Section HelpersAsTraversals.
Context {Value FieldTy : Type}.
Variable R : Reflection FieldTy.

Lemma saveHelper_traverse {A} `{!OutputArchive A Value} fuel :
  (∀ Class index instance (w : World A Value),
     saveHelper R fuel Class index instance w
     = traverseHelper R save_step fuel Class index instance w)
  ∧ (∀ Class index instance (w : World A Value),
       saveParents R fuel Class index instance w
       = traverseParents R save_step fuel Class index instance w).
Proof.
  induction fuel as [|fuel [IHh IHp]]; [done|]. split.
  - intros Class index instance w. rewrite traverseHelper_S. cbn [saveHelper].
    destruct (ClassSingleton_instance R Class) as [d|]; [|done].
    cbn [Outcome_bind].
    destruct (negb _); [done|]. destruct (negb _); [done|].
    rewrite IHp.
    destruct (if index =? 0 then _ else _) as [w1|]; [|done].
    cbn [Outcome_bind].
    destruct (member_info R Class index) as [info|] eqn:Hinfo; [|done].
    apply member_info_Done in Hinfo as [Hidx _].
    cbn [Outcome_bind]. unfold save_step. rewrite Hidx.
    destruct (member_ref_const info instance w1) as [cw|]; [|done].
    cbn [Outcome_bind].
    destruct (orFail _ _) as [name|]; [|done]. cbn [Outcome_bind].
    destruct (ar_make_nvp _ _ _) as [w2|]; [|done]. cbn [Outcome_bind].
    by rewrite IHh.
  - intros Class index instance w. rewrite traverseParents_S. cbn [saveParents].
    destruct (ClassSingleton_instance R Class) as [d|]; [|done].
    cbn [Outcome_bind].
    destruct (orFail _ _) as [Parent|]; [|done]. cbn [Outcome_bind].
    destruct (ClassSingleton_instance R Parent) as [dP|]; [|done].
    cbn [Outcome_bind]. rewrite IHh.
    destruct (traverseHelper _ _ _ _ _ _ _) as [w1|]; [|done].
    cbn [Outcome_bind]. by rewrite IHp.
Qed.

Lemma loadHelper_traverse {A} `{!InputArchive A Value FieldTy} fuel :
  (∀ Class index instance (w : World A Value),
     loadHelper R fuel Class index instance w
     = traverseHelper R load_step fuel Class index instance w)
  ∧ (∀ Class index instance (w : World A Value),
       loadParents R fuel Class index instance w
       = traverseParents R load_step fuel Class index instance w).
Proof.
  induction fuel as [|fuel [IHh IHp]]; [done|]. split.
  - intros Class index instance w. rewrite traverseHelper_S. cbn [loadHelper].
    destruct (ClassSingleton_instance R Class) as [d|]; [|done].
    cbn [Outcome_bind].
    destruct (negb _); [done|]. destruct (negb _); [done|].
    rewrite IHp.
    destruct (if index =? 0 then _ else _) as [w1|]; [|done].
    cbn [Outcome_bind].
    destruct (member_info R Class index) as [info|]; [|done].
    cbn [Outcome_bind]. unfold load_step.
    destruct (member_ref info instance w1) as [rw|]; [|done].
    cbn [Outcome_bind].
    destruct (ar_load_ref _ _ _) as [w2|]; [|done]. cbn [Outcome_bind].
    by rewrite IHh.
  - intros Class index instance w. rewrite traverseParents_S. cbn [loadParents].
    destruct (ClassSingleton_instance R Class) as [d|]; [|done].
    cbn [Outcome_bind].
    destruct (orFail _ _) as [Parent|]; [|done]. cbn [Outcome_bind].
    destruct (ClassSingleton_instance R Parent) as [dP|]; [|done].
    cbn [Outcome_bind]. rewrite IHh.
    destruct (traverseHelper _ _ _ _ _ _ _) as [w1|]; [|done].
    cbn [Outcome_bind]. by rewrite IHp.
Qed.

Lemma save_step_fails {A} `{!OutputArchive A Value} d
    (info : Info FieldTy) instance (w : World A Value) e :
  save_step d info instance w = Failed e →
  e = EShape ∨ e = EUndefined ∨ e = EArchive.
Proof.
  unfold save_step, member_ref_const, ar_make_nvp.
  destruct (subobject instance (w_obj w)) as [o|]; [|intros [= <-]; eauto].
  destruct (obj_fields o !! info_index info); [|intros [= <-]; eauto].
  cbn [Outcome_bind fst snd].
  destruct (memberAtIndex d (info_index info)); [|intros [= <-]; eauto].
  cbn [orFail Outcome_bind w_ar].
  destruct (ar_nvp _ _ _); [done|intros [= <-]; eauto].
Qed.

Lemma load_step_fails {A} `{!InputArchive A Value FieldTy} d
    (info : Info FieldTy) instance (w : World A Value) e :
  load_step d info instance w = Failed e → e = EShape ∨ e = EArchive.
Proof.
  unfold load_step, member_ref, ar_load_ref.
  destruct (subobject instance (w_obj w)) as [o|]; [|intros [= <-]; eauto].
  destruct (decide _); [|intros [= <-]; eauto].
  cbn [Outcome_bind fst snd w_ar w_obj].
  destruct (deref _ _); [|intros [= <-]; eauto].
  destruct (ar_ref _ _ _) as [[ar' new]|]; [|intros [= <-]; eauto].
  destruct (assign _ _ _ _); [done|intros [= <-]; eauto].
Qed.

Section AnyStep.
Context {A : Type}.
Variable step : ClassSingleton → Info FieldTy → list nat → World A Value
                → Outcome (World A Value).

(** A failing check is fatal at once. *)
Lemma traverseHelper_static_assert fuel Class index instance w :
  ClassSingleton_ctor R Class ≠ None →
  ¬ (0 < length (nonstatic_data_members_of R Class)
     ∧ index < length (nonstatic_data_members_of R Class)) →
  traverseHelper R step (S fuel) Class index instance w
  = Failed EStaticAssert.
Proof.
  intros Hd Hbad. rewrite traverseHelper_S.
  destruct (ClassSingleton_instance R Class) as [d|e] eqn:Hi.
  - cbn [Outcome_bind].
    destruct (ClassSingleton_instance_counts _ _ _ Hi) as (-> & _ & _).
    destruct (0 <? _) eqn:H0; [|done]. apply Nat.ltb_lt in H0.
    destruct (index <? _) eqn:H1; [|done]. apply Nat.ltb_lt in H1.
    tauto.
  - unfold ClassSingleton_instance in Hi.
    by destruct (ClassSingleton_ctor R Class).
Qed.

Hypothesis step_no_static_assert :
  ∀ d info instance w, step d info instance w ≠ Failed EStaticAssert.

Variable Root : TypeId.
Hypothesis ordinals_in_range :
  ∀ Class index, Invoked R Root Class index →
                 index < length (nonstatic_data_members_of R Class).

Lemma traverse_no_static_assert fuel :
  (∀ Class index instance w,
     Invoked R Root Class index →
     traverseHelper R step fuel Class index instance w
     ≠ Failed EStaticAssert)
  ∧ (∀ Class index instance w,
       Invoked R Root Class 0 →
       traverseParents R step fuel Class index instance w
       ≠ Failed EStaticAssert).
Proof.
  induction fuel as [|fuel [IHh IHp]]; [done|]. split.
  - intros Class index instance w Hinv. rewrite traverseHelper_S.
    pose proof (ordinals_in_range _ _ Hinv) as Hidx.
    apply Outcome_bind_not_Failed;
      [by apply ClassSingleton_instance_not_Failed|].
    intros d Hd.
    destruct (ClassSingleton_instance_counts _ _ _ Hd) as (-> & -> & _).
    destruct (0 <? _) eqn:H0; [|apply Nat.ltb_ge in H0; lia].
    destruct (index <? _) eqn:H1; [|apply Nat.ltb_ge in H1; lia].
    cbn [negb].
    apply Outcome_bind_not_Failed.
    { destruct (index =? 0) eqn:Hz; [|done].
      apply Nat.eqb_eq in Hz. subst index.
      destruct (0 <? length (bases_of R Class)); [|done]. by apply IHp. }
    intros w1 _.
    apply Outcome_bind_not_Failed; [by apply member_info_not_Failed|].
    intros info _.
    apply Outcome_bind_not_Failed; [apply step_no_static_assert|].
    intros w2 _.
    destruct (index + 1 <? _) eqn:Hn; [|done].
    apply Nat.ltb_lt in Hn. apply IHh. by constructor.
  - intros Class index instance w Hinv. rewrite traverseParents_S.
    apply Outcome_bind_not_Failed;
      [by apply ClassSingleton_instance_not_Failed|].
    intros d Hd.
    destruct (ClassSingleton_instance_counts _ _ _ Hd) as (_ & -> & ->).
    apply Outcome_bind_not_Failed; [by apply orFail_not_Failed|].
    intros Parent HP. apply orFail_Done in HP.
    apply Outcome_bind_not_Failed;
      [by apply ClassSingleton_instance_not_Failed|].
    intros dP _.
    apply Outcome_bind_not_Failed.
    { apply IHh. eapply Invoked_base; [done|].
      by eapply list_elem_of_lookup_2. }
    intros w1 _.
    destruct (index + 1 <? _); [|done]. by apply IHp.
Qed.
End AnyStep.
End HelpersAsTraversals.

(** * The claims about the traversal *)

Section TraversalClaims.
Context {Value FieldTy Aout Ain : Type}.
Context `{!OutputArchive Aout Value} `{!InputArchive Ain Value FieldTy}.
Variable R : Reflection FieldTy.

(** C6.  Every call of [saveHelper] and of [loadHelper] makes the two
    checks: when the class has no direct member, or the ordinal is not
    below the member count, the call fails with the static assertion and
    does nothing else.  When every ordinal the traversal of [Root] asks
    for lies below the member count of the class it is asked of, no call
    of the traversal fails an assertion. *)
Theorem traversal_assertions Root :
  (∀ Class index fuel instance (ws : World Aout Value) (wl : World Ain Value),
     ClassSingleton_ctor R Class ≠ None →
     ¬ (0 < length (nonstatic_data_members_of R Class)
        ∧ index < length (nonstatic_data_members_of R Class)) →
     saveHelper R (S fuel) Class index instance ws = Failed EStaticAssert
     ∧ loadHelper R (S fuel) Class index instance wl = Failed EStaticAssert)
  ∧ ((∀ Class index, Invoked R Root Class index →
                     index < length (nonstatic_data_members_of R Class)) →
     ∀ fuel instance (ws : World Aout Value) (wl : World Ain Value),
       saveHelper R fuel Root 0 instance ws ≠ Failed EStaticAssert
       ∧ loadHelper R fuel Root 0 instance wl ≠ Failed EStaticAssert).
Proof.
  split.
  - intros Class index fuel instance ws wl Hd Hbad.
    rewrite (proj1 (saveHelper_traverse R (S fuel))).
    rewrite (proj1 (loadHelper_traverse R (S fuel))).
    split; by apply traverseHelper_static_assert.
  - intros Hord fuel instance ws wl.
    rewrite (proj1 (saveHelper_traverse R fuel)).
    rewrite (proj1 (loadHelper_traverse R fuel)).
    split.
    + apply (proj1 (traverse_no_static_assert R save_step
                        ltac:(intros d info p w Hf;
                              apply save_step_fails in Hf;
                              destruct Hf as [|[|]]; congruence)
                        Root Hord fuel)).
      constructor.
    + apply (proj1 (traverse_no_static_assert R load_step
                        ltac:(intros d info p w Hf;
                              apply load_step_fails in Hf;
                              destruct Hf as [|]; congruence)
                        Root Hord fuel)).
      constructor.
Qed.

(** C5 (as the code has it).  For a class without direct members the
    descriptor is built and holds no names, and every save and every
    load of an object of the class is rejected by the member-count
    assertion, whatever bases the class has. *)
Theorem memberless_class_is_rejected Class fuel instance
    (ws : World Aout Value) (wl : World Ain Value) :
  nonstatic_data_members_of R Class = [] →
  (∃ d, ClassSingleton_ctor R Class = Some d
        ∧ getMemberNames d = [] ∧ memberCount d = 0)
  ∧ save R (S fuel) Class instance ws = Failed EStaticAssert
  ∧ load R (S fuel) Class instance wl = Failed EStaticAssert.
Proof.
  intros Hnone.
  pose proof (ClassSingleton_ctor_spec R Class) as H. cbv zeta in H.
  unfold memberIdentifiers in H. rewrite Hnone in H. cbn [fmap list_fmap] in H.
  rewrite decide_True in H by (unfold MAX_CLASS_MEMBERS; simpl; lia).
  rewrite decide_True in H by constructor.
  destruct H as (d & Hd & _ & Hmc & _ & _ & Hnames).
  split.
  - exists d. split; [done|]. split; [by apply Hnames|]. done.
  - assert (Hd' : ClassSingleton_ctor R Class ≠ None) by congruence.
    unfold save, load, ClassSingleton_instance. rewrite Hd.
    cbn [orFail Outcome_bind].
    rewrite (proj1 (saveHelper_traverse R (S fuel))).
    rewrite (proj1 (loadHelper_traverse R (S fuel))).
    split; apply traverseHelper_static_assert; try done;
      rewrite Hnone; simpl; lia.
Qed.
End TraversalClaims.

(** C5 as stated fails twice.  [OnlyInherits] has no member of its own and
    a base with a member: saving and loading an object of it is rejected,
    not valid.  [Empty] has neither members nor bases: saving and loading
    is rejected, not a no-op. *)
Lemma memberless_class_counterexample :
  (nonstatic_data_members_of exampleClasses "OnlyInherits" = []
   ∧ bases_of exampleClasses "OnlyInherits" = ["Parent"%string]
   ∧ length (nonstatic_data_members_of exampleClasses "Parent") = 1
   ∧ save exampleClasses 10 "OnlyInherits" []
       (mkWorld [] onlyInherits []) = Failed EStaticAssert
   ∧ load exampleClasses 10 "OnlyInherits" []
       (mkWorld [("foo"%string, VInt 22)] onlyInherits []) = Failed EStaticAssert)
  ∧ (nonstatic_data_members_of exampleClasses "Empty" = []
     ∧ bases_of exampleClasses "Empty" = []
     ∧ save exampleClasses 10 "Empty" []
         (mkWorld [] empty []) = Failed EStaticAssert
     ∧ load exampleClasses 10 "Empty" []
         (mkWorld [] empty []) = Failed EStaticAssert).
Proof. vm_compute. repeat split. Qed.

Lemma memberless_class_is_rejected_witness :
  nonstatic_data_members_of exampleClasses "OnlyInherits" = []
  ∧ (∃ d, ClassSingleton_ctor exampleClasses "OnlyInherits" = Some d
          ∧ getMemberNames d = [] ∧ memberCount d = 0)
  ∧ save exampleClasses 3 "OnlyInherits" []
      (mkWorld [] onlyInherits []) = Failed EStaticAssert
  ∧ load exampleClasses 3 "OnlyInherits" []
      (mkWorld [("foo"%string, VInt 22)] onlyInherits []) = Failed EStaticAssert.
Proof.
  split; [reflexivity|].
  apply (memberless_class_is_rejected exampleClasses "OnlyInherits" 2 []).
  reflexivity.
Defined.

(** ** Enough fuel *)

Section Fuel.
Context {FieldTy : Type}.
Variable R : Reflection FieldTy.

Lemma parentFrames_mono (f g : string → nat) Parents :
  (∀ P, P ∈ Parents → f P ≤ g P) →
  parentFrames f Parents ≤ parentFrames g Parents.
Proof.
  induction Parents as [|P Parents IH]; intros Hfg; simpl; [done|].
  assert (f P ≤ g P) by (apply Hfg; left).
  assert (parentFrames f Parents ≤ parentFrames g Parents)
    by (apply IH; intros Q HQ; apply Hfg; by right).
  lia.
Qed.

Lemma frames_S r Class : frames R r Class ≤ frames R (S r) Class.
Proof.
  revert Class. induction r as [|r IH]; intros Class.
  - simpl. lia.
  - change (frames R (S r) Class) with
      ((1 `max` length (nonstatic_data_members_of R Class))
         `max` S (parentFrames (frames R r) (bases_of R Class))).
    change (frames R (S (S r)) Class) with
      ((1 `max` length (nonstatic_data_members_of R Class))
         `max` S (parentFrames (frames R (S r)) (bases_of R Class))).
    assert (parentFrames (frames R r) (bases_of R Class)
            ≤ parentFrames (frames R (S r)) (bases_of R Class))
      by (apply parentFrames_mono; intros; apply IH).
    lia.
Qed.

Lemma frames_mono r r' Class : r ≤ r' → frames R r Class ≤ frames R r' Class.
Proof.
  induction 1 as [|r' _ IH]; [done|].
  etrans; [exact IH|apply frames_S].
Qed.

Lemma frames_members r Class :
  1 ≤ frames R r Class
  ∧ length (nonstatic_data_members_of R Class) ≤ frames R r Class.
Proof. destruct r; simpl; lia. Qed.

Lemma frames_parents r Class :
  S (parentFrames (frames R r) (bases_of R Class)) ≤ frames R (S r) Class.
Proof. simpl. lia. Qed.

Lemma hierarchy_accepted_self Class :
  hierarchy_accepted R Class → accepted R Class.
Proof. intros H. by apply H. Qed.

Lemma hierarchy_accepted_base Class Parent :
  hierarchy_accepted R Class → Parent ∈ bases_of R Class →
  hierarchy_accepted R Parent.
Proof.
  intros H HP A HA. apply H. by eapply rtc_l.
Qed.

Lemma accepted_instance Class :
  accepted R Class → ∃ d, ClassSingleton_instance R Class = Done d.
Proof.
  intros [Hd _]. unfold ClassSingleton_instance.
  destruct (ClassSingleton_ctor R Class) as [d|]; [eauto|done].
Qed.
End Fuel.

(** ** The helpers return when the object has the layout of its class *)

Section Totality.
Context {Value FieldTy : Type}.
Variable R : Reflection FieldTy.
Hypothesis identifiers_wellformed :
  ∀ Class, Forall identifier_ok (memberIdentifiers R Class).

(** The hierarchy is acyclic: every class ranks above its bases. *)
Variable rank : string → nat.
Hypothesis rank_bases :
  ∀ Class Parent, Parent ∈ bases_of R Class → rank Parent < rank Class.

Lemma run_nvps_app_Some {A} `{!OutputArchive A Value} (ar ar' : A)
    (l1 l2 : list (string * Value)) :
  run_nvps ar (l1 ++ l2) = Some ar' →
  ∃ ar1, run_nvps ar l1 = Some ar1 ∧ run_nvps ar1 l2 = Some ar'.
Proof.
  rewrite run_nvps_app. destruct (run_nvps ar l1) as [ar1|]; [eauto|done].
Qed.

Lemma conforms_bases_drop k cs (bs : list (Object Value)) Parent :
  cs !! k = Some Parent →
  conforms_bases R (drop k cs) (drop k bs) →
  ∃ b, bs !! k = Some b ∧ conforms R Parent b
       ∧ conforms_bases R (drop (S k) cs) (drop (S k) bs).
Proof.
  intros HP. rewrite (drop_S _ _ _ HP).
  destruct (bs !! k) as [b|] eqn:Hb.
  - rewrite (drop_S _ _ _ Hb). simpl. intros [? ?]. eauto.
  - apply lookup_ge_None_1 in Hb. rewrite (drop_ge bs) by done. simpl. done.
Qed.

Lemma save_total {A} `{!OutputArchive A Value} fuel :
  (∀ Class index instance (w : World A Value) o ar',
     hierarchy_accepted R Class →
     subobject instance (w_obj w) = Some o →
     conforms R Class o →
     index < length (nonstatic_data_members_of R Class) →
     (index = 0 → frames R (rank Class) Class ≤ fuel) →
     (0 < index → length (nonstatic_data_members_of R Class) ≤ fuel + index) →
     run_nvps (w_ar w)
       ((if index =? 0
         then flatten_bases R (bases_of R Class) (obj_bases o) else [])
        ++ drop index (zip (memberIdentifiers R Class) (obj_fields o)))
     = Some ar' →
     ∃ w', saveHelper R fuel Class index instance w = Done w')
  ∧ (∀ Class index instance (w : World A Value) o ar' r,
       hierarchy_accepted R Class →
       rank Class ≤ S r →
       subobject instance (w_obj w) = Some o →
       conforms_bases R (drop index (bases_of R Class))
         (drop index (obj_bases o)) →
       index < length (bases_of R Class) →
       parentFrames (frames R r) (drop index (bases_of R Class)) ≤ fuel →
       run_nvps (w_ar w)
         (flatten_bases R (drop index (bases_of R Class))
            (drop index (obj_bases o))) = Some ar' →
       ∃ w', saveParents R fuel Class index instance w = Done w').
Proof.
  induction fuel as [|fuel [IHh IHp]].
  { split.
    - intros Class index instance w o ar' _ _ _ Hidx H0 H1 _. exfalso.
      destruct index; [|lia].
      pose proof (frames_members R (rank Class) Class). lia.
    - intros Class index instance w o ar' r _ _ _ _ Hidx Hf _. exfalso.
      destruct (lookup_lt_is_Some_2 _ _ Hidx) as [P HP].
      rewrite (drop_S _ _ _ HP) in Hf. simpl in Hf. lia. }
  split.
  - (* saveHelper *)
    intros Class index instance w o ar' Hacc Ho Hconf Hidx Hf0 Hf1 Hrun.
    destruct (accepted_instance R _ (hierarchy_accepted_self R _ Hacc))
      as [d Hd].
    destruct (ClassSingleton_instance_Done R identifiers_wellformed _ _ Hd)
      as (Hmc & Hbc & Hb & Hn).
    destruct (hierarchy_accepted_self R _ Hacc) as [_ Hpos].
    apply conforms_unfold in Hconf as [Hcb Hlen].
    rewrite saveHelper_S, Hd. cbn [Outcome_bind]. rewrite Hmc, Hbc.
    rewrite (proj2 (Nat.ltb_lt _ _) Hpos), (proj2 (Nat.ltb_lt _ _) Hidx).
    cbn [negb].
    apply run_nvps_app_Some in Hrun as (ar1 & Hrun1 & Hrun2).
    (* the bases *)
    assert (Hpar : ∃ w1,
      (if index =? 0 then
         if 0 <? length (bases_of R Class)
         then saveParents R fuel Class 0 instance w else Done w
       else Done w) = Done w1
      ∧ w_obj w1 = w_obj w ∧ w_ar w1 = ar1).
    { destruct (index =? 0) eqn:Hz.
      - apply Nat.eqb_eq in Hz. subst index.
        destruct (0 <? length (bases_of R Class)) eqn:Hbs.
        + apply Nat.ltb_lt in Hbs.
          destruct (lookup_lt_is_Some_2 _ _ Hbs) as [P HP].
          assert (HPin : P ∈ bases_of R Class)
            by (by eapply list_elem_of_lookup_2).
          pose proof (rank_bases _ _ HPin) as Hrk.
          destruct (rank Class) as [|r] eqn:Hr; [lia|].
          pose proof (frames_parents R r Class) as Hfp.
          specialize (Hf0 eq_refl).
          destruct (IHp Class 0 instance w o ar1 r Hacc ltac:(lia) Ho
                      ltac:(by rewrite !drop_0) Hbs
                      ltac:(rewrite drop_0; lia)
                      ltac:(by rewrite !drop_0)) as [w1 Hw1].
          exists w1. split; [done|].
          apply (proj2 (save_characterised R identifiers_wellformed fuel))
            in Hw1 as (o' & Ho' & Hobj & _ & _ & Hrun' & _).
          rewrite !drop_0 in Hrun'.
          assert (o' = o) as -> by congruence.
          split; [done|]. congruence.
        + apply Nat.ltb_ge in Hbs.
          assert (bases_of R Class = []) as Hnil
            by (destruct (bases_of R Class); [done|simpl in *; lia]).
          rewrite Hnil in Hrun1.
          exists w. split; [done|]. split; [done|].
          destruct (obj_bases o); simpl in Hrun1; congruence.
      - exists w. split; [done|]. split; [done|].
        simpl in Hrun1. congruence. }
    destruct Hpar as (w1 & -> & Hobj1 & Har1). cbn [Outcome_bind].
    (* the member at [index] *)
    destruct (lookup_lt_is_Some_2 (nonstatic_data_members_of R Class) index Hidx)
      as [m Hm].
    unfold member_info. rewrite Hm. cbn [Outcome_bind].
    unfold member_ref_const. cbn [info_index]. rewrite Hobj1, Ho.
    destruct (lookup_lt_is_Some_2 (obj_fields o) index ltac:(lia)) as [v Hv].
    rewrite Hv. cbn [Outcome_bind fst snd].
    assert (Hname : memberIdentifiers R Class !! index = Some (identifier_of m))
      by (unfold memberIdentifiers; by rewrite list_lookup_fmap, Hm).
    rewrite Hn, Hname. cbn [orFail Outcome_bind].
    rewrite (drop_S _ _ _ (zip_lookup_Some _ _ _ _ _ Hname Hv)) in Hrun2.
    cbn [run_nvps] in Hrun2.
    unfold ar_make_nvp. cbn [w_ar w_obj w_log]. rewrite Har1.
    destruct (ar_nvp ar1 (identifier_of m) v) as [ar2|] eqn:Har2; [|done].
    cbn [Outcome_bind].
    destruct (index + 1 <? _) eqn:Hnext; [|eauto].
    apply Nat.ltb_lt in Hnext.
    apply (IHh Class (index + 1) instance _ o ar' Hacc).
    + cbn [w_obj]. congruence.
    + by apply conforms_unfold.
    + done.
    + lia.
    + intros _. destruct index.
      * pose proof (frames_members R (rank Class) Class).
        specialize (Hf0 eq_refl). lia.
      * specialize (Hf1 ltac:(lia)). lia.
    + cbn [w_ar]. replace (index + 1) with (S index) by lia. done.
  - (* saveParents *)
    intros Class index instance w o ar' r Hacc Hrk Ho Hcb Hidx Hf Hrun.
    destruct (accepted_instance R _ (hierarchy_accepted_self R _ Hacc))
      as [d Hd].
    destruct (ClassSingleton_instance_Done R identifiers_wellformed _ _ Hd)
      as (Hmc & Hbc & Hb & Hn).
    destruct (lookup_lt_is_Some_2 _ _ Hidx) as [Parent HP].
    assert (HPin : Parent ∈ bases_of R Class)
      by (by eapply list_elem_of_lookup_2).
    pose proof (hierarchy_accepted_base R _ _ Hacc HPin) as HaccP.
    destruct (accepted_instance R _ (hierarchy_accepted_self R _ HaccP))
      as [dP HdP].
    destruct (conforms_bases_drop _ _ _ _ HP Hcb) as (b & Hbk & HconfP & Hcb').
    rewrite (drop_S _ _ _ HP) in Hf, Hrun. rewrite (drop_S _ _ _ Hbk) in Hrun.
    cbn [parentFrames] in Hf. cbn [flatten_bases] in Hrun.
    apply run_nvps_app_Some in Hrun as (ar1 & Hrun1 & Hrun2).
    rewrite saveParents_S, Hd. cbn [Outcome_bind]. rewrite Hb, HP, Hbc.
    cbn [orFail Outcome_bind]. rewrite HdP. cbn [Outcome_bind].
    pose proof (rank_bases _ _ HPin) as HrkP.
    pose proof (frames_mono R (rank Parent) r Parent ltac:(lia)) as Hfm.
    destruct (hierarchy_accepted_self R _ HaccP) as [_ HposP].
    destruct (IHh Parent 0 (static_cast instance index) w b ar1 HaccP
                ltac:(apply subobject_static_cast; eauto) HconfP HposP
                ltac:(lia) ltac:(lia)
                ltac:(cbn [Nat.eqb]; by rewrite drop_0, <- flatten_unfold))
      as [w1 Hw1].
    rewrite Hw1. cbn [Outcome_bind].
    destruct (index + 1 <? _) eqn:Hnext; [|eauto].
    apply Nat.ltb_lt in Hnext.
    apply (proj1 (save_characterised R identifiers_wellformed fuel))
      in Hw1 as (b' & Hb' & Hobj & _ & _ & Hrun' & _).
    cbn [Nat.eqb] in Hrun'. rewrite drop_0, <- flatten_unfold in Hrun'.
    apply subobject_static_cast in Hb' as (o' & Ho' & Hbk').
    assert (o' = o) as -> by congruence.
    assert (b' = b) as -> by congruence.
    replace (index + 1) with (S index) in * by lia.
    apply (IHp Class (S index) instance w1 o ar' r Hacc Hrk); try done.
    + congruence.
    + lia.
    + congruence.
Qed.
Lemma load_fields_cons_Some {A} `{!InputArchive A Value FieldTy}
    ty tys (olds : list Value) (ar ar' : A) news :
  load_fields (ty :: tys) olds ar = Some (ar', news) →
  ∃ old olds' ar1 new news',
    olds = old :: olds' ∧ ar_ref ar ty old = Some (ar1, new)
    ∧ load_fields tys olds' ar1 = Some (ar', news') ∧ news = new :: news'.
Proof.
  destruct olds as [|old olds']; [done|]. cbn [load_fields].
  destruct (ar_ref ar ty old) as [[ar1 new]|] eqn:Har; [|done].
  destruct (load_fields tys olds' ar1) as [[ar2 news']|] eqn:Hl; [|done].
  intros [= <- <-]. by exists old, olds', ar1, new, news'.
Qed.

Lemma unflatten_bases_cons_Some {A} `{!InputArchive A Value FieldTy}
    c cs (bs : list (Object Value)) (ar ar' : A) bs' :
  unflatten_bases R (c :: cs) bs ar = Some (ar', bs') →
  ∃ b bs0 ar1 b' bs1,
    bs = b :: bs0 ∧ unflatten R c b ar = Some (ar1, b')
    ∧ unflatten_bases R cs bs0 ar1 = Some (ar', bs1) ∧ bs' = b' :: bs1.
Proof.
  destruct bs as [|b bs0]; [done|]. cbn [unflatten_bases].
  destruct (unflatten R c b ar) as [[ar1 b']|] eqn:Hu; [|done].
  destruct (unflatten_bases R cs bs0 ar1) as [[ar2 bs1]|] eqn:Hl; [|done].
  intros [= <- <-]. by exists b, bs0, ar1, b', bs1.
Qed.

Lemma drop_cons_lookup {X} (l : list X) k x l' :
  drop k l = x :: l' → l !! k = Some x ∧ drop (S k) l = l'.
Proof.
  intros H. destruct (l !! k) as [y|] eqn:Hk.
  - rewrite (drop_S _ _ _ Hk) in H. by injection H as -> ->.
  - apply lookup_ge_None_1 in Hk. by rewrite drop_ge in H.
Qed.

Lemma load_total {A} `{!InputArchive A Value FieldTy} fuel :
  (∀ Class index instance (w : World A Value) o ar1 bases' ar' fields',
     hierarchy_accepted R Class →
     subobject instance (w_obj w) = Some o →
     index < length (nonstatic_data_members_of R Class) →
     (index = 0 → frames R (rank Class) Class ≤ fuel) →
     (0 < index → length (nonstatic_data_members_of R Class) ≤ fuel + index) →
     (if index =? 0
      then unflatten_bases R (bases_of R Class) (obj_bases o) (w_ar w)
      else Some (w_ar w, obj_bases o)) = Some (ar1, bases') →
     load_fields (drop index (type_of <$> nonstatic_data_members_of R Class))
       (drop index (obj_fields o)) ar1 = Some (ar', fields') →
     ∃ w', loadHelper R fuel Class index instance w = Done w')
  ∧ (∀ Class index instance (w : World A Value) o ar' bases' r,
       hierarchy_accepted R Class →
       rank Class ≤ S r →
       subobject instance (w_obj w) = Some o →
       index < length (bases_of R Class) →
       parentFrames (frames R r) (drop index (bases_of R Class)) ≤ fuel →
       unflatten_bases R (drop index (bases_of R Class))
         (drop index (obj_bases o)) (w_ar w) = Some (ar', bases') →
       ∃ w', loadParents R fuel Class index instance w = Done w').
Proof.
  induction fuel as [|fuel [IHh IHp]].
  { split.
    - intros Class index instance w o ar1 bs' ar' fs' _ _ Hidx H0 H1 _ _.
      exfalso. destruct index; [|lia].
      pose proof (frames_members R (rank Class) Class). lia.
    - intros Class index instance w o ar' bs' r _ _ _ Hidx Hf _. exfalso.
      destruct (lookup_lt_is_Some_2 _ _ Hidx) as [P HP].
      rewrite (drop_S _ _ _ HP) in Hf. simpl in Hf. lia. }
  split.
  - (* loadHelper *)
    intros Class index instance w o ar1 bs' ar' fs' Hacc Ho Hidx Hf0 Hf1
      Hbases Hfields.
    destruct (accepted_instance R _ (hierarchy_accepted_self R _ Hacc))
      as [d Hd].
    destruct (ClassSingleton_instance_counts R _ _ Hd) as (Hmc & Hbc & Hb).
    destruct (hierarchy_accepted_self R _ Hacc) as [_ Hpos].
    rewrite loadHelper_S, Hd. cbn [Outcome_bind]. rewrite Hmc, Hbc.
    rewrite (proj2 (Nat.ltb_lt _ _) Hpos), (proj2 (Nat.ltb_lt _ _) Hidx).
    cbn [negb].
    (* the bases *)
    assert (Hpar : ∃ w1 o1,
      (if index =? 0 then
         if 0 <? length (bases_of R Class)
         then loadParents R fuel Class 0 instance w else Done w
       else Done w) = Done w1
      ∧ w_ar w1 = ar1
      ∧ subobject instance (w_obj w1) = Some o1
      ∧ obj_fields o1 = obj_fields o).
    { destruct (index =? 0) eqn:Hz.
      - apply Nat.eqb_eq in Hz. subst index.
        destruct (0 <? length (bases_of R Class)) eqn:Hbs.
        + apply Nat.ltb_lt in Hbs.
          destruct (lookup_lt_is_Some_2 _ _ Hbs) as [P HP].
          assert (HPin : P ∈ bases_of R Class)
            by (by eapply list_elem_of_lookup_2).
          pose proof (rank_bases _ _ HPin) as Hrk.
          destruct (rank Class) as [|r] eqn:Hr; [lia|].
          pose proof (frames_parents R r Class) as Hfp.
          specialize (Hf0 eq_refl).
          destruct (IHp Class 0 instance w o ar1 bs' r Hacc ltac:(lia) Ho Hbs
                      ltac:(rewrite drop_0; lia)
                      ltac:(by rewrite !drop_0)) as [w1 Hw1].
          apply (proj2 (load_characterised R identifiers_wellformed fuel))
            in Hw1 as Hch.
          destruct Hch as (o' & bs1 & Ho' & _ & Hun & Hput & _).
          rewrite !drop_0 in Hun. cbn [take app] in Hput.
          assert (o' = o) as -> by congruence.
          exists w1, (mkObject bs1 (obj_fields o)).
          split; [done|]. split; [congruence|].
          split; [by eapply put_subobject_lookup|done].
        + apply Nat.ltb_ge in Hbs.
          assert (bases_of R Class = []) as Hnil
            by (destruct (bases_of R Class); [done|simpl in *; lia]).
          rewrite Hnil, unflatten_bases_nil_l in Hbases.
          exists w, o. split; [done|]. split; [congruence|]. done.
      - exists w, o. split; [done|]. split; [congruence|]. done. }
    destruct Hpar as (w1 & o1 & -> & Har1 & Ho1 & Hfo1). cbn [Outcome_bind].
    (* the member at [index] *)
    destruct (lookup_lt_is_Some_2 (nonstatic_data_members_of R Class) index Hidx)
      as [m Hm].
    unfold member_info. rewrite Hm. cbn [Outcome_bind].
    rewrite (drop_S _ (type_of m) index) in Hfields
      by (by rewrite list_lookup_fmap, Hm).
    apply load_fields_cons_Some in Hfields
      as (old & olds & ar2 & new & news & Hdrop & Har2 & Hrest & _).
    apply drop_cons_lookup in Hdrop as [Hold Holds].
    pose proof (lookup_lt_Some _ _ _ Hold) as Hlen.
    unfold member_ref. cbn [info_index]. rewrite Ho1, Hfo1.
    rewrite decide_True by done. cbn [Outcome_bind fst snd].
    unfold ar_load_ref, deref.
    cbn [w_ar w_obj w_log ref_instance ref_index info_member].
    rewrite Ho1, Hfo1, Hold, Har1, Har2.
    rewrite assign_put_subobject, Ho1, Hfo1. rewrite decide_True by done.
    destruct (put_subobject_is_Some instance
                (mkObject (obj_bases o1) (<[index := new]> (obj_fields o)))
                (w_obj w1) o1 Ho1) as [obj2 Hput].
    rewrite Hput. cbn [Outcome_bind].
    destruct (index + 1 <? _) eqn:Hnext; [|eauto].
    apply Nat.ltb_lt in Hnext.
    replace (index + 1) with (S index) in * by lia.
    apply (IHh Class (S index) instance _
             (mkObject (obj_bases o1) (<[index := new]> (obj_fields o)))
             ar2 (obj_bases o1) ar' news Hacc).
    + cbn [w_obj]. by eapply put_subobject_lookup.
    + done.
    + lia.
    + intros _. destruct index.
      * pose proof (frames_members R (rank Class) Class).
        specialize (Hf0 eq_refl). lia.
      * specialize (Hf1 ltac:(lia)). lia.
    + done.
    + cbn [obj_fields]. rewrite drop_insert_lt by lia. by rewrite Holds.
  - (* loadParents *)
    intros Class index instance w o ar' bs' r Hacc Hrk Ho Hidx Hf Hun.
    destruct (accepted_instance R _ (hierarchy_accepted_self R _ Hacc))
      as [d Hd].
    destruct (ClassSingleton_instance_counts R _ _ Hd) as (Hmc & Hbc & Hb).
    destruct (lookup_lt_is_Some_2 _ _ Hidx) as [Parent HP].
    assert (HPin : Parent ∈ bases_of R Class)
      by (by eapply list_elem_of_lookup_2).
    pose proof (hierarchy_accepted_base R _ _ Hacc HPin) as HaccP.
    destruct (accepted_instance R _ (hierarchy_accepted_self R _ HaccP))
      as [dP HdP].
    rewrite (drop_S _ _ _ HP) in Hf, Hun.
    cbn [parentFrames] in Hf.
    apply unflatten_bases_cons_Some in Hun
      as (b & bs0 & ar1 & b' & bs1 & Hdrop & HunP & Hrest & _).
    apply drop_cons_lookup in Hdrop as [Hbk Hbs0].
    rewrite loadParents_S, Hd. cbn [Outcome_bind]. rewrite Hb, HP, Hbc.
    cbn [orFail Outcome_bind]. rewrite HdP. cbn [Outcome_bind].
    pose proof (rank_bases _ _ HPin) as HrkP.
    pose proof (frames_mono R (rank Parent) r Parent ltac:(lia)) as Hfm.
    destruct (hierarchy_accepted_self R _ HaccP) as [_ HposP].
    rewrite unflatten_unfold in HunP.
    destruct (unflatten_bases R (bases_of R Parent) (obj_bases b) (w_ar w))
      as [[arP bsP]|] eqn:HunPb; [|done].
    destruct (load_fields _ (obj_fields b) arP) as [[arP' fsP]|] eqn:HlfP;
      [|done].
    injection HunP as <- <-.
    destruct (IHh Parent 0 (static_cast instance index) w b arP bsP arP' fsP
                HaccP ltac:(apply subobject_static_cast; eauto) HposP
                ltac:(lia) ltac:(lia) HunPb
                ltac:(by rewrite !drop_0)) as [w1 Hw1].
    rewrite Hw1. cbn [Outcome_bind].
    destruct (index + 1 <? _) eqn:Hnext; [|eauto].
    apply Nat.ltb_lt in Hnext.
    apply (proj1 (load_characterised R identifiers_wellformed fuel))
      in Hw1 as (b0 & a1 & bs2 & fs2 & Hb0 & _ & Hpar & Hfs & Hput & _).
    cbn [Nat.eqb take app] in Hpar, Hput. rewrite !drop_0 in Hfs.
    apply subobject_static_cast in Hb0 as (o' & Ho' & Hbk').
    assert (o' = o) as -> by congruence.
    assert (b0 = b) as -> by congruence.
    rewrite HunPb in Hpar. injection Hpar as <- <-.
    rewrite HlfP in Hfs. injection Hfs as Hw1ar <-.
    rewrite put_subobject_static_cast, Ho, Hbk in Hput.
    replace (index + 1) with (S index) in * by lia.
    apply (IHp Class (S index) instance w1
             (mkObject (<[index := mkObject bsP fsP]> (obj_bases o)) (obj_fields o))
             ar' bs1 r Hacc Hrk).
    + by eapply put_subobject_lookup.
    + done.
    + lia.
    + cbn [obj_bases]. rewrite drop_insert_lt by lia.
      rewrite Hbs0. by rewrite <- Hw1ar.
Qed.
End Totality.

(** ** Termination and depth of a traversal *)

Lemma max_list_app (l1 l2 : list nat) :
  max_list (l1 ++ l2) = max_list l1 `max` max_list l2.
Proof. induction l1 as [|x l1 IH]; simpl; [done|]. rewrite IH. lia. Qed.

Lemma depth_of_app l1 l2 :
  depth_of (l1 ++ l2) = depth_of l1 `max` depth_of l2.
Proof. unfold depth_of. by rewrite fmap_app, max_list_app. Qed.

Lemma depth_of_singleton a : depth_of [a] = length (acc_instance a).
Proof. unfold depth_of. simpl. lia. Qed.

Section Acyclic.
Context {Value FieldTy : Type}.
Variable R : Reflection FieldTy.
Variable rank : string → nat.
Hypothesis rank_bases :
  ∀ Class Parent, Parent ∈ bases_of R Class → rank Parent < rank Class.

Lemma rank_0_no_bases Class : rank Class = 0 → bases_of R Class = [].
Proof.
  intros Hr. destruct (bases_of R Class) as [|P Ps] eqn:Hb; [done|].
  assert (P ∈ bases_of R Class) as HP by (rewrite Hb; left).
  apply rank_bases in HP. lia.
Qed.

Lemma levels_eq r Class :
  levels R (S r) Class =
    match bases_of R Class with
    | [] => 0
    | Parents => S (max_list (levels R r <$> Parents))
    end.
Proof. reflexivity. Qed.

Lemma levels_S r Class :
  rank Class ≤ r → levels R (S r) Class = levels R r Class.
Proof.
  revert Class. induction r as [|r IH]; intros Class Hr.
  - rewrite levels_eq. by rewrite rank_0_no_bases by lia.
  - rewrite (levels_eq (S r)), (levels_eq r).
    destruct (bases_of R Class) as [|P Ps] eqn:Hb; [done|].
    do 2 f_equal. apply list_fmap_ext. intros i b Hi.
    apply IH.
    assert (b ∈ bases_of R Class)
      by (rewrite Hb; by eapply list_elem_of_lookup_2).
    pose proof (rank_bases _ _ H). lia.
Qed.

Lemma levels_stable r Class :
  rank Class ≤ r → levels R r Class = levels R (rank Class) Class.
Proof.
  induction 1 as [|r Hr IH]; [done|].
  by rewrite levels_S.
Qed.

Lemma levels_unfold Class :
  levels R (rank Class) Class =
    match bases_of R Class with
    | [] => 0
    | Parents => S (max_list ((λ P, levels R (rank P) P) <$> Parents))
    end.
Proof.
  destruct (rank Class) as [|r] eqn:Hr.
  - simpl. by rewrite rank_0_no_bases.
  - rewrite levels_eq.
    destruct (bases_of R Class) as [|P Ps] eqn:Hb; [done|].
    do 2 f_equal. apply list_fmap_ext. intros i b Hi.
    apply levels_stable.
    assert (b ∈ bases_of R Class)
      by (rewrite Hb; by eapply list_elem_of_lookup_2).
    pose proof (rank_bases _ _ H). lia.
Qed.

Section AnyStep.
Context {A : Type}.
Variable step : ClassSingleton → Info FieldTy → list nat → World A Value
                → Outcome (World A Value).

Hypothesis step_has_fuel :
  ∀ d info instance w, step d info instance w ≠ Failed EFuel.

Lemma traverse_terminates fuel :
  (∀ Class index instance w,
     (index = 0 → frames R (rank Class) Class ≤ fuel) →
     (0 < index →
      1 ≤ fuel ∧ length (nonstatic_data_members_of R Class) ≤ fuel + index) →
     traverseHelper R step fuel Class index instance w ≠ Failed EFuel)
  ∧ (∀ Class index instance w r,
       rank Class ≤ S r →
       index < length (bases_of R Class) →
       parentFrames (frames R r) (drop index (bases_of R Class)) ≤ fuel →
       traverseParents R step fuel Class index instance w ≠ Failed EFuel).
Proof.
  induction fuel as [|fuel [IHh IHp]].
  { split.
    - intros Class index instance w H0 H1. exfalso.
      destruct index; [|lia].
      pose proof (frames_members R (rank Class) Class). specialize (H0 eq_refl).
      lia.
    - intros Class index instance w r _ Hidx Hf. exfalso.
      destruct (lookup_lt_is_Some_2 _ _ Hidx) as [P HP].
      rewrite (drop_S _ _ _ HP) in Hf. simpl in Hf. lia. }
  split.
  - intros Class index instance w H0 H1. rewrite traverseHelper_S.
    apply Outcome_bind_not_Failed;
      [by apply ClassSingleton_instance_not_Failed|].
    intros d Hd.
    destruct (ClassSingleton_instance_counts _ _ _ Hd) as (-> & -> & _).
    destruct (negb _); [done|]. destruct (negb _) eqn:Hidx; [done|].
    apply negb_false_iff, Nat.ltb_lt in Hidx.
    apply Outcome_bind_not_Failed.
    { destruct (index =? 0) eqn:Hz; [|done].
      apply Nat.eqb_eq in Hz. subst index.
      destruct (0 <? length (bases_of R Class)) eqn:Hbs; [|done].
      apply Nat.ltb_lt in Hbs.
      destruct (rank Class) as [|r] eqn:Hr.
      { rewrite rank_0_no_bases in Hbs by done. simpl in Hbs. lia. }
      pose proof (frames_parents R r Class). specialize (H0 eq_refl).
      apply (IHp Class 0 instance w r); [lia|done|].
      rewrite drop_0. lia. }
    intros w1 _.
    apply Outcome_bind_not_Failed; [by apply member_info_not_Failed|].
    intros info _.
    apply Outcome_bind_not_Failed; [apply step_has_fuel|].
    intros w2 _.
    destruct (index + 1 <? _) eqn:Hn; [|done].
    apply Nat.ltb_lt in Hn. apply IHh; [lia|]. intros _.
    destruct index.
    + pose proof (frames_members R (rank Class) Class).
      specialize (H0 eq_refl). lia.
    + specialize (H1 ltac:(lia)). lia.
  - intros Class index instance w r Hrk Hidx Hf. rewrite traverseParents_S.
    apply Outcome_bind_not_Failed;
      [by apply ClassSingleton_instance_not_Failed|].
    intros d Hd.
    destruct (ClassSingleton_instance_counts _ _ _ Hd) as (_ & -> & ->).
    apply Outcome_bind_not_Failed; [by apply orFail_not_Failed|].
    intros Parent HP. apply orFail_Done in HP.
    rewrite (drop_S _ _ _ HP) in Hf. cbn [parentFrames] in Hf.
    assert (HPin : Parent ∈ bases_of R Class)
      by (by eapply list_elem_of_lookup_2).
    pose proof (rank_bases _ _ HPin) as HrkP.
    pose proof (frames_mono R (rank Parent) r Parent ltac:(lia)) as Hfm.
    apply Outcome_bind_not_Failed;
      [by apply ClassSingleton_instance_not_Failed|].
    intros dP _.
    apply Outcome_bind_not_Failed; [apply IHh; lia|].
    intros w1 _.
    destruct (index + 1 <? _) eqn:Hn; [|done].
    apply Nat.ltb_lt in Hn.
    replace (index + 1) with (S index) in * by lia.
    apply (IHp Class (S index) instance w1 r); [done|done|lia].
Qed.

(** A helper that returns was called with an ordinal below the member
    count, and a parents helper that returns with a base index below the
    base count. *)
Lemma traverse_in_range fuel Class index instance w w' :
  (traverseHelper R step fuel Class index instance w = Done w' →
   index < length (nonstatic_data_members_of R Class))
  ∧ (traverseParents R step fuel Class index instance w = Done w' →
     index < length (bases_of R Class)).
Proof.
  destruct fuel as [|fuel]; [done|]. split.
  - rewrite traverseHelper_S. intros H.
    apply Outcome_bind_Done in H as (d & Hd & H).
    destruct (ClassSingleton_instance_counts _ _ _ Hd) as (Hmc & _ & _).
    rewrite Hmc in H.
    destruct (negb _); [done|]. destruct (negb _) eqn:Hidx; [done|].
    by apply negb_false_iff, Nat.ltb_lt in Hidx.
  - rewrite traverseParents_S. intros H.
    apply Outcome_bind_Done in H as (d & Hd & H).
    destruct (ClassSingleton_instance_counts _ _ _ Hd) as (_ & _ & Hb).
    rewrite Hb in H.
    apply Outcome_bind_Done in H as (P & HP & _).
    apply orFail_Done in HP. by eapply lookup_lt_Some.
Qed.

Hypothesis step_logs :
  ∀ d info instance w w',
    step d info instance w = Done w' →
    ∃ a, w_log w' = w_log w ++ [a]
         ∧ acc_instance a = instance ∧ acc_index a = info_index info.

Lemma traverse_depth fuel :
  (∀ Class index instance w w',
     traverseHelper R step fuel Class index instance w = Done w' →
     ∃ new a,
       w_log w' = w_log w ++ new
       ∧ depth_of new
         = length instance
           + (if index =? 0 then levels R (rank Class) Class else 0)
       ∧ last new = Some a
       ∧ acc_instance a = instance
       ∧ S (acc_index a) = length (nonstatic_data_members_of R Class))
  ∧ (∀ Class index instance w w',
       traverseParents R step fuel Class index instance w = Done w' →
       ∃ new,
         w_log w' = w_log w ++ new
         ∧ depth_of new
           = length instance
             + S (max_list ((λ P, levels R (rank P) P)
                              <$> drop index (bases_of R Class)))).
Proof.
  induction fuel as [|fuel [IHh IHp]]; [by split|]. split.
  - intros Class index instance w w' H. rewrite traverseHelper_S in H.
    apply Outcome_bind_Done in H as (d & Hd & H).
    destruct (ClassSingleton_instance_counts _ _ _ Hd) as (Hmc & Hbc & _).
    rewrite Hmc, Hbc in H.
    destruct (negb _); [done|]. destruct (negb _) eqn:Hidx; [done|].
    apply negb_false_iff, Nat.ltb_lt in Hidx.
    apply Outcome_bind_Done in H as (w1 & Hw1 & H).
    apply Outcome_bind_Done in H as (info & Hinfo & H).
    apply member_info_Done in Hinfo as [Hii _].
    apply Outcome_bind_Done in H as (w2 & Hw2 & H).
    apply step_logs in Hw2 as (a & Hlog2 & Hap & Hai). rewrite Hii in Hai.
    assert (Hrest : ∃ new2 a2,
      w_log w' = w_log w1 ++ new2
      ∧ depth_of new2 = length instance
      ∧ last new2 = Some a2 ∧ acc_instance a2 = instance
      ∧ S (acc_index a2) = length (nonstatic_data_members_of R Class)).
    { destruct (index + 1 <? _) eqn:Hn in H.
      - apply IHh in H as (new & a2 & Hlog & Hdep & Hlast & Ha2 & Hi2).
        replace (index + 1 =? 0) with false in Hdep
          by (symmetry; apply Nat.eqb_neq; lia).
        exists (a :: new), a2. rewrite Hlog, Hlog2, <- app_assoc.
        split; [done|]. split.
        + change (a :: new) with ([a] ++ new).
          rewrite depth_of_app, depth_of_singleton, Hdep, Hap. lia.
        + split; [|done]. destruct new; [done|]. done.
      - apply Nat.ltb_ge in Hn. injection H as <-.
        exists [a], a. split; [done|]. split.
        + by rewrite depth_of_singleton, Hap.
        + split; [done|]. split; [done|]. lia. }
    destruct Hrest as (new2 & a2 & Hlog & Hdep & Hlast & Ha2 & Hi2).
    destruct (index =? 0) eqn:Hz.
    + destruct (0 <? length (bases_of R Class)) eqn:Hbs.
      * apply IHp in Hw1 as (new1 & Hlog1 & Hdep1).
        rewrite drop_0 in Hdep1.
        exists (new1 ++ new2), a2. rewrite Hlog, Hlog1, <- app_assoc.
        split; [done|]. split.
        -- rewrite depth_of_app, Hdep, Hdep1, levels_unfold.
           apply Nat.ltb_lt in Hbs.
           destruct (bases_of R Class); [simpl in Hbs; lia|]. lia.
        -- split; [|done]. rewrite last_app, Hlast. done.
      * injection Hw1 as <-. apply Nat.ltb_ge in Hbs.
        exists new2, a2. split; [done|]. split; [|done].
        rewrite Hdep, levels_unfold.
        destruct (bases_of R Class); [lia|simpl in Hbs; lia].
    + injection Hw1 as <-. exists new2, a2. split; [done|].
      split; [lia|done].
  - intros Class index instance w w' H. rewrite traverseParents_S in H.
    apply Outcome_bind_Done in H as (d & Hd & H).
    destruct (ClassSingleton_instance_counts _ _ _ Hd) as (_ & Hbc & Hb).
    rewrite Hbc, Hb in H.
    apply Outcome_bind_Done in H as (Parent & HP & H).
    apply orFail_Done in HP.
    apply Outcome_bind_Done in H as (dP & _ & H).
    apply Outcome_bind_Done in H as (w1 & Hw1 & H).
    apply IHh in Hw1 as (new1 & a1 & Hlog1 & Hdep1 & _).
    cbn [Nat.eqb] in Hdep1. unfold static_cast in Hdep1.
    rewrite length_app in Hdep1. cbn [length] in Hdep1.
    rewrite (drop_S _ _ _ HP). cbn [fmap list_fmap max_list].
    destruct (index + 1 <? _) eqn:Hn in H.
    + apply IHp in H as (new2 & Hlog2 & Hdep2).
      replace (index + 1) with (S index) in * by lia.
      exists (new1 ++ new2). rewrite Hlog2, Hlog1, <- app_assoc.
      split; [done|]. rewrite depth_of_app, Hdep1, Hdep2. unfold id. lia.
    + apply Nat.ltb_ge in Hn. injection H as <-.
      exists new1. split; [done|].
      rewrite (drop_ge (bases_of R Class)) by lia.
      cbn [fmap list_fmap max_list]. rewrite Hdep1. unfold id. lia.
Qed.
End AnyStep.
End Acyclic.

Lemma save_step_logs {Value FieldTy A} `{!OutputArchive A Value} d
    (info : Info FieldTy) instance (w w' : World A Value) :
  save_step d info instance w = Done w' →
  w_obj w' = w_obj w
  ∧ w_log w' = w_log w ++ [ConstAccess instance (info_index info)].
Proof.
  unfold save_step, member_ref_const, ar_make_nvp.
  destruct (subobject instance (w_obj w)) as [o|]; [|done].
  destruct (obj_fields o !! info_index info); [|done].
  cbn [Outcome_bind fst snd].
  destruct (memberAtIndex d (info_index info)); [|done].
  cbn [orFail Outcome_bind w_ar w_obj w_log].
  destruct (ar_nvp _ _ _); [|done]. by intros [= <-].
Qed.

Lemma load_step_logs {Value FieldTy A} `{!InputArchive A Value FieldTy} d
    (info : Info FieldTy) instance (w w' : World A Value) :
  load_step d info instance w = Done w' →
  w_log w' = w_log w ++ [MutableAccess instance (info_index info)].
Proof.
  unfold load_step, member_ref, ar_load_ref.
  destruct (subobject instance (w_obj w)) as [o|]; [|done].
  destruct (decide _); [|done].
  cbn [Outcome_bind fst snd w_ar w_obj w_log].
  destruct (deref _ _); [|done].
  destruct (ar_ref _ _ _) as [[ar' new]|]; [|done].
  destruct (assign _ _ _ _); [|done]. by intros [= <-].
Qed.

Section Frame.
Context {Value FieldTy A : Type}.
Variable R : Reflection FieldTy.
Variable step : ClassSingleton → Info FieldTy → list nat → World A Value
                → Outcome (World A Value).
Variable P : Access → Prop.
Hypothesis step_frame :
  ∀ d info instance w w',
    step d info instance w = Done w' →
    w_obj w' = w_obj w ∧ ∃ a, w_log w' = w_log w ++ [a] ∧ P a.

Lemma traverse_frame fuel :
  (∀ Class index instance w w',
     traverseHelper R step fuel Class index instance w = Done w' →
     w_obj w' = w_obj w ∧ ∃ new, w_log w' = w_log w ++ new ∧ Forall P new)
  ∧ (∀ Class index instance w w',
       traverseParents R step fuel Class index instance w = Done w' →
       w_obj w' = w_obj w ∧ ∃ new, w_log w' = w_log w ++ new ∧ Forall P new).
Proof.
  induction fuel as [|fuel [IHh IHp]]; [by split|]. split.
  - intros Class index instance w w' H. rewrite traverseHelper_S in H.
    apply Outcome_bind_Done in H as (d & Hd & H).
    destruct (negb _); [done|]. destruct (negb _); [done|].
    apply Outcome_bind_Done in H as (w1 & Hw1 & H).
    apply Outcome_bind_Done in H as (info & _ & H).
    apply Outcome_bind_Done in H as (w2 & Hw2 & H).
    apply step_frame in Hw2 as (Hobj2 & a & Hlog2 & Ha).
    assert (Hpar : w_obj w1 = w_obj w
                   ∧ ∃ new, w_log w1 = w_log w ++ new ∧ Forall P new).
    { destruct (index =? 0).
      - destruct (0 <? baseCount d); [by eapply IHp|].
        injection Hw1 as <-. split; [done|]. exists []. by rewrite app_nil_r.
      - injection Hw1 as <-. split; [done|]. exists []. by rewrite app_nil_r. }
    destruct Hpar as (Hobj1 & new1 & Hlog1 & Hnew1).
    assert (Hrest : w_obj w' = w_obj w2
                    ∧ ∃ new, w_log w' = w_log w2 ++ new ∧ Forall P new).
    { destruct (index + 1 <? memberCount d); [by eapply IHh|].
      injection H as <-. split; [done|]. exists []. by rewrite app_nil_r. }
    destruct Hrest as (Hobj & new & Hlog & Hnew).
    split; [congruence|]. exists (new1 ++ a :: new).
    rewrite Hlog, Hlog2, Hlog1, <- !app_assoc. split; [done|].
    apply Forall_app. split; [done|]. by constructor.
  - intros Class index instance w w' H. rewrite traverseParents_S in H.
    apply Outcome_bind_Done in H as (d & Hd & H).
    apply Outcome_bind_Done in H as (Parent & _ & H).
    apply Outcome_bind_Done in H as (dP & _ & H).
    apply Outcome_bind_Done in H as (w1 & Hw1 & H).
    apply IHh in Hw1 as (Hobj1 & new1 & Hlog1 & Hnew1).
    assert (Hrest : w_obj w' = w_obj w1
                    ∧ ∃ new, w_log w' = w_log w1 ++ new ∧ Forall P new).
    { destruct (index + 1 <? baseCount d); [by eapply IHp|].
      injection H as <-. split; [done|]. exists []. by rewrite app_nil_r. }
    destruct Hrest as (Hobj & new & Hlog & Hnew).
    split; [congruence|]. exists (new1 ++ new).
    rewrite Hlog, Hlog1, <- !app_assoc. split; [done|].
    by apply Forall_app.
Qed.
End Frame.

Lemma save_frame {Value FieldTy A} `{!OutputArchive A Value}
    (R : Reflection FieldTy) fuel Class instance (w w' : World A Value) :
  save R fuel Class instance w = Done w' →
  w_obj w' = w_obj w
  ∧ ∃ new, w_log w' = w_log w ++ new ∧ Forall is_const_access new.
Proof.
  unfold save. intros H. apply Outcome_bind_Done in H as (d & _ & H).
  rewrite (proj1 (saveHelper_traverse R fuel)) in H.
  revert H. apply (proj1 (traverse_frame R save_step is_const_access
                            ltac:(intros d' info p w0 w0' Hs;
                                  apply save_step_logs in Hs as [? ?];
                                  split; [done|]; eexists; by split) fuel)).
Qed.

(** C10.  A save that returns leaves the object as it was, members of the
    bases included, and touched its members through [member_ref_const]
    only; this holds for [cereal::save] with any output archive and for
    [to_json] and [to_xml]. *)
Theorem saving_does_not_mutate {Value FieldTy A} `{!OutputArchive A Value}
    (R : Reflection FieldTy) (Rc : Reflection CppType) :
  (∀ fuel Class instance (w w' : World A Value),
     save R fuel Class instance w = Done w' →
     w_obj w' = w_obj w
     ∧ ∃ new, w_log w' = w_log w ++ new ∧ Forall is_const_access new)
  ∧ (∀ fuel Class w w',
       to_json Rc fuel Class w = Done w' →
       w_obj w' = w_obj w
       ∧ ∃ new, w_log w' = w_log w ++ new ∧ Forall is_const_access new)
  ∧ (∀ fuel Class w w',
       to_xml Rc fuel Class w = Done w' →
       w_obj w' = w_obj w
       ∧ ∃ new, w_log w' = w_log w ++ new ∧ Forall is_const_access new).
Proof.
  assert (Hwith : ∀ f fuel Class w w',
    with_output_archive f (ar_object_out Rc f fuel Class) w = Done w' →
    w_obj w' = w_obj w
    ∧ ∃ new, w_log w' = w_log w ++ new ∧ Forall is_const_access new).
  { intros f fuel Class w w' H. unfold with_output_archive, ar_object_out in H.
    apply Outcome_bind_Done in H as (w1 & H1 & [= <-]).
    apply Outcome_bind_Done in H1 as (w2 & H2 & [= <-]).
    apply save_frame in H2. exact H2. }
  split; [intros; by eapply save_frame|].
  split; intros fuel Class w w'; apply Hwith.
Qed.

(** A save of [Child {22, 42}] and a [to_json] of [SerialPleh {1, "PLEH!"}]
    return, and the objects are what they were. *)
Lemma saving_does_not_mutate_witness :
  save exampleClasses 3 "Child" [] (mkWorld [] child [])
  = Done (mkWorld [("foo"%string, VInt 22); ("bar"%string, VInt 42)] child
            [ConstAccess [0] 0; ConstAccess [] 0])
  ∧ to_json exampleClasses 2 "SerialPleh" (mkWorld [] pleh [])
    = Done (mkWorld [TokStart; TokName "value0"; TokStart;
                     TokName "foo"; TokInt 1; TokName "bar"; TokStr "PLEH!";
                     TokEnd; TokEnd]
              pleh [ConstAccess [] 0; ConstAccess [] 1])
  ∧ (w_obj (mkWorld [("foo"%string, VInt 22); ("bar"%string, VInt 42)] child
              [ConstAccess [0] 0; ConstAccess [] 0])
     = w_obj (mkWorld ([] : list (string * CppValue)) child [])
     ∧ ∃ new,
         w_log (mkWorld [("foo"%string, VInt 22); ("bar"%string, VInt 42)]
                  child [ConstAccess [0] 0; ConstAccess [] 0])
         = w_log (mkWorld ([] : list (string * CppValue)) child []) ++ new
         ∧ Forall is_const_access new).
Proof.
  split; [reflexivity|]. split; [reflexivity|].
  exact (proj1 (saving_does_not_mutate (A := list (string * CppValue))
                  exampleClasses exampleClasses)
           3 "Child" [] (mkWorld [] child []) _ eq_refl).
Defined.

Section TerminationClaim.
Context {Value FieldTy Aout Ain : Type}.
Context `{!OutputArchive Aout Value} `{!InputArchive Ain Value FieldTy}.
Variable R : Reflection FieldTy.

(** The inheritance hierarchy is acyclic: [rank] orders every class above
    its direct bases, so no class is its own ancestor. *)
Variable rank : string → nat.
Hypothesis rank_bases :
  ∀ Class Parent, Parent ∈ bases_of R Class → rank Parent < rank Class.

End TerminationClaim.

Lemma exampleRank_bases Class Parent :
  Parent ∈ bases_of exampleClasses Class →
  exampleRank Parent < exampleRank Class.
Proof.
  unfold exampleRank. cbn [bases_of exampleClasses].
  destruct (decide (Class = "Child"%string)) as [->|HC].
  - intros ->%list_elem_of_singleton. vm_compute. lia.
  - destruct (decide (Class = "OnlyInherits"%string)) as [->|HO].
    + intros ->%list_elem_of_singleton. vm_compute. lia.
    + by intros ?%elem_of_nil.
Qed.


(** ** The order of a traversal *)

Lemma flatten_bases_concat {Value FieldTy} (R : Reflection FieldTy) cs
    (bs : list (Object Value)) :
  flatten_bases R cs bs = concat (zip_with (flatten R) cs bs).
Proof.
  revert bs. induction cs as [|c cs IH]; intros [|b bs]; simpl; try done.
  by rewrite IH.
Qed.

Lemma visits_bases_concat {Value FieldTy} (R : Reflection FieldTy) mk instance
    k cs (bs : list (Object Value)) :
  visits_bases R mk instance k cs bs =
    concat (imap (λ j cb, visits R mk cb.1 (static_cast instance (k + j)) cb.2)
              (zip cs bs)).
Proof.
  revert k bs. induction cs as [|c cs IH]; intros k [|b bs]; simpl; try done.
  rewrite IH, Nat.add_0_r. do 2 f_equal.
  apply imap_ext. intros j cb _. simpl. do 2 f_equal. lia.
Qed.

Lemma unflatten_bases_length {Value FieldTy A} `{!InputArchive A Value FieldTy}
    (R : Reflection FieldTy) cs (bs : list (Object Value)) (ar ar' : A) bs' :
  unflatten_bases R cs bs ar = Some (ar', bs') →
  length cs ≤ length bs ∧ length bs' = length bs.
Proof.
  revert bs ar bs'. induction cs as [|c cs IH]; intros bs ar bs'.
  - rewrite unflatten_bases_nil_l. intros [= <- <-]. simpl. lia.
  - destruct bs as [|b bs]; [done|]. cbn [unflatten_bases].
    destruct (unflatten R c b ar) as [[ar1 b']|]; [|done].
    destruct (unflatten_bases R cs bs ar1) as [[ar2 bs1]|] eqn:Hl; [|done].
    intros [= <- <-]. apply IH in Hl. simpl. lia.
Qed.

Lemma load_fields_length {Value FieldTy A} `{!InputArchive A Value FieldTy}
    tys (olds : list Value) (ar ar' : A) news :
  load_fields tys olds ar = Some (ar', news) →
  length tys ≤ length olds ∧ length news = length olds.
Proof.
  revert olds ar news. induction tys as [|ty tys IH]; intros olds ar news.
  - rewrite load_fields_nil_l. intros [= <- <-]. simpl. lia.
  - destruct olds as [|old olds]; [done|]. cbn [load_fields].
    destruct (ar_ref ar ty old) as [[ar1 new]|]; [|done].
    destruct (load_fields tys olds ar1) as [[ar2 news1]|] eqn:Hl; [|done].
    intros [= <- <-]. apply IH in Hl. simpl. lia.
Qed.


Lemma exampleClasses_identifiers Class :
  Forall identifier_ok (memberIdentifiers exampleClasses Class).
Proof.
  unfold memberIdentifiers. cbn [nonstatic_data_members_of exampleClasses].
  repeat case_decide;
    try (eapply (bool_decide_unpack _); vm_compute; exact I).
Qed.

(** ** Loading does not look at names *)

Section Renaming.
Context {Value FieldTy A : Type} `{!InputArchive A Value FieldTy}.
Variables R R' : Reflection FieldTy.

(** [R'] declares the classes of [R] with the same bases and with members
    of the same types in the same order, under names of its own, and the
    descriptor of a class can be built in the one whenever it can in the
    other. *)
Hypothesis same_bases : ∀ Class, bases_of R' Class = bases_of R Class.
Hypothesis same_types :
  ∀ Class, type_of <$> nonstatic_data_members_of R' Class
           = type_of <$> nonstatic_data_members_of R Class.
Hypothesis same_built :
  ∀ Class, ClassSingleton_ctor R' Class = None
           ↔ ClassSingleton_ctor R Class = None.

Lemma same_member_count Class :
  length (nonstatic_data_members_of R' Class)
  = length (nonstatic_data_members_of R Class).
Proof.
  rewrite <- (length_fmap type_of (nonstatic_data_members_of R' Class)).
  rewrite same_types. apply length_fmap.
Qed.

Lemma same_instance Class :
  match ClassSingleton_instance R Class, ClassSingleton_instance R' Class with
  | Done d, Done d' =>
      memberCount d' = memberCount d ∧ baseCount d' = baseCount d
      ∧ _bases d' = _bases d
  | Failed e, Failed e' => e = e'
  | _, _ => False
  end.
Proof.
  destruct (ClassSingleton_instance R Class) as [d|e] eqn:Hd;
    destruct (ClassSingleton_instance R' Class) as [d'|e'] eqn:Hd'.
  - destruct (ClassSingleton_instance_counts _ _ _ Hd) as (-> & -> & ->).
    destruct (ClassSingleton_instance_counts _ _ _ Hd') as (-> & -> & ->).
    by rewrite same_member_count, same_bases.
  - unfold ClassSingleton_instance in *.
    destruct (ClassSingleton_ctor R' Class) eqn:H'; [done|].
    apply same_built in H'. by rewrite H' in Hd.
  - unfold ClassSingleton_instance in *.
    destruct (ClassSingleton_ctor R Class) eqn:H0; [done|].
    apply same_built in H0. by rewrite H0 in Hd'.
  - unfold ClassSingleton_instance in *.
    destruct (ClassSingleton_ctor R Class); [done|].
    destruct (ClassSingleton_ctor R' Class); [done|].
    simpl in *. congruence.
Qed.

Lemma load_ignores_names fuel :
  (∀ Class index instance (w : World A Value),
     loadHelper R' fuel Class index instance w
     = loadHelper R fuel Class index instance w)
  ∧ (∀ Class index instance (w : World A Value),
       loadParents R' fuel Class index instance w
       = loadParents R fuel Class index instance w).
Proof.
  induction fuel as [|fuel [IHh IHp]]; [done|]. split.
  - intros Class index instance w. rewrite !loadHelper_S.
    pose proof (same_instance Class) as Hi.
    destruct (ClassSingleton_instance R Class) as [d|e];
      destruct (ClassSingleton_instance R' Class) as [d'|e']; try done;
      [|by subst].
    cbn [Outcome_bind]. destruct Hi as (-> & -> & _).
    destruct (negb _); [done|]. destruct (negb _); [done|].
    rewrite IHp.
    destruct (if index =? 0 then _ else _) as [w1|]; [|done].
    cbn [Outcome_bind]. unfold member_info.
    pose proof (f_equal (λ l, l !! index) (same_types Class)) as Hty.
    cbn beta in Hty. rewrite !list_lookup_fmap in Hty.
    destruct (nonstatic_data_members_of R Class !! index) as [m|];
      destruct (nonstatic_data_members_of R' Class !! index) as [m'|];
      try done.
    injection Hty as Hty. cbn [Outcome_bind info_member info_index].
    unfold member_ref. cbn [info_index].
    rewrite Hty. destruct (subobject instance (w_obj w1)); [|done].
    destruct (decide _); [|done]. cbn [Outcome_bind fst snd].
    destruct (ar_load_ref _ _ _); [|done]. cbn [Outcome_bind].
    by rewrite IHh.
  - intros Class index instance w. rewrite !loadParents_S.
    pose proof (same_instance Class) as Hi.
    destruct (ClassSingleton_instance R Class) as [d|e];
      destruct (ClassSingleton_instance R' Class) as [d'|e']; try done;
      [|by subst].
    cbn [Outcome_bind]. destruct Hi as (_ & -> & ->).
    destruct (orFail _ _) as [Parent|]; [|done]. cbn [Outcome_bind].
    pose proof (same_instance Parent) as HiP.
    destruct (ClassSingleton_instance R Parent) as [dP|eP];
      destruct (ClassSingleton_instance R' Parent) as [dP'|eP']; try done;
      [|by subst].
    cbn [Outcome_bind]. rewrite IHh.
    destruct (loadHelper R fuel Parent 0 _ w) as [w1|]; [|done].
    cbn [Outcome_bind]. by rewrite IHp.
Qed.
End Renaming.


(** ** Round trip *)

Lemma well_typed_unfold {Value FieldTy} (R : Reflection FieldTy)
    (typed : FieldTy → Value → Prop) Class (o : Object Value) :
  well_typed R typed Class o ↔
    well_typed_bases R typed (bases_of R Class) (obj_bases o)
    ∧ Forall2 (λ m v, typed (type_of m) v)
        (nonstatic_data_members_of R Class) (obj_fields o).
Proof.
  destruct o as [bases fields]. simpl.
  match goal with
  | |- ?x ∧ _ ↔ ?y ∧ _ => cut (x ↔ y); [tauto|]
  end.
  generalize (bases_of R Class).
  induction bases as [|b bases IH]; intros [|c cs]; simpl; try done.
  by rewrite IH.
Qed.

Lemma well_typed_conforms {Value FieldTy} (R : Reflection FieldTy)
    (typed : FieldTy → Value → Prop) (o : Object Value) :
  ∀ Class, well_typed R typed Class o → conforms R Class o.
Proof.
  induction o as [bases fields IH] using Object_ind. intros Class.
  rewrite well_typed_unfold, conforms_unfold. cbn [obj_bases obj_fields].
  intros [Hb Hf]. split; [|symmetry; by eapply Forall2_length].
  revert Hb. generalize (bases_of R Class).
  induction IH as [|b bases Hb0 _ IHb]; intros [|c cs]; simpl; try done.
  intros [? ?]. split; [by apply Hb0|by apply IHb].
Qed.

Section RoundTrip.
Context {Value FieldTy Tok : Type}.
Context {oar : OutputArchive (list Tok) Value}.
Context {iar : InputArchive (list Tok) Value FieldTy}.
Variable R : Reflection FieldTy.
Hypothesis identifiers_wellformed :
  ∀ Class, Forall identifier_ok (memberIdentifiers R Class).
Variable rank : string → nat.
Hypothesis rank_bases :
  ∀ Class Parent, Parent ∈ bases_of R Class → rank Parent < rank Class.

(** What the traversal needs of the archive: a value of a member's type
    is accepted under any name, what the output archive appends for it is
    what the input archive takes off the front when asked for that type,
    and the input archive then answers with the value. *)
Variable typed : FieldTy → Value → Prop.
Hypothesis archive_round_trip :
  ∀ ty v, typed ty v →
  ∀ ts name, ∃ enc,
    ar_nvp ts name v = Some (ts ++ enc)
    ∧ ∀ old rest, ar_ref (enc ++ rest) ty old = Some (rest, v).

Lemma fields_round_trip ms vs :
  Forall2 (λ m v, typed (type_of m) v) ms vs →
  ∀ ts, ∃ enc,
    run_nvps ts (zip (identifier_of <$> ms) vs) = Some (ts ++ enc)
    ∧ ∀ olds rest,
        length olds = length vs →
        load_fields (type_of <$> ms) olds (enc ++ rest) = Some (rest, vs).
Proof.
  induction 1 as [|m v ms vs Hv _ IH]; intros ts.
  - exists []. rewrite app_nil_r. split; [done|].
    intros [|??] rest Hl; [done|simpl in Hl; lia].
  - destruct (archive_round_trip _ _ Hv ts (identifier_of m))
      as (enc1 & Hput & Hget).
    destruct (IH (ts ++ enc1)) as (enc2 & Hrun & Hload).
    exists (enc1 ++ enc2). cbn [fmap list_fmap zip zip_with run_nvps].
    rewrite Hput. cbn [fmap] in Hrun. rewrite Hrun, app_assoc.
    split; [done|].
    intros [|old olds] rest Hl; [simpl in Hl; lia|].
    cbn [load_fields]. rewrite <- app_assoc, Hget.
    cbn [fmap] in Hload. rewrite Hload by (simpl in Hl; lia). done.
Qed.

Lemma object_round_trip (o : Object Value) :
  ∀ Class, well_typed R typed Class o →
  ∀ ts, ∃ enc,
    run_nvps ts (flatten R Class o) = Some (ts ++ enc)
    ∧ ∀ o0 rest, conforms R Class o0 →
               unflatten R Class o0 (enc ++ rest) = Some (rest, o).
Proof.
  induction o as [bases fields IH] using Object_ind. intros Class.
  rewrite well_typed_unfold. cbn [obj_bases obj_fields]. intros [Hb Hf] ts.
  assert (Hbases : ∀ cs ts,
    well_typed_bases R typed cs bases →
    ∃ enc, run_nvps ts (flatten_bases R cs bases) = Some (ts ++ enc)
      ∧ ∀ bs0 rest, conforms_bases R cs bs0 →
          unflatten_bases R cs bs0 (enc ++ rest) = Some (rest, bases)).
  { clear Hb Hf ts.
    induction IH as [|b bases Hb0 _ IHb]; intros [|c cs] ts; simpl; try done.
    - intros _. exists []. rewrite app_nil_r. split; [done|].
      by intros [|??] rest.
    - intros [Hwb Hwbs].
      destruct (Hb0 c Hwb ts) as (enc1 & Hrun1 & Hload1).
      destruct (IHb cs (ts ++ enc1) Hwbs) as (enc2 & Hrun2 & Hload2).
      exists (enc1 ++ enc2). rewrite run_nvps_app, Hrun1, Hrun2, app_assoc.
      split; [done|].
      intros [|b0 bs0] rest; [done|]. intros [Hc Hcs].
      rewrite <- app_assoc, (Hload1 b0 _ Hc), (Hload2 bs0 _ Hcs). done. }
  destruct (Hbases (bases_of R Class) ts Hb) as (enc1 & Hrun1 & Hload1).
  destruct (fields_round_trip _ _ Hf (ts ++ enc1)) as (enc2 & Hrun2 & Hload2).
  exists (enc1 ++ enc2). rewrite flatten_unfold. cbn [obj_bases obj_fields].
  rewrite run_nvps_app, Hrun1. unfold memberIdentifiers.
  rewrite Hrun2, app_assoc. split; [done|].
  intros o0 rest. rewrite conforms_unfold, unflatten_unfold. intros [Hc Hl].
  rewrite <- app_assoc, (Hload1 _ _ Hc).
  rewrite Hload2; [done|].
  rewrite Hl. by eapply Forall2_length.
Qed.

(** Let every class of the hierarchy of [Class] be accepted, [v] be an
    object of [Class] whose members hold values of their types, and [v0]
    an object of [Class] to load into.  With enough fuel a save of [v]
    returns, leaves [v] as it is and appends some tokens to the archive; a
    load from those tokens into [v0] returns, takes exactly those tokens
    and leaves the object equal to [v]. *)
Lemma save_then_load Class (v v0 : Object Value) fuel :
  hierarchy_accepted R Class →
  well_typed R typed Class v →
  conforms R Class v0 →
  frames R (rank Class) Class ≤ fuel →
  ∀ ts log, ∃ enc ws,
    save R fuel Class [] (mkWorld ts v log) = Done ws
    ∧ w_ar ws = ts ++ enc ∧ w_obj ws = v
    ∧ ∀ rest log0, ∃ wl,
        load R fuel Class [] (mkWorld (enc ++ rest) v0 log0) = Done wl
        ∧ w_ar wl = rest ∧ w_obj wl = v.
Proof.
  intros Hacc Hv Hv0 Hfuel ts log.
  destruct (object_round_trip v Class Hv ts) as (enc & Hrun & Hload).
  destruct (accepted_instance R _ (hierarchy_accepted_self R _ Hacc))
    as [d Hd].
  destruct (hierarchy_accepted_self R _ Hacc) as [_ Hpos].
  pose proof (well_typed_conforms R typed v Class Hv) as Hconf.
  (* the save returns *)
  destruct (proj1 (save_total R identifiers_wellformed rank rank_bases fuel)
              Class 0 [] (mkWorld ts v log) v (ts ++ enc) Hacc eq_refl Hconf
              Hpos ltac:(done) ltac:(lia)
              ltac:(cbn [Nat.eqb w_ar]; by rewrite drop_0, <- flatten_unfold))
    as [ws Hws].
  exists enc, ws. unfold save. rewrite Hd. cbn [Outcome_bind].
  split; [done|].
  apply (proj1 (save_characterised R identifiers_wellformed fuel)) in Hws
    as (o & Ho & Hobj & _ & _ & Hrun' & _).
  cbn [Nat.eqb w_ar w_obj subobject] in Ho, Hobj, Hrun'.
  injection Ho as <-. rewrite drop_0, <- flatten_unfold, Hrun in Hrun'.
  split; [congruence|]. split; [done|].
  (* the load returns *)
  intros rest log0.
  specialize (Hload v0 rest Hv0). rewrite unflatten_unfold in Hload.
  destruct (unflatten_bases R (bases_of R Class) (obj_bases v0) (enc ++ rest))
    as [[ar1 bs']|] eqn:Hun; [|done].
  destruct (load_fields _ (obj_fields v0) ar1) as [[ar2 fs']|] eqn:Hlf;
    [|done].
  injection Hload as -> <-.
  destruct (proj1 (load_total R identifiers_wellformed rank rank_bases fuel)
              Class 0 [] (mkWorld (enc ++ rest) v0 log0) v0 ar1 bs' rest fs'
              Hacc eq_refl Hpos ltac:(done) ltac:(lia) Hun
              ltac:(by rewrite !drop_0))
    as [wl Hwl].
  exists wl. unfold load. rewrite Hd. cbn [Outcome_bind]. split; [done|].
  apply (proj1 (load_characterised R identifiers_wellformed fuel)) in Hwl
    as (o & a1 & bs1 & fs1 & Ho & _ & Hun' & Hlf' & Hput & _).
  cbn [Nat.eqb w_ar w_obj subobject take app put_subobject] in *.
  injection Ho as <-. rewrite !drop_0 in Hlf'.
  rewrite Hun in Hun'. injection Hun' as <- <-.
  rewrite Hlf in Hlf'. injection Hlf' as <- <-.
  split; [done|]. rewrite take_0 in Hput. simpl in Hput. congruence.
Qed.
End RoundTrip.

(** ** Round trip through the three archives *)

Lemma cereal_archive_round_trip f ty v :
  cpp_typed ty v →
  ∀ (ts : list Tok) name, ∃ enc,
    @ar_nvp _ _ (cereal_nvp f) ts name v = Some (ts ++ enc)
    ∧ ∀ old rest,
        @ar_ref _ _ _ (cereal_ref f) (enc ++ rest) ty old = Some (rest, v).
Proof.
  intros Hty ts name.
  destruct ty, v; try done; destruct f;
    (eexists; split; [reflexivity|]; intros; reflexivity).
Qed.

Lemma read_past_node_starts f name name' rest :
  read_past (node_starts f name) (node_starts f name' ++ rest) = Some rest.
Proof. by destruct f. Qed.

Lemma read_past_node_ends f rest :
  read_past (node_ends f) (node_ends f ++ rest) = Some rest.
Proof. by destruct f. Qed.

Lemma read_past_archive_opens f rest :
  read_past (archive_opens f) (archive_opens f ++ rest) = Some rest.
Proof. by destruct f. Qed.

Lemma read_past_archive_closes f rest :
  read_past (archive_closes f) (archive_closes f ++ rest) = Some rest.
Proof. by destruct f. Qed.

Section ArchiveRoundTrip.
Variable R : Reflection CppType.
Hypothesis identifiers_wellformed :
  ∀ Class, Forall identifier_ok (memberIdentifiers R Class).
Variable rank : string → nat.
Hypothesis rank_bases :
  ∀ Class Parent, Parent ∈ bases_of R Class → rank Parent < rank Class.

Variables (Class : TypeId) (v v0 : Object CppValue) (fuel : nat).
Hypothesis Class_accepted : hierarchy_accepted R Class.
Hypothesis v_typed : well_typed R cpp_typed Class v.
Hypothesis v0_conforms : conforms R Class v0.
Hypothesis enough_fuel : frames R (rank Class) Class ≤ fuel.

Lemma ar_object_round_trip f (ts : list Tok) log :
  ∃ enc ws,
    ar_object_out R f fuel Class (mkWorld ts v log) = Done ws
    ∧ w_ar ws = ts ++ enc ∧ w_obj ws = v
    ∧ ∀ rest log0, ∃ wl,
        ar_object_in R f fuel Class (mkWorld (enc ++ rest) v0 log0) = Done wl
        ∧ w_ar wl = rest ∧ w_obj wl = v.
Proof.
  destruct (save_then_load (oar := cereal_nvp f) (iar := cereal_ref f)
              R identifiers_wellformed rank rank_bases cpp_typed
              (cereal_archive_round_trip f) Class v v0 fuel
              Class_accepted v_typed v0_conforms enough_fuel
              (ts ++ node_starts f "value0") log)
    as (enc & ws & Hsave & Har & Hobj & Hload).
  exists (node_starts f "value0" ++ enc ++ node_ends f).
  eexists. unfold ar_object_out, Stream. cbn [w_ar w_obj w_log].
  rewrite Hsave. cbn [Outcome_bind]. split; [reflexivity|].
  cbn [w_ar w_obj]. rewrite Har, Hobj.
  split; [by rewrite <- !app_assoc|]. split; [done|].
  intros rest log0.
  destruct (Hload (node_ends f ++ rest) log0) as (wl & Hl & Harl & Hobjl).
  unfold ar_object_in, Stream. cbn [w_ar w_obj w_log].
  rewrite <- !app_assoc, read_past_node_starts. cbn [orFail Outcome_bind].
  rewrite Hl. cbn [Outcome_bind]. rewrite Harl, read_past_node_ends.
  cbn [orFail Outcome_bind]. eexists. split; [reflexivity|]. done.
Qed.

Lemma with_archive_round_trip f
    (out inn : World (Stream f) CppValue → Outcome (World (Stream f) CppValue)) :
  (∀ (ts : list Tok) log, ∃ enc ws,
     out (mkWorld ts v log) = Done ws
     ∧ w_ar ws = ts ++ enc ∧ w_obj ws = v
     ∧ ∀ rest log0, ∃ wl,
         inn (mkWorld (enc ++ rest) v0 log0) = Done wl
         ∧ w_ar wl = rest ∧ w_obj wl = v) →
  ∀ (ts : list Tok) log, ∃ enc ws,
    with_output_archive f out (mkWorld ts v log) = Done ws
    ∧ w_ar ws = ts ++ enc ∧ w_obj ws = v
    ∧ ∀ rest log0, ∃ wl,
        with_input_archive f inn (mkWorld (enc ++ rest) v0 log0) = Done wl
        ∧ w_ar wl = rest ∧ w_obj wl = v.
Proof.
  intros Hbody ts log.
  destruct (Hbody (ts ++ archive_opens f) log)
    as (enc & ws & Hout & Har & Hobj & Hin).
  exists (archive_opens f ++ enc ++ archive_closes f).
  eexists. unfold with_output_archive, Stream in *. cbn [w_ar w_obj w_log].
  rewrite Hout. cbn [Outcome_bind]. split; [reflexivity|].
  cbn [w_ar w_obj]. rewrite Har, Hobj.
  split; [by rewrite <- !app_assoc|]. split; [done|].
  intros rest log0.
  destruct (Hin (archive_closes f ++ rest) log0) as (wl & Hl & Harl & Hobjl).
  unfold with_input_archive, Stream in *. cbn [w_ar w_obj w_log].
  rewrite <- !app_assoc, read_past_archive_opens. cbn [orFail Outcome_bind].
  rewrite Hl. cbn [Outcome_bind]. rewrite Harl, read_past_archive_closes.
  cbn [orFail Outcome_bind]. eexists. split; [reflexivity|]. done.
Qed.

(** The three archives and the convenience functions, for members that
    are ints and strings. *)
Lemma backends_round_trip :
  (∀ f, ∃ ws,
     to_output_archive R f fuel Class (mkWorld [] v []) = Done ws
     ∧ ∃ wl, from_input_archive R f fuel Class (mkWorld (w_ar ws) v0 [])
             = Done wl
           ∧ w_obj wl = v)
  ∧ (∃ ws,
       to_json R fuel Class (mkWorld [] v []) = Done ws
       ∧ ∃ wl, from_json R fuel Class (mkWorld (w_ar ws) v0 []) = Done wl
             ∧ w_obj wl = v)
  ∧ (∃ json,
       to_json_string R fuel Class v = Done json
       ∧ from_json_string R fuel Class v0 json = Done v)
  ∧ (∃ ws,
       to_xml R fuel Class (mkWorld [] v []) = Done ws
       ∧ ∃ wl, from_xml R fuel Class (mkWorld (w_ar ws) v0 []) = Done wl
             ∧ w_obj wl = v)
  ∧ (∃ xml,
       to_xml_string R fuel Class v = Done xml
       ∧ from_xml_string R fuel Class v0 xml = Done v).
Proof.
  pose proof (with_archive_round_trip JSON _ _ (ar_object_round_trip JSON)
                [] []) as (encj & wsj & Hj & Harj & _ & Hinj).
  pose proof (with_archive_round_trip XML _ _ (ar_object_round_trip XML)
                [] []) as (encx & wsx & Hx & Harx & _ & Hinx).
  destruct (Hinj [] []) as (wlj & Hlj & _ & Hobjj).
  destruct (Hinx [] []) as (wlx & Hlx & _ & Hobjx).
  rewrite app_nil_r in Hlj, Hlx. cbn [app] in Harj, Harx.
  change (to_json R fuel Class (mkWorld [] v []) = Done wsj) in Hj.
  change (from_json R fuel Class (mkWorld encj v0 []) = Done wlj) in Hlj.
  change (to_xml R fuel Class (mkWorld [] v []) = Done wsx) in Hx.
  change (from_xml R fuel Class (mkWorld encx v0 []) = Done wlx) in Hlx.
  repeat split.
  - intros f.
    destruct (ar_object_round_trip f [] []) as (enc & ws & Hs & Har & _ & Hin).
    destruct (Hin [] []) as (wl & Hl & _ & Hobj).
    exists ws. split; [done|]. exists wl.
    rewrite Har. cbn [app]. by rewrite app_nil_r in Hl.
  - exists wsj. split; [done|]. exists wlj. by rewrite Harj.
  - exists encj. unfold to_json_string, from_json_string.
    rewrite Hj. cbn [Outcome_bind]. rewrite Harj, Hlj. cbn [Outcome_bind].
    by rewrite Hobjj.
  - exists wsx. split; [done|]. exists wlx. by rewrite Harx.
  - exists encx. unfold to_xml_string, from_xml_string.
    rewrite Hx. cbn [Outcome_bind]. rewrite Harx, Hlx. cbn [Outcome_bind].
    by rewrite Hobjx.
Qed.
End ArchiveRoundTrip.

Lemma SerialPleh_accepted : hierarchy_accepted exampleClasses "SerialPleh".
Proof.
  intros Ancestor Hrtc. inversion Hrtc as [|? Base ? Hbase _]; subst.
  - split; [by vm_compute|vm_compute; lia].
  - vm_compute in Hbase. by apply elem_of_nil in Hbase.
Qed.



(** ** Shared references *)

Lemma encode_decode f ty v name :
  cpp_typed ty v →
  ∃ data, encode f name v = Some data
          ∧ ∀ rest, decode f ty (data ++ rest) = Some (rest, v).
Proof.
  intros Hty. destruct ty, v; try done; destruct f;
    (eexists; split; [reflexivity|]; intros; reflexivity).
Qed.

Lemma grows_same out inp out' inp' :
  out_registry out' = out_registry out →
  in_registry inp' = in_registry inp →
  grows out inp out' inp'.
Proof. intros H1 H2 u u'. by rewrite H1, H2. Qed.

Lemma grows_trans out inp out1 inp1 out2 inp2 :
  grows out inp out1 inp1 → grows out1 inp1 out2 inp2 →
  grows out inp out2 inp2.
Proof. intros H1 H2 u u' Hu. by apply H2, H1. Qed.

Lemma restored_grows out inp out' inp' o o' :
  grows out inp out' inp' →
  restored (out_registry out) (in_registry inp) o o' →
  restored (out_registry out') (in_registry inp') o o'.
Proof.
  intros Hg Hr instance index v Hv.
  destruct (Hr instance index v Hv) as (v' & Hv' & Hres). eauto.
Qed.

Lemma written_trans out out1 out2 enc1 enc2 :
  written out out1 enc1 → written out1 out2 enc2 →
  written out out2 (enc1 ++ enc2).
Proof.
  intros (Hs1 & Hm1 & _) (Hs2 & Hm2 & Hok).
  split; [by rewrite Hs2, Hs1, app_assoc|]. split; [congruence|done].
Qed.

Lemma reads_back_bind {T U V} out out1 out2 enc1 enc2
    (r1 : TrackingInput → option (TrackingInput * T))
    (r2 : TrackingInput → option (TrackingInput * U))
    (r : TrackingInput → option (TrackingInput * V))
    (combine : T → U → V)
    (post1 : TrackingInput → T → Prop) (post2 : TrackingInput → U → Prop)
    (post : TrackingInput → V → Prop) :
  reads_back out out1 enc1 r1 post1 →
  reads_back out1 out2 enc2 r2 post2 →
  (∀ inp inp1 x inp2 y,
     r1 inp = Some (inp1, x) → r2 inp1 = Some (inp2, y) →
     r inp = Some (inp2, combine x y)) →
  (∀ inp1 inp2 x y,
     post1 inp1 x → grows out1 inp1 out2 inp2 → post2 inp2 y →
     post inp2 (combine x y)) →
  reads_back out out2 (enc1 ++ enc2) r post.
Proof.
  intros H1 H2 Hr Hpost inp rest Hl Hin.
  rewrite <- app_assoc in Hin.
  destruct (H1 inp _ Hl Hin) as (inp1 & x & Hr1 & Hin1 & Hl1 & Hp1 & Hg1).
  destruct (H2 inp1 _ Hl1 Hin1) as (inp2 & y & Hr2 & Hin2 & Hl2 & Hp2 & Hg2).
  exists inp2, (combine x y).
  split; [by eapply Hr|]. split; [done|]. split; [done|].
  split; [by eapply Hpost|by eapply grows_trans].
Qed.

Section SharedReferences.
Variable f : Format.
Variable memory : list CppValue.

(** One value: what [ar(make_nvp(name, v))] writes, [ar(ref)] reads. *)
Lemma tracking_value_round_trip ty v out name :
  tracked_typed memory ty v →
  out_memory out = memory →
  registry_ok out →
  ∃ enc out',
    @ar_nvp _ _ (tracking_nvp f) out name v = Some out'
    ∧ written out out' enc
    ∧ ∀ old,
        reads_back out out' enc
          (λ inp, @ar_ref _ _ _ (tracking_ref f) inp ty old)
          (λ inp' v',
             restored_value (out_registry out') (in_registry inp') v
             = Some v').
Proof.
  intros Hty Hmem Hok.
  assert (Hscalar : cpp_typed ty v →
    ∃ enc out',
      @ar_nvp _ _ (tracking_nvp f) out name v = Some out'
      ∧ written out out' enc
      ∧ ∀ old,
          reads_back out out' enc
            (λ inp, @ar_ref _ _ _ (tracking_ref f) inp ty old)
            (λ inp' v',
               restored_value (out_registry out') (in_registry inp') v
               = Some v')).
  { intros Hs. destruct (encode_decode f ty v name Hs) as (data & He & Hd).
    exists data. eexists. split; [|split].
    - unfold ar_nvp, tracking_nvp. rewrite He.
      destruct ty, v; try done.
    - done.
    - intros old inp rest Hl Hin. unfold ar_ref, tracking_ref.
      rewrite Hin, Hd. destruct ty, v; try done;
        (do 2 eexists; split; [reflexivity|];
         repeat split; [done|by apply grows_same]). }
  destruct ty as [| |C|T]; try (by apply Hscalar).
  destruct v as [z|s|[a|]]; try done.
  - (* a pointer to the object at [a] *)
    destruct Hty as (target & Ha & Htarget).
    destruct (out_registry out !! a) as [id|] eqn:Hid.
    + (* met before *)
      exists (pointer_node f name [TokBack id]). eexists. split; [|split].
      { unfold ar_nvp, tracking_nvp. rewrite Hid. reflexivity. }
      { done. }
      intros old inp rest Hl Hin. unfold ar_ref, tracking_ref.
      destruct (Hl a id Hid) as (a' & t' & Hptr & Hmem' & Hout).
      rewrite Hin. unfold pointer_node.
      rewrite <- !app_assoc, read_past_node_starts. cbn [app].
      rewrite Hptr, read_past_node_ends.
      do 2 eexists. split; [reflexivity|]. cbn [in_stream in_registry].
      split; [done|]. split; [done|]. split; [|by apply grows_same].
      cbn [restored_value out_registry]. by rewrite Hid, Hptr.
    + (* met for the first time *)
      destruct (encode_decode f T target "data" Htarget) as (data & He & Hd).
      exists (pointer_node f name (TokFirst (size (out_registry out)) :: data)).
      eexists. split; [|split].
      { unfold ar_nvp, tracking_nvp. rewrite Hid, Hmem, Ha, He. reflexivity. }
      { split; [done|]. split; [done|].
        intros b idb. cbn [out_registry].
        rewrite map_size_insert_None by done.
        destruct (decide (a = b)) as [->|Hne].
        - rewrite lookup_insert_eq. intros [= <-]. lia.
        - rewrite lookup_insert_ne by done. intros Hb%Hok. lia. }
      assert (Hfresh : ∀ b idb, out_registry out !! b = Some idb →
                b ≠ a ∧ idb ≠ size (out_registry out)).
      { intros b idb Hb. split; [congruence|]. apply Hok in Hb. lia. }
      intros old inp rest Hl Hin. unfold ar_ref, tracking_ref.
      rewrite Hin. unfold pointer_node.
      rewrite <- !app_assoc, read_past_node_starts. cbn [app].
      rewrite Hd, read_past_node_ends.
      do 2 eexists. split; [reflexivity|].
      cbn [in_stream in_registry in_memory out_registry out_memory].
      split; [done|]. split; [|split].
      * intros b idb.
        cbn [in_stream in_registry in_memory out_registry out_memory].
        destruct (decide (a = b)) as [->|Hne].
        -- rewrite lookup_insert_eq. intros [= <-].
           exists (length (in_memory inp)), target.
           rewrite lookup_insert_eq, list_lookup_middle by done. done.
        -- rewrite lookup_insert_ne by done. intros Hb.
           destruct (Hl b idb Hb) as (b' & t' & Hptr & Hmem' & Hout).
           exists b', t'. destruct (Hfresh b idb Hb) as [_ Hidb].
           rewrite lookup_insert_ne by done.
           split; [done|].
           split; [by apply lookup_app_l_Some|by rewrite <- Hmem].
      * cbn [restored_value]. by rewrite !lookup_insert_eq.
      * intros u u'. destruct u as [| |[b|]]; try done.
        cbn [restored_value in_registry out_registry].
        destruct (out_registry out !! b) as [idb|] eqn:Hb; [|done].
        destruct (Hfresh b idb Hb) as [Hba Hidb].
        rewrite lookup_insert_ne, Hb by done.
        by rewrite lookup_insert_ne by done.
  - (* a null pointer *)
    exists (pointer_node f name [TokNull]). eexists.
    split; [reflexivity|]. split; [done|].
    intros old inp rest Hl Hin. unfold ar_ref, tracking_ref.
    rewrite Hin. unfold pointer_node.
    rewrite <- !app_assoc, read_past_node_starts. cbn [app].
    rewrite read_past_node_ends.
    do 2 eexists. split; [reflexivity|].
    repeat split; [done|by apply grows_same].
Qed.
End SharedReferences.

Lemma well_typed_bases_conforms {Value FieldTy} (R : Reflection FieldTy)
    (typed : FieldTy → Value → Prop) cs (bs : list (Object Value)) :
  well_typed_bases R typed cs bs → conforms_bases R cs bs.
Proof.
  revert cs. induction bs as [|b bs IH]; intros [|c cs]; simpl; try done.
  intros [Hb Hbs]. split; [by eapply well_typed_conforms|by apply IH].
Qed.

Section TrackingTraversal.
Variable f : Format.
Variable memory : list CppValue.
Variable R : Reflection CppType.

Lemma tracking_fields_round_trip ms vs :
  Forall2 (λ m v, tracked_typed memory (type_of m) v) ms vs →
  ∀ out, out_memory out = memory → registry_ok out →
  ∃ enc out',
    @run_nvps _ _ (tracking_nvp f) out (zip (identifier_of <$> ms) vs)
    = Some out'
    ∧ written out out' enc
    ∧ ∀ olds, length olds = length vs →
        reads_back out out' enc
          (load_fields (iar := tracking_ref f) (type_of <$> ms) olds)
          (λ inp' vs',
             Forall2 (λ v v',
                        restored_value (out_registry out') (in_registry inp') v
                        = Some v') vs vs').
Proof.
  induction 1 as [|m v ms vs Hv _ IH]; intros out Hmem Hok.
  - exists [], out. split; [done|]. split.
    { split; [by rewrite app_nil_r|done]. }
    intros [|??] Hlen; [|done]. intros inp rest Hl Hin.
    exists inp, []. split; [done|]. split; [done|]. split; [done|].
    split; [constructor|by apply grows_same].
  - destruct (tracking_value_round_trip f memory _ _ out (identifier_of m)
                Hv Hmem Hok) as (enc1 & out1 & Hput & Hw1 & Hr1).
    destruct (IH out1) as (enc2 & out2 & Hrun & Hw2 & Hr2).
    { destruct Hw1 as (_ & -> & _). done. }
    { by destruct Hw1 as (_ & _ & ?). }
    exists (enc1 ++ enc2), out2.
    cbn [fmap list_fmap zip zip_with run_nvps]. rewrite Hput.
    split; [exact Hrun|]. split; [by eapply written_trans|].
    intros [|old olds] Hlen; [done|].
    eapply (reads_back_bind _ _ _ _ _ _ _ _ cons);
      [apply (Hr1 old)|apply (Hr2 olds); simpl in Hlen; lia|..].
    + intros inp inp1 x inp2 y Hx Hy. cbn [load_fields]. by rewrite Hx, Hy.
    + intros inp1 inp2 x y Hx Hg Hy. constructor; [|done].
      apply (Hg v x). by destruct Hw2 as (_ & _ & _).
Qed.
Lemma field_at_nil {Value} index (o : Object Value) :
  field_at [] index o = obj_fields o !! index.
Proof. done. Qed.

Lemma field_at_cons {Value} k instance index (o : Object Value) :
  field_at (k :: instance) index o
  = match obj_bases o !! k with
    | Some b => field_at instance index b
    | None => None
    end.
Proof. unfold field_at. cbn [subobject]. by destruct (obj_bases o !! k). Qed.

Lemma tracking_object_round_trip (o : Object CppValue) :
  ∀ Class out,
    well_typed R (tracked_typed memory) Class o →
    out_memory out = memory → registry_ok out →
    ∃ enc out',
      @run_nvps _ _ (tracking_nvp f) out (flatten R Class o) = Some out'
      ∧ written out out' enc
      ∧ ∀ o0, conforms R Class o0 →
          reads_back out out' enc
            (unflatten R (iar := tracking_ref f) Class o0)
            (λ inp' o',
               restored (out_registry out') (in_registry inp') o o').
Proof.
  induction o as [bases fields IH] using Object_ind. intros Class out.
  rewrite well_typed_unfold. cbn [obj_bases obj_fields].
  intros [Hb Hf] Hmem Hok.
  assert (Hbases : ∀ cs out,
    well_typed_bases R (tracked_typed memory) cs bases →
    out_memory out = memory → registry_ok out →
    ∃ enc out',
      @run_nvps _ _ (tracking_nvp f) out (flatten_bases R cs bases)
      = Some out'
      ∧ written out out' enc
      ∧ ∀ bs0, conforms_bases R cs bs0 →
          reads_back out out' enc
            (unflatten_bases R (iar := tracking_ref f) cs bs0)
            (λ inp' bs',
               ∀ k b, bases !! k = Some b →
                 ∃ b', bs' !! k = Some b'
                       ∧ restored (out_registry out') (in_registry inp')
                           b b')).
  { clear Hb Hf Hmem Hok out.
    induction IH as [|b bases Hb0 _ IHb]; intros [|c cs] out; simpl;
      try done.
    - intros _ Hmem Hok. exists [], out. split; [done|]. split.
      { split; [by rewrite app_nil_r|done]. }
      intros [|??] Hc; [|done]. intros inp rest Hl Hin.
      exists inp, []. split; [done|]. split; [done|]. split; [done|].
      split; [by intros k b ?|by apply grows_same].
    - intros [Hwb Hwbs] Hmem Hok.
      destruct (Hb0 c out Hwb Hmem Hok) as (enc1 & out1 & Hrun1 & Hw1 & Hr1).
      destruct (IHb cs out1 Hwbs) as (enc2 & out2 & Hrun2 & Hw2 & Hr2).
      { destruct Hw1 as (_ & -> & _). done. }
      { by destruct Hw1 as (_ & _ & ?). }
      exists (enc1 ++ enc2), out2. rewrite run_nvps_app, Hrun1.
      split; [exact Hrun2|]. split; [by eapply written_trans|].
      intros [|b0 bs0]; [done|]. intros [Hc Hcs].
      eapply (reads_back_bind _ _ _ _ _ _ _ _ cons);
        [apply (Hr1 b0 Hc)|apply (Hr2 bs0 Hcs)|..].
      + intros inp inp1 x inp2 y Hx Hy. cbn [unflatten_bases].
        by rewrite Hx, Hy.
      + intros inp1 inp2 x y Hx Hg Hy [|k] b'; cbn [lookup list_lookup].
        * intros [= <-]. exists x. split; [done|].
          by eapply restored_grows.
        * apply Hy. }
  destruct (Hbases (bases_of R Class) out Hb Hmem Hok)
    as (enc1 & out1 & Hrun1 & Hw1 & Hr1).
  destruct (tracking_fields_round_trip _ _ Hf out1)
    as (enc2 & out2 & Hrun2 & Hw2 & Hr2).
  { destruct Hw1 as (_ & -> & _). done. }
  { by destruct Hw1 as (_ & _ & ?). }
  exists (enc1 ++ enc2), out2. rewrite flatten_unfold.
  cbn [obj_bases obj_fields]. rewrite run_nvps_app, Hrun1.
  split; [exact Hrun2|]. split; [by eapply written_trans|].
  intros o0. rewrite conforms_unfold. intros [Hc Hl].
  eapply (reads_back_bind _ _ _ _ _ _ _ _ mkObject);
    [apply (Hr1 _ Hc)|apply (Hr2 (obj_fields o0))|..].
  - rewrite Hl. by eapply Forall2_length.
  - intros inp inp1 x inp2 y Hx Hy. rewrite unflatten_unfold.
    by rewrite Hx, Hy.
  - intros inp1 inp2 bs' fs' Hbs Hg Hfs [|k instance] index v.
    + rewrite !field_at_nil. cbn [obj_fields]. intros Hv.
      destruct (Forall2_lookup_l _ _ _ _ _ Hfs Hv) as (v' & Hv' & Hres).
      eauto.
    + rewrite !field_at_cons. cbn [obj_bases].
      destruct (bases !! k) as [b|] eqn:Hk; [|done]. intros Hv.
      destruct (Hbs k b Hk) as (b' & -> & Hres).
      by apply (restored_grows _ _ _ _ _ _ Hg Hres).
Qed.
End TrackingTraversal.

(** ** The helpers compute what the two loops compute *)

Section HelpersRunTheLoops.
Context {Value FieldTy : Type}.
Variable R : Reflection FieldTy.
Hypothesis identifiers_wellformed :
  ∀ Class, Forall identifier_ok (memberIdentifiers R Class).
Variable rank : string → nat.
Hypothesis rank_bases :
  ∀ Class Parent, Parent ∈ bases_of R Class → rank Parent < rank Class.

Lemma save_runs_flatten {A} `{!OutputArchive A Value} Class
    (v : Object Value) fuel (ar ar' : A) log :
  hierarchy_accepted R Class →
  conforms R Class v →
  frames R (rank Class) Class ≤ fuel →
  run_nvps ar (flatten R Class v) = Some ar' →
  ∃ ws, save R fuel Class [] (mkWorld ar v log) = Done ws
        ∧ w_ar ws = ar' ∧ w_obj ws = v.
Proof.
  intros Hacc Hconf Hfuel Hrun.
  destruct (accepted_instance R _ (hierarchy_accepted_self R _ Hacc))
    as [d Hd].
  destruct (hierarchy_accepted_self R _ Hacc) as [_ Hpos].
  destruct (proj1 (save_total R identifiers_wellformed rank rank_bases fuel)
              Class 0 [] (mkWorld ar v log) v ar' Hacc eq_refl Hconf
              Hpos ltac:(done) ltac:(lia)
              ltac:(cbn [Nat.eqb w_ar]; by rewrite drop_0, <- flatten_unfold))
    as [ws Hws].
  exists ws. unfold save. rewrite Hd. cbn [Outcome_bind].
  split; [done|].
  apply (proj1 (save_characterised R identifiers_wellformed fuel)) in Hws
    as (o & Ho & Hobj & _ & _ & Hrun' & _).
  cbn [Nat.eqb w_ar w_obj subobject] in Ho, Hobj, Hrun'.
  injection Ho as <-. rewrite drop_0, <- flatten_unfold, Hrun in Hrun'.
  split; congruence.
Qed.

Lemma load_runs_unflatten {A} `{!InputArchive A Value FieldTy} Class
    (v0 o' : Object Value) fuel (ar ar' : A) log :
  hierarchy_accepted R Class →
  frames R (rank Class) Class ≤ fuel →
  unflatten R Class v0 ar = Some (ar', o') →
  ∃ wl, load R fuel Class [] (mkWorld ar v0 log) = Done wl
        ∧ w_ar wl = ar' ∧ w_obj wl = o'.
Proof.
  intros Hacc Hfuel Hload.
  destruct (accepted_instance R _ (hierarchy_accepted_self R _ Hacc))
    as [d Hd].
  destruct (hierarchy_accepted_self R _ Hacc) as [_ Hpos].
  rewrite unflatten_unfold in Hload.
  destruct (unflatten_bases R (bases_of R Class) (obj_bases v0) ar)
    as [[ar1 bs']|] eqn:Hun; [|done].
  destruct (load_fields _ (obj_fields v0) ar1) as [[ar2 fs']|] eqn:Hlf;
    [|done].
  injection Hload as -> <-.
  destruct (proj1 (load_total R identifiers_wellformed rank rank_bases fuel)
              Class 0 [] (mkWorld ar v0 log) v0 ar1 bs' ar' fs'
              Hacc eq_refl Hpos ltac:(done) ltac:(lia) Hun
              ltac:(by rewrite !drop_0))
    as [wl Hwl].
  exists wl. unfold load. rewrite Hd. cbn [Outcome_bind]. split; [done|].
  apply (proj1 (load_characterised R identifiers_wellformed fuel)) in Hwl
    as (o & a1 & bs1 & fs1 & Ho & _ & Hun' & Hlf' & Hput & _).
  cbn [Nat.eqb w_ar w_obj subobject take app put_subobject] in *.
  injection Ho as <-. rewrite !drop_0 in Hlf'.
  rewrite Hun in Hun'. injection Hun' as <- <-.
  rewrite Hlf in Hlf'. injection Hlf' as <- <-.
  split; [done|]. rewrite take_0 in Hput. simpl in Hput. congruence.
Qed.
End HelpersRunTheLoops.

(** ** Counting what was written *)

Lemma occurrences_of_app t ts1 ts2 :
  occurrences_of t (ts1 ++ ts2) = occurrences_of t ts1 + occurrences_of t ts2.
Proof. unfold occurrences_of. by rewrite filter_app, length_app. Qed.

Lemma occurrences_of_cons t t' ts :
  occurrences_of t (t' :: ts)
  = (if decide (t' = t) then 1 else 0) + occurrences_of t ts.
Proof.
  unfold occurrences_of. rewrite filter_cons. by destruct (decide (t' = t)).
Qed.

Lemma occurrences_of_nil t : occurrences_of t [] = 0.
Proof. done. Qed.

Lemma occurrences_of_absent t ts : t ∉ ts → occurrences_of t ts = 0.
Proof.
  induction ts as [|t' ts IH]; [done|].
  rewrite not_elem_of_cons, occurrences_of_cons. intros [Hne Hts].
  rewrite decide_False by done. by rewrite IH.
Qed.

Lemma pointers_to_snoc a nvps name v :
  pointers_to a (nvps ++ [(name, v)])
  = pointers_to a nvps + (if decide (v = VShared (Some a)) then 1 else 0).
Proof.
  unfold pointers_to. rewrite filter_app, length_app. f_equal.
  rewrite filter_cons. cbn [snd]. by destruct (decide (v = VShared (Some a))).
Qed.

Lemma encode_plain f name v data t :
  encode f name v = Some data → pointer_token t → t ∉ data.
Proof.
  intros He Ht. destruct v as [z|s|p]; [| |done]; destruct f;
    injection He as <-; rewrite !not_elem_of_cons;
    (repeat split; [by destruct t..|apply not_elem_of_nil]).
Qed.

Lemma node_starts_plain f name t : pointer_token t → t ∉ node_starts f name.
Proof.
  intros Ht. destruct f; cbn [node_starts]; rewrite ?not_elem_of_cons;
    (repeat split; [by destruct t..|apply not_elem_of_nil])
    || apply not_elem_of_nil.
Qed.

Lemma node_ends_plain f t : pointer_token t → t ∉ node_ends f.
Proof.
  intros Ht. destruct f; cbn [node_ends]; rewrite ?not_elem_of_cons;
    (repeat split; [by destruct t..|apply not_elem_of_nil])
    || apply not_elem_of_nil.
Qed.

Lemma occurrences_of_pointer_node f name body t :
  pointer_token t →
  occurrences_of t (pointer_node f name body) = occurrences_of t body.
Proof.
  intros Ht. unfold pointer_node. rewrite !occurrences_of_app.
  rewrite (occurrences_of_absent _ _ (node_starts_plain f name t Ht)).
  rewrite (occurrences_of_absent _ _ (node_ends_plain f t Ht)). lia.
Qed.

Lemma counted_plain out nvps name v ts :
  counted out nvps →
  (∀ t, pointer_token t → t ∉ ts) →
  (∀ a, v ≠ VShared (Some a)) →
  counted (mkTrackingOutput (out_stream out ++ ts) (out_registry out)
             (out_memory out))
    (nvps ++ [(name, v)]).
Proof.
  intros (Hcnt & Hhigh & Hinj & Hok) Hts Hv.
  split; [|split; [|done]]; cbn [out_stream out_registry].
  - intros a. specialize (Hcnt a). rewrite pointers_to_snoc.
    rewrite decide_False by apply Hv.
    destruct (out_registry out !! a) as [id|]; [|lia].
    rewrite !occurrences_of_app.
    rewrite !(occurrences_of_absent _ ts) by (by apply Hts). lia.
  - intros id Hid. destruct (Hhigh id Hid) as [H1 H2].
    rewrite !occurrences_of_app.
    rewrite !(occurrences_of_absent _ ts) by (by apply Hts). lia.
Qed.

Lemma counted_step f out nvps name v out' :
  counted out nvps →
  @ar_nvp _ _ (tracking_nvp f) out name v = Some out' →
  counted out' (nvps ++ [(name, v)]).
Proof.
  intros Hc Hput. unfold ar_nvp, tracking_nvp in Hput.
  assert (Hscalar : ∀ ts,
    encode f name v = Some ts → (∀ a, v ≠ VShared (Some a)) →
    counted (mkTrackingOutput (out_stream out ++ ts) (out_registry out)
               (out_memory out)) (nvps ++ [(name, v)])).
  { intros ts He Hv. apply counted_plain; [done| |done].
    intros t Ht. by eapply encode_plain. }
  destruct v as [z|s|[a|]].
  - destruct (encode f name (VInt z)) as [ts|] eqn:He; [|done].
    injection Hput as <-. by apply Hscalar.
  - destruct (encode f name (VString s)) as [ts|] eqn:He; [|done].
    injection Hput as <-. by apply Hscalar.
  - destruct Hc as (Hcnt & Hhigh & Hinj & Hok).
    destruct (out_registry out !! a) as [id|] eqn:Hid.
    + (* met before: a back-reference *)
      injection Hput as <-.
      split; [|split; [|done]]; cbn [out_stream out_registry].
      * intros b. specialize (Hcnt b). rewrite pointers_to_snoc.
        destruct (out_registry out !! b) as [idb|] eqn:Hb.
        -- rewrite !occurrences_of_app, !occurrences_of_pointer_node by done.
           rewrite !occurrences_of_cons, !occurrences_of_nil.
           rewrite (decide_False (P := TokBack id = TokFirst idb)) by done.
           destruct (decide (a = b)) as [->|Hab].
           ++ assert (idb = id) as -> by congruence.
              rewrite !decide_True by done. lia.
           ++ rewrite !decide_False by (intros [= ->]; eauto). lia.
        -- rewrite decide_False by congruence. lia.
      * intros id' Hid'. destruct (Hhigh id' Hid') as [H1 H2].
        apply Hok in Hid.
        rewrite !occurrences_of_app, !occurrences_of_pointer_node by done.
        rewrite !occurrences_of_cons, !occurrences_of_nil.
        rewrite (decide_False (P := TokBack id = TokFirst id')) by done.
        rewrite decide_False by (intros [= ->]; lia). lia.
    + (* met for the first time: the object in full *)
      destruct (out_memory out !! a) as [target|] eqn:Ha; [|done].
      destruct (encode f "data" target) as [data|] eqn:He; [|done].
      injection Hput as <-.
      assert (Hdata : ∀ t, pointer_token t → occurrences_of t data = 0).
      { intros t Ht. apply occurrences_of_absent. by eapply encode_plain. }
      assert (Hfresh : ∀ b idb, out_registry out !! b = Some idb →
                b ≠ a ∧ idb ≠ size (out_registry out)).
      { intros b idb Hb. split; [congruence|]. apply Hok in Hb. lia. }
      destruct (Hhigh (size (out_registry out)) ltac:(lia)) as [Hf0 Hb0].
      split; [|split; [|split]]; cbn [out_stream out_registry].
      * intros b. specialize (Hcnt b). rewrite pointers_to_snoc.
        destruct (decide (a = b)) as [->|Hab].
        -- rewrite lookup_insert_eq. rewrite Hid in Hcnt.
           rewrite !occurrences_of_app, !occurrences_of_pointer_node by done.
           rewrite !occurrences_of_cons, !Hdata by done.
           rewrite !decide_True by done.
           rewrite decide_False by done.
           rewrite decide_True by done. lia.
        -- rewrite lookup_insert_ne by done.
           destruct (out_registry out !! b) as [idb|] eqn:Hb.
           ++ destruct (Hfresh b idb Hb) as [_ Hne].
              rewrite !occurrences_of_app, !occurrences_of_pointer_node
                by done.
              rewrite !occurrences_of_cons, !Hdata by done.
              rewrite (decide_False (P := _ = TokFirst idb))
                by (intros [= <-]; done).
              rewrite (decide_False (P := _ = TokBack idb)) by done.
              rewrite decide_False by congruence. lia.
           ++ rewrite decide_False by congruence. lia.
      * intros id' Hid'. rewrite map_size_insert_None in Hid' by done.
        destruct (Hhigh id' ltac:(lia)) as [H1 H2].
        rewrite !occurrences_of_app, !occurrences_of_pointer_node by done.
        rewrite !occurrences_of_cons, !Hdata by done.
        rewrite (decide_False (P := _ = TokFirst id'))
          by (intros [= <-]; lia).
        rewrite decide_False by done. lia.
      * intros b c id'. rewrite !lookup_insert.
        repeat case_decide; subst; intros Hb' Hc'; simplify_eq; try done.
        -- by destruct (Hfresh c _ Hc').
        -- by destruct (Hfresh b _ Hb').
        -- by eapply Hinj.
      * intros b idb. cbn [out_registry].
        rewrite map_size_insert_None by done.
        destruct (decide (a = b)) as [->|Hne].
        -- rewrite lookup_insert_eq. intros [= <-]. lia.
        -- rewrite lookup_insert_ne by done. intros Hb%Hok. lia.
  - (* a null pointer *)
    injection Hput as <-. apply counted_plain; [done| |done].
    intros t Ht. unfold pointer_node. rewrite !not_elem_of_app.
    split; [by apply node_starts_plain|].
    split; [|by apply node_ends_plain].
    rewrite not_elem_of_cons. split; [by destruct t|apply not_elem_of_nil].
Qed.

Lemma counted_run f nvps' :
  ∀ out nvps out',
    counted out nvps →
    @run_nvps _ _ (tracking_nvp f) out nvps' = Some out' →
    counted out' (nvps ++ nvps').
Proof.
  induction nvps' as [|[name v] nvps' IH]; intros out nvps out' Hc Hrun.
  - injection Hrun as <-. by rewrite app_nil_r.
  - cbn [run_nvps] in Hrun.
    destruct (@ar_nvp _ _ (tracking_nvp f) out name v) as [out1|] eqn:Hput;
      [|done].
    rewrite (cons_middle _ nvps nvps'), app_assoc.
    eapply IH; [|done]. by eapply counted_step.
Qed.

Lemma counted_fresh memory : counted (mkTrackingOutput [] ∅ memory) [].
Proof.
  by repeat split.
Qed.

(** ** Two members are two of the values handed to the archive *)

Lemma pointers_to_app a nvps1 nvps2 :
  pointers_to a (nvps1 ++ nvps2) = pointers_to a nvps1 + pointers_to a nvps2.
Proof. unfold pointers_to. by rewrite filter_app, length_app. Qed.

Lemma pointers_to_cons a name v nvps :
  pointers_to a ((name, v) :: nvps)
  = (if decide (v = VShared (Some a)) then 1 else 0) + pointers_to a nvps.
Proof.
  unfold pointers_to. rewrite filter_cons. cbn [snd].
  by destruct (decide (v = VShared (Some a))).
Qed.

Lemma pointers_to_lookup a nvps k name :
  nvps !! k = Some (name, VShared (Some a)) → 1 ≤ pointers_to a nvps.
Proof.
  revert k. induction nvps as [|[n v] nvps IH]; intros [|k]; try done;
    rewrite pointers_to_cons; cbn [lookup list_lookup].
  - intros [= -> ->]. rewrite decide_True by done. lia.
  - intros Hk%IH. lia.
Qed.

Lemma pointers_to_lookup2 a nvps k1 k2 name1 name2 :
  k1 ≠ k2 →
  nvps !! k1 = Some (name1, VShared (Some a)) →
  nvps !! k2 = Some (name2, VShared (Some a)) →
  2 ≤ pointers_to a nvps.
Proof.
  revert k1 k2. induction nvps as [|[n v] nvps IH]; intros [|k1] [|k2];
    try done; rewrite pointers_to_cons; cbn [lookup list_lookup].
  - intros _ [= -> ->] Hk%pointers_to_lookup.
    rewrite decide_True by done. lia.
  - intros _ Hk%pointers_to_lookup [= -> ->].
    rewrite decide_True by done. lia.
  - intros Hne H1 H2. assert (k1 ≠ k2) by lia.
    pose proof (IH k1 k2 ltac:(done) H1 H2). lia.
Qed.

Section MembersAmongValues.
Variable R : Reflection CppType.
Variable a : nat.

Lemma conforms_bases_lookup cs (bs : list (Object CppValue)) k b :
  conforms_bases R cs bs → bs !! k = Some b →
  ∃ c, cs !! k = Some c ∧ conforms R c b.
Proof.
  revert cs k. induction bs as [|b' bs IH]; intros [|c cs] [|k]; simpl;
    try done.
  - intros [Hc _] [= ->]. eauto.
  - intros [_ Hcs] Hk. by apply IH.
Qed.

Lemma pointers_to_flatten_bases cs (bs : list (Object CppValue)) k c b :
  cs !! k = Some c → bs !! k = Some b →
  pointers_to a (flatten R c b) ≤ pointers_to a (flatten_bases R cs bs).
Proof.
  revert bs k. induction cs as [|c' cs IH]; intros [|b' bs] [|k]; try done;
    cbn [lookup list_lookup flatten_bases]; rewrite pointers_to_app.
  - intros [= ->] [= ->]. lia.
  - intros Hc Hb. pose proof (IH bs k Hc Hb). lia.
Qed.

Lemma pointers_to_flatten_bases2 cs (bs : list (Object CppValue))
    k1 k2 c1 c2 b1 b2 :
  k1 ≠ k2 →
  cs !! k1 = Some c1 → bs !! k1 = Some b1 →
  cs !! k2 = Some c2 → bs !! k2 = Some b2 →
  pointers_to a (flatten R c1 b1) + pointers_to a (flatten R c2 b2)
  ≤ pointers_to a (flatten_bases R cs bs).
Proof.
  revert bs k1 k2. induction cs as [|c' cs IH]; intros [|b' bs] [|k1] [|k2];
    try done; cbn [lookup list_lookup flatten_bases];
    rewrite pointers_to_app.
  - intros _ [= ->] [= ->] Hc Hb.
    pose proof (pointers_to_flatten_bases cs bs k2 _ _ Hc Hb). lia.
  - intros _ Hc Hb [= ->] [= ->].
    pose proof (pointers_to_flatten_bases cs bs k1 _ _ Hc Hb). lia.
  - intros Hne Hc1 Hb1 Hc2 Hb2. assert (k1 ≠ k2) by lia.
    pose proof (IH bs k1 k2 ltac:(done) Hc1 Hb1 Hc2 Hb2). lia.
Qed.

Lemma own_member_among_values Class (o : Object CppValue) index v :
  conforms R Class o → obj_fields o !! index = Some v →
  ∃ name,
    zip (memberIdentifiers R Class) (obj_fields o) !! index = Some (name, v).
Proof.
  rewrite conforms_unfold. intros [_ Hlen] Hv.
  destruct (lookup_lt_is_Some_2 (memberIdentifiers R Class) index)
    as [name Hname].
  { unfold memberIdentifiers. rewrite length_fmap, <- Hlen.
    by eapply lookup_lt_Some. }
  exists name. apply lookup_zip_with_Some. eauto.
Qed.

Lemma member_among_values (o : Object CppValue) :
  ∀ Class instance index,
    conforms R Class o →
    field_at instance index o = Some (VShared (Some a)) →
    1 ≤ pointers_to a (flatten R Class o).
Proof.
  induction o as [bases fields IH] using Object_ind.
  intros Class [|k instance] index Hconf;
    rewrite flatten_unfold, pointers_to_app.
  - rewrite field_at_nil. intros Hv.
    destruct (own_member_among_values _ _ _ _ Hconf Hv) as [name Hz].
    apply pointers_to_lookup in Hz. lia.
  - rewrite field_at_cons. cbn [obj_bases].
    destruct (bases !! k) as [b|] eqn:Hk; [|done]. intros Hv.
    apply conforms_unfold in Hconf as [Hcs _].
    destruct (conforms_bases_lookup _ _ _ _ Hcs Hk) as (c & Hc & Hcb).
    pose proof (proj1 (Forall_lookup _ _) IH k b Hk c instance index Hcb Hv).
    pose proof (pointers_to_flatten_bases _ _ _ _ _ Hc Hk). lia.
Qed.

Lemma two_members_among_values (o : Object CppValue) :
  ∀ Class instance1 index1 instance2 index2,
    conforms R Class o →
    (instance1, index1) ≠ (instance2, index2) →
    field_at instance1 index1 o = Some (VShared (Some a)) →
    field_at instance2 index2 o = Some (VShared (Some a)) →
    2 ≤ pointers_to a (flatten R Class o).
Proof.
  induction o as [bases fields IH] using Object_ind.
  intros Class [|k1 instance1] index1 [|k2 instance2] index2 Hconf Hne;
    rewrite flatten_unfold, pointers_to_app, ?field_at_nil, ?field_at_cons;
    cbn [obj_bases obj_fields]; intros H1 H2.
  - (* two members of the class itself *)
    destruct (own_member_among_values _ _ _ _ Hconf H1) as [name1 Hz1].
    destruct (own_member_among_values _ _ _ _ Hconf H2) as [name2 Hz2].
    cbn [obj_fields] in Hz1, Hz2.
    assert (index1 ≠ index2) by congruence.
    pose proof (pointers_to_lookup2 _ _ _ _ _ _ ltac:(done) Hz1 Hz2). lia.
  - (* one of the class, one inherited *)
    destruct (own_member_among_values _ _ _ _ Hconf H1) as [name1 Hz1].
    cbn [obj_fields] in Hz1. apply pointers_to_lookup in Hz1.
    destruct (bases !! k2) as [b|] eqn:Hk; [|done].
    apply conforms_unfold in Hconf as [Hcs _].
    destruct (conforms_bases_lookup _ _ _ _ Hcs Hk) as (c & Hc & Hcb).
    pose proof (member_among_values b c _ _ Hcb H2).
    pose proof (pointers_to_flatten_bases _ _ _ _ _ Hc Hk). lia.
  - destruct (own_member_among_values _ _ _ _ Hconf H2) as [name2 Hz2].
    cbn [obj_fields] in Hz2. apply pointers_to_lookup in Hz2.
    destruct (bases !! k1) as [b|] eqn:Hk; [|done].
    apply conforms_unfold in Hconf as [Hcs _].
    destruct (conforms_bases_lookup _ _ _ _ Hcs Hk) as (c & Hc & Hcb).
    pose proof (member_among_values b c _ _ Hcb H1).
    pose proof (pointers_to_flatten_bases _ _ _ _ _ Hc Hk). lia.
  - (* both inherited *)
    destruct (bases !! k1) as [b1|] eqn:Hk1; [|done].
    destruct (bases !! k2) as [b2|] eqn:Hk2; [|done].
    apply conforms_unfold in Hconf as [Hcs _].
    destruct (conforms_bases_lookup _ _ _ _ Hcs Hk1) as (c1 & Hc1 & Hcb1).
    destruct (conforms_bases_lookup _ _ _ _ Hcs Hk2) as (c2 & Hc2 & Hcb2).
    destruct (decide (k1 = k2)) as [->|Hk].
    + assert (b2 = b1) as -> by congruence.
      assert (c2 = c1) as -> by congruence.
      assert ((instance1, index1) ≠ (instance2, index2)) by congruence.
      pose proof (proj1 (Forall_lookup _ _) IH k2 b1 Hk1 c1 _ _ _ _
                    Hcb1 ltac:(done) H1 H2).
      pose proof (pointers_to_flatten_bases _ _ _ _ _ Hc1 Hk1). lia.
    + pose proof (member_among_values b1 c1 _ _ Hcb1 H1).
      pose proof (member_among_values b2 c2 _ _ Hcb2 H2).
      pose proof (pointers_to_flatten_bases2 _ _ _ _ _ _ _ _ Hk
                    Hc1 Hk1 Hc2 Hk2). lia.
Qed.
End MembersAmongValues.

Lemma registry_ok_fresh memory : registry_ok (mkTrackingOutput [] ∅ memory).
Proof. intros a id. cbn [out_registry]. by rewrite lookup_empty. Qed.

Lemma linked_fresh memory inp : linked (mkTrackingOutput [] ∅ memory) inp.
Proof. intros a id. cbn [out_registry]. by rewrite lookup_empty. Qed.

Lemma restored_value_pointer ids ptrs a x :
  restored_value ids ptrs (VShared (Some a)) = Some x →
  ∃ id a', ids !! a = Some id ∧ ptrs !! id = Some a'
           ∧ x = VShared (Some a').
Proof.
  cbn [restored_value]. destruct (ids !! a) as [id|]; [|done].
  destruct (ptrs !! id) as [a'|] eqn:Hptr; [|done].
  intros [= <-]. eauto.
Qed.

Section SharedReferenceClaim.
Variable f : Format.
Variable memory : list CppValue.
Variable R : Reflection CppType.
Hypothesis identifiers_wellformed :
  ∀ Class, Forall identifier_ok (memberIdentifiers R Class).
Variable rank : string → nat.
Hypothesis rank_bases :
  ∀ Class Parent, Parent ∈ bases_of R Class → rank Parent < rank Class.

Variables (Class : TypeId) (v v0 : Object CppValue) (fuel : nat).
Hypothesis Class_accepted : hierarchy_accepted R Class.
Hypothesis v_typed : well_typed R (tracked_typed memory) Class v.
Hypothesis v0_conforms : conforms R Class v0.
Hypothesis enough_fuel : frames R (rank Class) Class ≤ fuel.

(** Two members of [v], own or inherited, point to the object at [a]. *)
Variables (instance1 instance2 : Path) (index1 index2 a : nat).
Hypothesis first_member :
  field_at instance1 index1 v = Some (VShared (Some a)).
Hypothesis second_member :
  field_at instance2 index2 v = Some (VShared (Some a)).

(** C9.  Save [v] to a fresh archive that tracks shared references: the
    save returns, the object at [a] has an id, its first-occurrence token
    stands on the stream once, and of all the pointers to it handed to
    the archive every other one is a back-reference, at least one when
    the two members are not the same member.  Load [v0] from a
    fresh archive on what was written, whatever the memory holds by then:
    the load returns, the two members point to one address, the object
    there is the one that was at [a], and an assignment through the first
    member is read through the second. *)
Theorem shared_reference_identity :
  ∃ ws id,
    save (oar := tracking_nvp f) R fuel Class []
      (mkWorld (mkTrackingOutput [] ∅ memory) v []) = Done ws
    ∧ w_obj ws = v
    ∧ out_registry (w_ar ws) !! a = Some id
    ∧ occurrences_of (TokFirst id) (out_stream (w_ar ws)) = 1
    ∧ occurrences_of (TokBack id) (out_stream (w_ar ws)) + 1
      = pointers_to a (flatten R Class v)
    ∧ ((instance1, index1) ≠ (instance2, index2) →
       1 ≤ occurrences_of (TokBack id) (out_stream (w_ar ws)))
    ∧ ∀ memory0, ∃ wl a',
        load (iar := tracking_ref f) R fuel Class []
          (mkWorld (mkTrackingInput (out_stream (w_ar ws)) ∅ memory0) v0 [])
        = Done wl
        ∧ field_at instance1 index1 (w_obj wl) = Some (VShared (Some a'))
        ∧ field_at instance2 index2 (w_obj wl) = Some (VShared (Some a'))
        ∧ is_Some (memory !! a)
        ∧ in_memory (w_ar wl) !! a' = memory !! a
        ∧ ∀ x y new,
            field_at instance1 index1 (w_obj wl) = Some x →
            field_at instance2 index2 (w_obj wl) = Some y →
            ∃ memory',
              assign_pointee (in_memory (w_ar wl)) x new = Some memory'
              ∧ pointee memory' y = Some new.
Proof.
  destruct (tracking_object_round_trip f memory R v Class
              (mkTrackingOutput [] ∅ memory) v_typed eq_refl
              (registry_ok_fresh memory))
    as (enc & out' & Hrun & (Hstream & Hmem & Hok) & Hread).
  cbn [out_stream out_memory app] in Hstream, Hmem.
  pose proof (well_typed_conforms R _ v Class v_typed) as Hconf.
  destruct (save_runs_flatten R identifiers_wellformed rank rank_bases
              Class v fuel _ _ [] Class_accepted Hconf enough_fuel Hrun)
    as (ws & Hsave & Har & Hobj).
  pose proof (counted_run f _ _ [] _ (counted_fresh memory) Hrun)
    as (Hcnt & _). cbn [app] in Hcnt. specialize (Hcnt a).
  (* what a reader gets, whatever the memory it starts from *)
  assert (Hback : ∀ memory0, ∃ inp' o' id a' target,
    unflatten R (iar := tracking_ref f) Class v0
      (mkTrackingInput enc ∅ memory0) = Some (inp', o')
    ∧ out_registry out' !! a = Some id
    ∧ field_at instance1 index1 o' = Some (VShared (Some a'))
    ∧ field_at instance2 index2 o' = Some (VShared (Some a'))
    ∧ in_memory inp' !! a' = Some target
    ∧ memory !! a = Some target).
  { intros memory0.
    destruct (Hread v0 v0_conforms (mkTrackingInput enc ∅ memory0) []
                (linked_fresh memory _) ltac:(by rewrite app_nil_r))
      as (inp' & o' & Hun & _ & Hlinked & Hres & _).
    destruct (Hres _ _ _ first_member) as (x & Hx & Hrx).
    destruct (Hres _ _ _ second_member) as (y & Hy & Hry).
    apply restored_value_pointer in Hrx as (id & a' & Hid & Hptr & ->).
    apply restored_value_pointer in Hry as (id2 & a2 & Hid2 & Hptr2 & ->).
    assert (id2 = id) as -> by congruence.
    assert (a2 = a') as -> by congruence.
    destruct (Hlinked a id Hid) as (a3 & target & Hptr3 & Ht & Hsrc).
    assert (a3 = a') as -> by congruence.
    exists inp', o', id, a', target. by rewrite <- Hmem. }
  destruct (Hback []) as (_ & _ & id & _ & _ & _ & Hid & _).
  rewrite Hid, Hstream in Hcnt. destruct Hcnt as [Hfirst Hbacks].
  exists ws, id. rewrite Har, Hstream.
  split; [done|]. split; [done|]. split; [done|]. split; [done|].
  split; [done|]. split.
  { intros Hne.
    pose proof (two_members_among_values R a v Class _ _ _ _ Hconf Hne
                  first_member second_member). lia. }
  intros memory0.
  destruct (Hback memory0)
    as (inp' & o' & _ & a' & target & Hun & _ & Hx & Hy & Ht & Hsrc).
  destruct (load_runs_unflatten R identifiers_wellformed rank rank_bases
              Class v0 o' fuel _ _ [] Class_accepted enough_fuel Hun)
    as (wl & Hload & Harl & Hobjl).
  exists wl, a'. rewrite Harl, Hobjl.
  split; [done|]. split; [done|]. split; [done|].
  split; [by rewrite Hsrc|]. split; [by rewrite Hsrc|].
  intros x y new. rewrite Hx, Hy. intros [= <-] [= <-].
  exists (<[a' := new]> (in_memory inp')). cbn [assign_pointee pointee].
  apply lookup_lt_Some in Ht.
  rewrite decide_True by done. split; [done|].
  by apply list_lookup_insert_eq.
Qed.
End SharedReferenceClaim.

Lemma Sharers_accepted : hierarchy_accepted exampleClasses "Sharers".
Proof.
  intros Ancestor Hrtc. inversion Hrtc as [|? Base ? Hbase _]; subst.
  - split; [by vm_compute|vm_compute; lia].
  - vm_compute in Hbase. by apply elem_of_nil in Hbase.
Qed.

(** [Sharers] with both members pointing to the string "womble", through
    JSON: the string is written once, under id 0, the second member as a
    back-reference to id 0; loaded into a default-constructed [Sharers]
    with an empty memory, both members point to address 0, where "womble"
    is. *)
Lemma shared_reference_identity_witness :
  (hierarchy_accepted exampleClasses "Sharers"
   ∧ well_typed exampleClasses (tracked_typed [VString "womble"]) "Sharers"
       sharers
   ∧ conforms exampleClasses "Sharers" sharers0
   ∧ frames exampleClasses (exampleRank "Sharers") "Sharers" ≤ 2
   ∧ field_at [] 0 sharers = Some (VShared (Some 0))
   ∧ field_at [] 1 sharers = Some (VShared (Some 0)))
  ∧ (do ws <- save (oar := tracking_nvp JSON) exampleClasses 2 "Sharers" []
                (mkWorld (mkTrackingOutput [] ∅ [VString "womble"])
                   sharers []);
     Done (out_stream (w_ar ws)))
    = Done [TokName "first"; TokStart; TokFirst 0;
            TokName "data"; TokStr "womble"; TokEnd;
            TokName "second"; TokStart; TokBack 0; TokEnd]
  ∧ (do wl <- load (iar := tracking_ref JSON) exampleClasses 2 "Sharers" []
                (mkWorld
                   (mkTrackingInput
                      [TokName "first"; TokStart; TokFirst 0;
                       TokName "data"; TokStr "womble"; TokEnd;
                       TokName "second"; TokStart; TokBack 0; TokEnd]
                      ∅ [])
                   sharers0 []);
     Done (w_obj wl, in_memory (w_ar wl)))
    = Done (mkObject [] [VShared (Some 0); VShared (Some 0)],
            [VString "womble"])
  ∧ ∃ ws id,
      save (oar := tracking_nvp JSON) exampleClasses 2 "Sharers" []
        (mkWorld (mkTrackingOutput [] ∅ [VString "womble"]) sharers [])
      = Done ws
      ∧ w_obj ws = sharers
      ∧ out_registry (w_ar ws) !! 0 = Some id
      ∧ occurrences_of (TokFirst id) (out_stream (w_ar ws)) = 1
      ∧ occurrences_of (TokBack id) (out_stream (w_ar ws)) + 1
        = pointers_to 0 (flatten exampleClasses "Sharers" sharers)
      ∧ ((([] : Path), 0) ≠ ([], 1) →
         1 ≤ occurrences_of (TokBack id) (out_stream (w_ar ws)))
      ∧ ∀ memory0, ∃ wl a',
          load (iar := tracking_ref JSON) exampleClasses 2 "Sharers" []
            (mkWorld (mkTrackingInput (out_stream (w_ar ws)) ∅ memory0)
               sharers0 [])
          = Done wl
          ∧ field_at [] 0 (w_obj wl) = Some (VShared (Some a'))
          ∧ field_at [] 1 (w_obj wl) = Some (VShared (Some a'))
          ∧ is_Some ([VString "womble"] !! 0)
          ∧ in_memory (w_ar wl) !! a' = [VString "womble"] !! 0
          ∧ ∀ x y new,
              field_at [] 0 (w_obj wl) = Some x →
              field_at [] 1 (w_obj wl) = Some y →
              ∃ memory',
                assign_pointee (in_memory (w_ar wl)) x new = Some memory'
                ∧ pointee memory' y = Some new.
Proof.
  assert (Htyped : well_typed exampleClasses (tracked_typed [VString "womble"])
                     "Sharers" sharers).
  { split; [exact I|].
    repeat constructor; by exists (VString "womble"). }
  assert (Hconf : conforms exampleClasses "Sharers" sharers0).
  { split; [exact I|reflexivity]. }
  assert (Hfuel : frames exampleClasses (exampleRank "Sharers") "Sharers" ≤ 2).
  { vm_compute. lia. }
  split.
  { exact (conj Sharers_accepted (conj Htyped (conj Hconf
             (conj Hfuel (conj eq_refl eq_refl))))). }
  split; [reflexivity|]. split; [reflexivity|].
  exact (shared_reference_identity JSON [VString "womble"] exampleClasses
           exampleClasses_identifiers exampleRank exampleRank_bases
           "Sharers" sharers sharers0 2 Sharers_accepted Htyped Hconf Hfuel
           [] [] 0 1 0 eq_refl eq_refl).
Defined.

(** * Further properties of the header *)

(** ** The name table and the descriptor's accessors *)

Lemma length_nameRow s :
  String.length s < MAX_IDENTIFIER_LENGTH →
  length (nameRow s) = MAX_IDENTIFIER_LENGTH.
Proof.
  intros Hs. rewrite (nameRow_shape s Hs).
  rewrite length_app, length_replicate, length_list_ascii_of_string. lia.
Qed.

(** X1.  The table that [classMemberNames] returns has
    [MAX_CLASS_MEMBERS] rows of [MAX_IDENTIFIER_LENGTH] characters; row
    [i] holds the identifier of member [i] in full, followed by NUL up to
    the end of the row, at least one; every row from the member count on
    is NUL throughout, and there are at least two of them, so that the
    constructor's loop meets a row that starts with NUL inside the
    table. *)
Theorem classMemberNames_table members names :
  classMemberNames members = Some names →
  length names = MAX_CLASS_MEMBERS
  ∧ Forall (λ row, length row = MAX_IDENTIFIER_LENGTH) names
  ∧ (∀ i s, members !! i = Some s →
       String.length s < MAX_IDENTIFIER_LENGTH
       ∧ names !! i
         = Some (list_ascii_of_string s
                   ++ replicate (MAX_IDENTIFIER_LENGTH - String.length s) NUL))
  ∧ (∀ i, length members ≤ i < MAX_CLASS_MEMBERS →
       names !! i = Some (replicate MAX_IDENTIFIER_LENGTH NUL))
  ∧ length members + 2 ≤ MAX_CLASS_MEMBERS.
Proof.
  rewrite classMemberNames_spec.
  destruct (decide (length members < MAX_CLASS_MEMBERS - 1)) as [Hn|]; [|done].
  destruct (decide (Forall _ members)) as [Hlen|]; [|done].
  intros [= <-]. split; [|split; [|split; [|split]]].
  - rewrite length_app, length_fmap, length_replicate. lia.
  - apply Forall_app. split.
    + apply Forall_fmap. eapply Forall_impl; [exact Hlen|].
      intros s Hs. by apply length_nameRow.
    + apply Forall_replicate. apply length_replicate.
  - intros i s Hi.
    pose proof (proj1 (Forall_lookup _ _) Hlen i s Hi) as Hs.
    cbv beta in Hs.
    split; [done|].
    rewrite lookup_app_l by (rewrite length_fmap; by eapply lookup_lt_Some).
    rewrite list_lookup_fmap, Hi. cbn [fmap option_fmap option_map].
    rewrite (nameRow_shape s Hs). do 2 f_equal.
    replace (S (MAX_IDENTIFIER_LENGTH - S (String.length s)))
      with (MAX_IDENTIFIER_LENGTH - String.length s) by lia. done.
  - intros i [Hi1 Hi2].
    rewrite lookup_app_r by (by rewrite length_fmap).
    rewrite length_fmap. apply lookup_replicate_2. lia.
  - lia.
Qed.

(** [struct Pleh { int foo; std::string bar; };] of the core tests. *)
Lemma classMemberNames_table_witness :
  classMemberNames ["foo"; "bar"]%string
  = Some ((nameRow <$> ["foo"; "bar"]%string) ++ replicate 254 zeroRow)
  ∧ length ((nameRow <$> ["foo"; "bar"]%string) ++ replicate 254 zeroRow)
    = MAX_CLASS_MEMBERS
  ∧ ((nameRow <$> ["foo"; "bar"]%string) ++ replicate 254 zeroRow) !! 1
    = Some (list_ascii_of_string "bar"
              ++ replicate (MAX_IDENTIFIER_LENGTH - String.length "bar") NUL).
Proof.
  assert (H : classMemberNames ["foo"; "bar"]%string
              = Some ((nameRow <$> ["foo"; "bar"]%string)
                        ++ replicate 254 zeroRow))
    by (vm_compute; reflexivity).
  split; [exact H|].
  pose proof (classMemberNames_table _ _ H) as (Hlen & _ & Hrow & _).
  split; [exact Hlen|]. exact (proj2 (Hrow 1 "bar"%string eq_refl)).
Defined.

Section DescriptorAccessors.
Context {FieldTy : Type}.
Variable R : Reflection FieldTy.

(** X2.  A descriptor that the constructor has built for a class whose
    members have identifiers answers [memberAtIndex] with the declared
    identifier of the member for every ordinal below [memberCount], holds
    no name at or beyond [memberCount], holds fewer than
    [MAX_CLASS_MEMBERS - 1] names, each shorter than
    [MAX_IDENTIFIER_LENGTH], and answers [baseCount] with the number of
    direct bases. *)
Theorem descriptor_accessors Class d :
  ClassSingleton_ctor R Class = Some d →
  Forall identifier_ok (memberIdentifiers R Class) →
  memberCount d < MAX_CLASS_MEMBERS - 1
  ∧ length (getMemberNames d) = memberCount d
  ∧ (∀ index, index < memberCount d →
       ∃ m, nonstatic_data_members_of R Class !! index = Some m
            ∧ memberAtIndex d index = Some (identifier_of m)
            ∧ String.length (identifier_of m) < MAX_IDENTIFIER_LENGTH)
  ∧ (∀ index, memberCount d ≤ index → memberAtIndex d index = None)
  ∧ baseCount d = length (bases_of R Class).
Proof.
  intros Hd Hok. pose proof (ClassSingleton_ctor_spec R Class) as Hspec.
  cbv zeta in Hspec.
  destruct (decide (length (memberIdentifiers R Class)
                    < MAX_CLASS_MEMBERS - 1)) as [Hn|]; [|congruence].
  destruct (decide (Forall _ (memberIdentifiers R Class))) as [Hlen|];
    [|congruence].
  destruct Hspec as (d' & Hd' & _ & Hmc & Hbc & _ & Hnames).
  assert (d' = d) as -> by congruence.
  specialize (Hnames Hok). unfold memberAtIndex. fold (getMemberNames d).
  rewrite Hnames, Hmc. unfold memberIdentifiers in *.
  rewrite length_fmap in *.
  split; [done|]. split; [done|]. split; [|split; [|done]].
  - intros index Hi.
    destruct (lookup_lt_is_Some_2 _ _ Hi) as [m Hm]. exists m.
    split; [done|]. rewrite list_lookup_fmap, Hm. split; [done|].
    apply (proj1 (Forall_lookup _ _) Hlen index).
    by rewrite list_lookup_fmap, Hm.
  - intros index Hi. apply lookup_ge_None_2. by rewrite length_fmap.
Qed.

(** X3.  Descriptors are built on demand and do not depend on the order
    of the look-ups: a run of look-ups that starts with no static
    initialised fails exactly when the constructor fails for one of the
    requested classes; otherwise every look-up returns what the
    constructor builds for its class, the statics initialised at the end
    are those of the requested classes and no others, and any other run
    that requests the same classes ends with the same statics. *)
Theorem descriptors_on_demand requests :
  (lookups R requests ∅ = None
   ↔ Exists (λ Class, ClassSingleton_ctor R Class = None) requests)
  ∧ ∀ ds statics,
      lookups R requests ∅ = Some (ds, statics) →
      Forall2 (λ Class d, ClassSingleton_ctor R Class = Some d) requests ds
      ∧ (∀ Class,
           statics !! Class
           = if decide (Class ∈ requests) then ClassSingleton_ctor R Class
             else None)
      ∧ ∀ requests' ds' statics',
          (∀ Class, Class ∈ requests ↔ Class ∈ requests') →
          lookups R requests' ∅ = Some (ds', statics') →
          statics' = statics.
Proof.
  (* from any statics that hold only what the constructor builds *)
  assert (Hfail : ∀ requests (statics : gmap string ClassSingleton),
    (∀ C d, statics !! C = Some d → ClassSingleton_ctor R C = Some d) →
    lookups R requests statics = None
    ↔ Exists (λ Class, ClassSingleton_ctor R Class = None) requests).
  { clear requests. intros requests.
    induction requests as [|C requests IH]; intros statics Hcons.
    - simpl. split; [done|]. by intros ?%Exists_nil.
    - cbn [lookups]. unfold instance. rewrite Exists_cons.
      destruct (statics !! C) as [d|] eqn:HC.
      + rewrite (Hcons _ _ HC) in *.
        destruct (lookups R requests statics) as [[ds s']|] eqn:Hl.
        * split; [done|]. intros [|HE]; [done|].
          apply (IH statics Hcons) in HE. congruence.
        * split; [|done]. intros _. right. by apply (IH statics Hcons).
      + destruct (ClassSingleton_ctor R C) as [d|] eqn:Hd; [|by split; eauto].
        assert (Hcons' : ∀ C' d', <[C := d]> statics !! C' = Some d' →
                  ClassSingleton_ctor R C' = Some d').
        { intros C' d'. rewrite lookup_insert. case_decide; subst.
          - by intros [= <-].
          - apply Hcons. }
        destruct (lookups R requests (<[C := d]> statics)) as [[ds s']|] eqn:Hl.
        * split; [done|]. intros [|HE]; [done|].
          apply (IH _ Hcons') in HE. congruence.
        * split; [|done]. intros _. right. by apply (IH _ Hcons'). }
  assert (Hok : ∀ requests (statics : gmap string ClassSingleton) ds statics',
    (∀ C d, statics !! C = Some d → ClassSingleton_ctor R C = Some d) →
    lookups R requests statics = Some (ds, statics') →
    Forall2 (λ Class d, ClassSingleton_ctor R Class = Some d) requests ds
    ∧ ∀ Class,
        statics' !! Class
        = if decide (Class ∈ requests) then ClassSingleton_ctor R Class
          else statics !! Class).
  { clear requests. intros requests.
    induction requests as [|C requests IH]; intros statics ds statics' Hcons.
    - cbn [lookups]. intros [= <- <-]. split; [constructor|].
      intros Class. rewrite decide_False; [done|]. apply not_elem_of_nil.
    - cbn [lookups]. unfold instance.
      destruct (statics !! C) as [d|] eqn:HC.
      + destruct (lookups R requests statics) as [[ds1 s']|] eqn:Hl; [|done].
        intros [= <- <-].
        destruct (IH _ _ _ Hcons Hl) as [HF Hs'].
        split; [constructor; [by apply Hcons|done]|].
        intros Class. rewrite Hs'.
        destruct (decide (Class ∈ requests)) as [Hin|Hnin].
        * rewrite decide_True; [done|]. by apply list_elem_of_further.
        * destruct (decide (Class = C)) as [->|Hne].
          -- rewrite decide_True by apply list_elem_of_here.
             rewrite HC. symmetry. by apply Hcons.
          -- rewrite decide_False; [done|].
             rewrite elem_of_cons. by intros [|].
      + destruct (ClassSingleton_ctor R C) as [d|] eqn:Hd; [|done].
        assert (Hcons' : ∀ C' d', <[C := d]> statics !! C' = Some d' →
                  ClassSingleton_ctor R C' = Some d').
        { intros C' d'. rewrite lookup_insert. case_decide; subst.
          - by intros [= <-].
          - apply Hcons. }
        destruct (lookups R requests (<[C := d]> statics)) as [[ds1 s']|]
          eqn:Hl; [|done].
        intros [= <- <-].
        destruct (IH _ _ _ Hcons' Hl) as [HF Hs'].
        split; [by constructor|].
        intros Class. rewrite Hs'.
        destruct (decide (Class ∈ requests)) as [Hin|Hnin].
        * rewrite decide_True; [done|]. by apply list_elem_of_further.
        * destruct (decide (Class = C)) as [->|Hne].
          -- rewrite decide_True by apply list_elem_of_here.
             by rewrite lookup_insert_eq.
          -- rewrite decide_False
               by (rewrite elem_of_cons; by intros [|]).
             by rewrite lookup_insert_ne. }
  split; [by apply Hfail|].
  intros ds statics Hl.
  destruct (Hok requests ∅ ds statics ltac:(intros C d; by rewrite lookup_empty) Hl) as [HF Hs].
  split; [done|]. split.
  { intros Class. rewrite Hs. by case_decide. }
  intros requests' ds' statics' Hsame Hl'.
  destruct (Hok requests' ∅ ds' statics' ltac:(intros C d; by rewrite lookup_empty) Hl')
    as [_ Hs'].
  apply map_eq. intros Class. rewrite Hs, Hs'.
  destruct (decide (Class ∈ requests)) as [Hin|Hnin].
  - rewrite decide_True; [done|]. by apply Hsame.
  - rewrite decide_False; [done|]. by rewrite <- Hsame.
Qed.
End DescriptorAccessors.

(** [SerialPleh]: two names, in declaration order, and no base. *)
Lemma descriptor_accessors_witness :
  ∃ d, ClassSingleton_ctor exampleClasses "SerialPleh" = Some d
       ∧ memberAtIndex d 0 = Some "foo"%string
       ∧ memberAtIndex d 1 = Some "bar"%string
       ∧ memberAtIndex d 2 = None
       ∧ (memberCount d < MAX_CLASS_MEMBERS - 1
          ∧ length (getMemberNames d) = memberCount d
          ∧ (∀ index, index < memberCount d →
               ∃ m, nonstatic_data_members_of exampleClasses "SerialPleh"
                      !! index = Some m
                    ∧ memberAtIndex d index = Some (identifier_of m)
                    ∧ String.length (identifier_of m) < MAX_IDENTIFIER_LENGTH)
          ∧ (∀ index, memberCount d ≤ index → memberAtIndex d index = None)
          ∧ baseCount d = length (bases_of exampleClasses "SerialPleh")).
Proof.
  destruct (ClassSingleton_ctor exampleClasses "SerialPleh") as [d|] eqn:Hd;
    [|by vm_compute in Hd].
  exists d. split; [done|].
  assert (Hnames : d = mkClassSingleton "SerialPleh" 2 0 []
                         ["foo"; "bar"]%string)
    by (vm_compute in Hd; congruence).
  split; [by rewrite Hnames|]. split; [by rewrite Hnames|].
  split; [by rewrite Hnames|].
  exact (descriptor_accessors exampleClasses "SerialPleh" d Hd
           (exampleClasses_identifiers "SerialPleh")).
Defined.

(** ** The member accessors *)

Lemma assign_field_at {Value} instance index (v : Value) :
  ∀ o o',
    assign instance index v o = Some o' →
    field_at instance index o' = Some v
    ∧ ∀ instance' index',
        (instance', index') ≠ (instance, index) →
        field_at instance' index' o' = field_at instance' index' o.
Proof.
  induction instance as [|k instance IH]; intros o o'; cbn [assign].
  - destruct (decide (index < length (obj_fields o))) as [Hi|]; [|done].
    intros [= <-]. split.
    + rewrite field_at_nil. cbn [obj_fields].
      by apply list_lookup_insert_eq.
    + intros [|k' instance'] index' Hne.
      * rewrite !field_at_nil. cbn [obj_fields].
        apply list_lookup_insert_ne. congruence.
      * by rewrite !field_at_cons.
  - destruct (obj_bases o !! k) as [b|] eqn:Hk; [|done].
    destruct (assign instance index v b) as [b'|] eqn:Hb; [|done].
    intros [= <-]. destruct (IH _ _ Hb) as [Hv Hother].
    pose proof (lookup_lt_Some _ _ _ Hk) as Hlt. split.
    + rewrite field_at_cons. cbn [obj_bases].
      by rewrite list_lookup_insert_eq.
    + intros [|k' instance'] index' Hne.
      * by rewrite !field_at_nil.
      * rewrite !field_at_cons. cbn [obj_bases].
        destruct (decide (k' = k)) as [->|Hk'].
        -- rewrite list_lookup_insert_eq, Hk by done.
           apply Hother. congruence.
        -- by rewrite list_lookup_insert_ne.
Qed.

Section Accessors.
Context {Value FieldTy A : Type}.

(** X4.  The reference that [member_ref] returns designates the member
    that [member_ref_const] reads: both accessors leave the archive and
    the object alone and see the same value; after an assignment through
    the reference [member_ref_const] returns the assigned value, and
    every other member of the object, in whatever sub-object, holds what
    it held before. *)
Theorem member_ref_designates_the_member (info : Info FieldTy) instance
    (w : World A Value) ref w1 :
  member_ref info instance w = Done (ref, w1) →
  w_ar w1 = w_ar w ∧ w_obj w1 = w_obj w
  ∧ (∃ v w2,
       deref ref (w_obj w) = Some v
       ∧ member_ref_const info instance w = Done (v, w2)
       ∧ w_ar w2 = w_ar w ∧ w_obj w2 = w_obj w)
  ∧ ∀ new, ∃ obj' w3,
      assign (ref_instance ref) (ref_index ref) new (w_obj w) = Some obj'
      ∧ member_ref_const info instance (mkWorld (w_ar w) obj' (w_log w))
        = Done (new, w3)
      ∧ ∀ instance' index',
          (instance', index') ≠ (instance, info_index info) →
          field_at instance' index' obj'
          = field_at instance' index' (w_obj w).
Proof.
  unfold member_ref, member_ref_const, deref.
  destruct (subobject instance (w_obj w)) as [o|] eqn:Ho; [|done].
  destruct (decide (info_index info < length (obj_fields o))) as [Hi|];
    [|done].
  intros [= <- <-]. cbn [w_ar w_obj ref_instance ref_index].
  rewrite Ho. destruct (lookup_lt_is_Some_2 _ _ Hi) as [v Hv]. rewrite Hv.
  split; [done|]. split; [done|]. split; [by eauto 10|].
  intros new.
  destruct (assign instance (info_index info) new (w_obj w)) as [obj'|]
    eqn:Ha.
  - destruct (assign_field_at _ _ _ _ _ Ha) as [Hnew Hother].
    unfold field_at in Hnew. exists obj'. cbn [w_ar w_obj w_log].
    destruct (subobject instance obj') as [o'|]; [|done].
    rewrite Hnew. eauto 10.
  - rewrite assign_put_subobject, Ho, decide_True in Ha by done.
    destruct (put_subobject_is_Some instance
                (mkObject (obj_bases o)
                   (<[info_index info := new]> (obj_fields o)))
                (w_obj w) o Ho) as [? ?].
    congruence.
Qed.
End Accessors.

(** The core test [MemberRef]: member 1 of [Pleh {1, "PLEH!"}]. *)
Lemma member_ref_designates_the_member_witness :
  member_ref (mkInfo 1 (mkMember "bar" TString)) []
    (mkWorld ([] : list Tok) pleh [])
  = Done (mkFieldRef [] 1, mkWorld [] pleh [MutableAccess [] 1])
  ∧ deref (mkFieldRef [] 1) pleh = Some (VString "PLEH!")
  ∧ ∃ v w2,
      deref (mkFieldRef [] 1) (w_obj (mkWorld ([] : list Tok) pleh []))
      = Some v
      ∧ member_ref_const (mkInfo 1 (mkMember "bar" TString)) []
          (mkWorld ([] : list Tok) pleh []) = Done (v, w2)
      ∧ w_ar w2 = w_ar (mkWorld ([] : list Tok) pleh [])
      ∧ w_obj w2 = w_obj (mkWorld ([] : list Tok) pleh []).
Proof.
  split; [reflexivity|]. split; [reflexivity|].
  exact (proj1 (proj2 (proj2
    (member_ref_designates_the_member
       (mkInfo 1 (mkMember "bar" TString)) []
       (mkWorld ([] : list Tok) pleh []) _ _ eq_refl)))).
Defined.

(** ** What a save does, whether or not the archive takes every value *)

Section SaveExactly.
Context {Value FieldTy : Type}.
Variable R : Reflection FieldTy.
Hypothesis identifiers_wellformed :
  ∀ Class, Forall identifier_ok (memberIdentifiers R Class).
Variable rank : string → nat.
Hypothesis rank_bases :
  ∀ Class Parent, Parent ∈ bases_of R Class → rank Parent < rank Class.

Lemma save_rejected {A} `{!OutputArchive A Value} fuel :
  (∀ Class index instance (w : World A Value) o,
     hierarchy_accepted R Class →
     subobject instance (w_obj w) = Some o →
     conforms R Class o →
     index < length (nonstatic_data_members_of R Class) →
     (index = 0 → frames R (rank Class) Class ≤ fuel) →
     (0 < index → length (nonstatic_data_members_of R Class) ≤ fuel + index) →
     run_nvps (w_ar w)
       ((if index =? 0
         then flatten_bases R (bases_of R Class) (obj_bases o) else [])
        ++ drop index (zip (memberIdentifiers R Class) (obj_fields o)))
     = None →
     saveHelper R fuel Class index instance w = Failed EArchive)
  ∧ (∀ Class index instance (w : World A Value) o r,
       hierarchy_accepted R Class →
       rank Class ≤ S r →
       subobject instance (w_obj w) = Some o →
       conforms_bases R (drop index (bases_of R Class))
         (drop index (obj_bases o)) →
       index < length (bases_of R Class) →
       parentFrames (frames R r) (drop index (bases_of R Class)) ≤ fuel →
       run_nvps (w_ar w)
         (flatten_bases R (drop index (bases_of R Class))
            (drop index (obj_bases o))) = None →
       saveParents R fuel Class index instance w = Failed EArchive).
Proof.
  induction fuel as [|fuel [IHh IHp]].
  { split.
    - intros Class index instance w o _ _ _ Hidx H0 H1 _. exfalso.
      destruct index; [|lia].
      pose proof (frames_members R (rank Class) Class). lia.
    - intros Class index instance w o r _ _ _ _ Hidx Hf _. exfalso.
      destruct (lookup_lt_is_Some_2 _ _ Hidx) as [P HP].
      rewrite (drop_S _ _ _ HP) in Hf. simpl in Hf. lia. }
  split.
  - (* saveHelper *)
    intros Class index instance w o Hacc Ho Hconf Hidx Hf0 Hf1 Hrun.
    destruct (accepted_instance R _ (hierarchy_accepted_self R _ Hacc))
      as [d Hd].
    destruct (ClassSingleton_instance_Done R identifiers_wellformed _ _ Hd)
      as (Hmc & Hbc & Hb & Hn).
    destruct (hierarchy_accepted_self R _ Hacc) as [_ Hpos].
    pose proof Hconf as Hconf0.
    apply conforms_unfold in Hconf as [Hcb Hlen].
    rewrite saveHelper_S, Hd. cbn [Outcome_bind]. rewrite Hmc, Hbc.
    rewrite (proj2 (Nat.ltb_lt _ _) Hpos), (proj2 (Nat.ltb_lt _ _) Hidx).
    cbn [negb]. rewrite run_nvps_app in Hrun.
    (* the bases *)
    assert (Hpar :
      (if index =? 0 then
         if 0 <? length (bases_of R Class)
         then saveParents R fuel Class 0 instance w else Done w
       else Done w) = Failed EArchive
      ∨ ∃ w1 ar1,
          (if index =? 0 then
             if 0 <? length (bases_of R Class)
             then saveParents R fuel Class 0 instance w else Done w
           else Done w) = Done w1
          ∧ w_obj w1 = w_obj w ∧ w_ar w1 = ar1
          ∧ run_nvps ar1
              (drop index (zip (memberIdentifiers R Class) (obj_fields o)))
            = None).
    { destruct (index =? 0) eqn:Hz.
      - apply Nat.eqb_eq in Hz. subst index.
        destruct (0 <? length (bases_of R Class)) eqn:Hbs.
        + apply Nat.ltb_lt in Hbs.
          destruct (lookup_lt_is_Some_2 _ _ Hbs) as [P HP].
          assert (HPin : P ∈ bases_of R Class)
            by (by eapply list_elem_of_lookup_2).
          pose proof (rank_bases _ _ HPin) as Hrk.
          destruct (rank Class) as [|r] eqn:Hr; [lia|].
          pose proof (frames_parents R r Class) as Hfp.
          specialize (Hf0 eq_refl).
          destruct (run_nvps (w_ar w)
                      (flatten_bases R (bases_of R Class) (obj_bases o)))
            as [ar1|] eqn:Hrun1.
          * right.
            destruct (proj2 (save_total R identifiers_wellformed rank
                               rank_bases fuel)
                        Class 0 instance w o ar1 r Hacc ltac:(lia) Ho
                        ltac:(by rewrite !drop_0) Hbs
                        ltac:(rewrite drop_0; lia)
                        ltac:(by rewrite !drop_0)) as [w1 Hw1].
            exists w1, ar1. split; [done|].
            apply (proj2 (save_characterised R identifiers_wellformed fuel))
              in Hw1 as (o' & Ho' & Hobj & _ & _ & Hrun' & _).
            rewrite !drop_0 in Hrun'.
            assert (o' = o) as -> by congruence.
            split; [done|]. split; [congruence|done].
          * left.
            apply (IHp Class 0 instance w o r Hacc ltac:(lia) Ho
                     ltac:(by rewrite !drop_0) Hbs
                     ltac:(rewrite drop_0; lia)
                     ltac:(by rewrite !drop_0)).
        + apply Nat.ltb_ge in Hbs.
          assert (bases_of R Class = []) as Hnil
            by (destruct (bases_of R Class); [done|simpl in *; lia]).
          rewrite Hnil in Hrun. cbn [flatten_bases run_nvps] in Hrun.
          right. by exists w, (w_ar w).
      - cbn [run_nvps] in Hrun. right. by exists w, (w_ar w). }
    destruct Hpar as [-> | (w1 & ar1 & -> & Hobj1 & Har1 & Hrun2)]; [done|].
    cbn [Outcome_bind].
    (* the member at [index] *)
    destruct (lookup_lt_is_Some_2 (nonstatic_data_members_of R Class) index Hidx)
      as [m Hm].
    unfold member_info. rewrite Hm. cbn [Outcome_bind].
    unfold member_ref_const. cbn [info_index]. rewrite Hobj1, Ho.
    destruct (lookup_lt_is_Some_2 (obj_fields o) index ltac:(lia)) as [v Hv].
    rewrite Hv. cbn [Outcome_bind fst snd].
    assert (Hname : memberIdentifiers R Class !! index = Some (identifier_of m))
      by (unfold memberIdentifiers; by rewrite list_lookup_fmap, Hm).
    rewrite Hn, Hname. cbn [orFail Outcome_bind].
    rewrite (drop_S _ _ _ (zip_lookup_Some _ _ _ _ _ Hname Hv)) in Hrun2.
    cbn [run_nvps] in Hrun2.
    unfold ar_make_nvp. cbn [w_ar w_obj w_log]. rewrite Har1.
    destruct (ar_nvp ar1 (identifier_of m) v) as [ar2|] eqn:Har2; [|done].
    cbn [Outcome_bind].
    destruct (index + 1 <? _) eqn:Hnext.
    + apply Nat.ltb_lt in Hnext.
      apply (IHh Class (index + 1) instance _ o Hacc).
      * cbn [w_obj]. congruence.
      * done.
      * done.
      * lia.
      * intros _. destruct index.
        -- pose proof (frames_members R (rank Class) Class).
           specialize (Hf0 eq_refl). lia.
        -- specialize (Hf1 ltac:(lia)). lia.
      * cbn [w_ar]. replace (index + 1) with (S index) by lia. done.
    + apply Nat.ltb_ge in Hnext.
      rewrite drop_zip_ge in Hrun2; [done|].
      unfold memberIdentifiers. rewrite length_fmap. lia.
  - (* saveParents *)
    intros Class index instance w o r Hacc Hrk Ho Hcb Hidx Hf Hrun.
    destruct (accepted_instance R _ (hierarchy_accepted_self R _ Hacc))
      as [d Hd].
    destruct (ClassSingleton_instance_Done R identifiers_wellformed _ _ Hd)
      as (Hmc & Hbc & Hb & Hn).
    destruct (lookup_lt_is_Some_2 _ _ Hidx) as [Parent HP].
    assert (HPin : Parent ∈ bases_of R Class)
      by (by eapply list_elem_of_lookup_2).
    pose proof (hierarchy_accepted_base R _ _ Hacc HPin) as HaccP.
    destruct (accepted_instance R _ (hierarchy_accepted_self R _ HaccP))
      as [dP HdP].
    destruct (conforms_bases_drop R _ _ _ _ HP Hcb) as (b & Hbk & HconfP & Hcb').
    rewrite (drop_S _ _ _ HP) in Hf, Hrun. rewrite (drop_S _ _ _ Hbk) in Hrun.
    cbn [parentFrames] in Hf. cbn [flatten_bases] in Hrun.
    rewrite run_nvps_app in Hrun.
    rewrite saveParents_S, Hd. cbn [Outcome_bind]. rewrite Hb, HP, Hbc.
    cbn [orFail Outcome_bind]. rewrite HdP. cbn [Outcome_bind].
    pose proof (rank_bases _ _ HPin) as HrkP.
    pose proof (frames_mono R (rank Parent) r Parent ltac:(lia)) as Hfm.
    destruct (hierarchy_accepted_self R _ HaccP) as [_ HposP].
    assert (HoP : subobject (static_cast instance index) (w_obj w) = Some b)
      by (apply subobject_static_cast; eauto).
    destruct (run_nvps (w_ar w) (flatten R Parent b)) as [ar1|] eqn:Hrun1.
    + destruct (proj1 (save_total R identifiers_wellformed rank rank_bases
                         fuel)
                  Parent 0 (static_cast instance index) w b ar1 HaccP
                  HoP HconfP HposP ltac:(lia) ltac:(lia)
                  ltac:(cbn [Nat.eqb]; by rewrite drop_0, <- flatten_unfold))
        as [w1 Hw1].
      rewrite Hw1. cbn [Outcome_bind].
      apply (proj1 (save_characterised R identifiers_wellformed fuel))
        in Hw1 as (b' & Hb' & Hobj & _ & _ & Hrun' & _).
      cbn [Nat.eqb] in Hrun'. rewrite drop_0, <- flatten_unfold in Hrun'.
      assert (b' = b) as -> by congruence.
      assert (w_ar w1 = ar1) as Har1 by congruence.
      destruct (index + 1 <? _) eqn:Hnext.
      * apply Nat.ltb_lt in Hnext.
        replace (index + 1) with (S index) in * by lia.
        apply (IHp Class (S index) instance w1 o r Hacc Hrk); try done.
        -- congruence.
        -- lia.
        -- congruence.
      * apply Nat.ltb_ge in Hnext.
        rewrite (drop_ge (bases_of R Class)) in Hrun by lia.
        by cbn [flatten_bases run_nvps] in Hrun.
    + rewrite (proj1 (conj (IHh Parent 0 (static_cast instance index) w b
                              HaccP HoP HconfP HposP ltac:(lia) ltac:(lia)
                              ltac:(cbn [Nat.eqb];
                                    by rewrite drop_0, <- flatten_unfold))
                         I)).
      done.
Qed.

(** X5.  For a class whose hierarchy is accepted and an object with the
    layout of the class, a save with enough calls of stack is the two
    loops and nothing else: it hands the archive the members of the
    bases, base by base, and then its own, each under its name; when the
    archive takes them all the save returns with the archive as the last
    value left it, the object as it was and the members read in that
    order; when the archive rejects one, the save ends with the
    archive's failure, and with no other. *)
Theorem save_is_the_two_loops {A} `{!OutputArchive A Value} Class
    (o : Object Value) fuel (ar : A) log :
  hierarchy_accepted R Class →
  conforms R Class o →
  frames R (rank Class) Class ≤ fuel →
  save R fuel Class [] (mkWorld ar o log)
  = match run_nvps ar (flatten R Class o) with
    | Some ar' =>
        Done (mkWorld ar' o (log ++ visits R ConstAccess Class [] o))
    | None => Failed EArchive
    end.
Proof.
  intros Hacc Hconf Hfuel.
  destruct (accepted_instance R _ (hierarchy_accepted_self R _ Hacc))
    as [d Hd].
  destruct (hierarchy_accepted_self R _ Hacc) as [_ Hpos].
  unfold save. rewrite Hd. cbn [Outcome_bind].
  destruct (run_nvps ar (flatten R Class o)) as [ar'|] eqn:Hrun.
  - destruct (proj1 (save_total R identifiers_wellformed rank rank_bases
                       fuel)
                Class 0 [] (mkWorld ar o log) o ar' Hacc eq_refl Hconf
                Hpos ltac:(done) ltac:(lia)
                ltac:(cbn [Nat.eqb w_ar];
                      by rewrite drop_0, <- flatten_unfold))
      as [ws Hws].
    rewrite Hws.
    apply (proj1 (save_characterised R identifiers_wellformed fuel)) in Hws
      as (o' & Ho & Hobj & _ & _ & Hrun' & Hlog).
    cbn [Nat.eqb w_ar w_obj w_log subobject] in Ho, Hobj, Hrun', Hlog.
    injection Ho as <-.
    rewrite drop_0, <- flatten_unfold, Hrun in Hrun'.
    rewrite Nat.sub_0_r, <- visits_unfold in Hlog.
    destruct ws as [ar1 o1 log1]. cbn [w_ar w_obj w_log] in *.
    congruence.
  - apply (proj1 (save_rejected fuel) Class 0 [] (mkWorld ar o log) o
             Hacc eq_refl Hconf Hpos ltac:(done) ltac:(lia)).
    cbn [Nat.eqb w_ar]. by rewrite drop_0, <- flatten_unfold.
Qed.
End SaveExactly.

Lemma Child_accepted : hierarchy_accepted exampleClasses "Child".
Proof.
  assert (HP : accepted exampleClasses "Parent")
    by (split; [by vm_compute|vm_compute; lia]).
  assert (HC : accepted exampleClasses "Child")
    by (split; [by vm_compute|vm_compute; lia]).
  intros Ancestor Hrtc. inversion Hrtc as [|? Base ? Hbase Hrest]; subst;
    [done|].
  vm_compute in Hbase. apply list_elem_of_singleton in Hbase as ->.
  inversion Hrest as [|? Base ? Hbase _]; subst; [done|].
  vm_compute in Hbase. by apply elem_of_nil in Hbase.
Qed.

(** [Child {22, 42}] on an archive that keeps the calls it receives. *)
Lemma save_is_the_two_loops_witness :
  (hierarchy_accepted exampleClasses "Child"
   ∧ conforms exampleClasses "Child" child
   ∧ frames exampleClasses (exampleRank "Child") "Child" ≤ 3)
  ∧ save exampleClasses 3 "Child" [] (mkWorld [] child [])
    = match run_nvps [] (flatten exampleClasses "Child" child) with
      | Some ar' =>
          Done (mkWorld ar' child
                  ([] ++ visits exampleClasses ConstAccess "Child" [] child))
      | None => Failed EArchive
      end
  ∧ run_nvps [] (flatten exampleClasses "Child" child)
    = Some [("foo"%string, VInt 22); ("bar"%string, VInt 42)]
  ∧ visits exampleClasses ConstAccess "Child" [] child
    = [ConstAccess [0] 0; ConstAccess [] 0].
Proof.
  assert (Hconf : conforms exampleClasses "Child" child)
    by (repeat split).
  assert (Hfuel : frames exampleClasses (exampleRank "Child") "Child" ≤ 3)
    by (vm_compute; lia).
  split; [exact (conj Child_accepted (conj Hconf Hfuel))|].
  split; [|split; reflexivity].
  exact (save_is_the_two_loops exampleClasses exampleClasses_identifiers
           exampleRank exampleRank_bases "Child" child 3 [] []
           Child_accepted Hconf Hfuel).
Defined.

(** ** What a load does, whether or not the archive yields every value *)

Section LoadExactly.
Context {Value FieldTy : Type}.
Variable R : Reflection FieldTy.
Hypothesis identifiers_wellformed :
  ∀ Class, Forall identifier_ok (memberIdentifiers R Class).
Variable rank : string → nat.
Hypothesis rank_bases :
  ∀ Class Parent, Parent ∈ bases_of R Class → rank Parent < rank Class.

Lemma load_rejected {A} `{!InputArchive A Value FieldTy} fuel :
  (∀ Class index instance (w : World A Value) o,
     hierarchy_accepted R Class →
     subobject instance (w_obj w) = Some o →
     length (nonstatic_data_members_of R Class) ≤ length (obj_fields o) →
     (index = 0 → conforms_bases R (bases_of R Class) (obj_bases o)) →
     index < length (nonstatic_data_members_of R Class) →
     (index = 0 → frames R (rank Class) Class ≤ fuel) →
     (0 < index → length (nonstatic_data_members_of R Class) ≤ fuel + index) →
     match (if index =? 0
            then unflatten_bases R (bases_of R Class) (obj_bases o) (w_ar w)
            else Some (w_ar w, obj_bases o)) with
     | Some (ar1, _) =>
         load_fields
           (drop index (type_of <$> nonstatic_data_members_of R Class))
           (drop index (obj_fields o)) ar1
     | None => None
     end = None →
     loadHelper R fuel Class index instance w = Failed EArchive)
  ∧ (∀ Class index instance (w : World A Value) o r,
       hierarchy_accepted R Class →
       rank Class ≤ S r →
       subobject instance (w_obj w) = Some o →
       conforms_bases R (drop index (bases_of R Class))
         (drop index (obj_bases o)) →
       index < length (bases_of R Class) →
       parentFrames (frames R r) (drop index (bases_of R Class)) ≤ fuel →
       unflatten_bases R (drop index (bases_of R Class))
         (drop index (obj_bases o)) (w_ar w) = None →
       loadParents R fuel Class index instance w = Failed EArchive).
Proof.
  induction fuel as [|fuel [IHh IHp]].
  { split.
    - intros Class index instance w o _ _ _ _ Hidx H0 H1 _. exfalso.
      destruct index; [|lia].
      pose proof (frames_members R (rank Class) Class). lia.
    - intros Class index instance w o r _ _ _ _ Hidx Hf _. exfalso.
      destruct (lookup_lt_is_Some_2 _ _ Hidx) as [P HP].
      rewrite (drop_S _ _ _ HP) in Hf. simpl in Hf. lia. }
  split.
  - (* loadHelper *)
    intros Class index instance w o Hacc Ho Hlen Hcb Hidx Hf0 Hf1 Hfail.
    destruct (accepted_instance R _ (hierarchy_accepted_self R _ Hacc))
      as [d Hd].
    destruct (ClassSingleton_instance_counts R _ _ Hd) as (Hmc & Hbc & Hb).
    destruct (hierarchy_accepted_self R _ Hacc) as [_ Hpos].
    rewrite loadHelper_S, Hd. cbn [Outcome_bind]. rewrite Hmc, Hbc.
    rewrite (proj2 (Nat.ltb_lt _ _) Hpos), (proj2 (Nat.ltb_lt _ _) Hidx).
    cbn [negb].
    (* the bases *)
    assert (Hpar :
      (if index =? 0 then
         if 0 <? length (bases_of R Class)
         then loadParents R fuel Class 0 instance w else Done w
       else Done w) = Failed EArchive
      ∨ ∃ w1 o1 ar1,
          (if index =? 0 then
             if 0 <? length (bases_of R Class)
             then loadParents R fuel Class 0 instance w else Done w
           else Done w) = Done w1
          ∧ w_ar w1 = ar1
          ∧ subobject instance (w_obj w1) = Some o1
          ∧ obj_fields o1 = obj_fields o
          ∧ load_fields
              (drop index (type_of <$> nonstatic_data_members_of R Class))
              (drop index (obj_fields o)) ar1 = None).
    { destruct (index =? 0) eqn:Hz.
      - apply Nat.eqb_eq in Hz. subst index.
        destruct (0 <? length (bases_of R Class)) eqn:Hbs.
        + apply Nat.ltb_lt in Hbs.
          destruct (lookup_lt_is_Some_2 _ _ Hbs) as [P HP].
          assert (HPin : P ∈ bases_of R Class)
            by (by eapply list_elem_of_lookup_2).
          pose proof (rank_bases _ _ HPin) as Hrk.
          destruct (rank Class) as [|r] eqn:Hr; [lia|].
          pose proof (frames_parents R r Class) as Hfp.
          specialize (Hf0 eq_refl).
          destruct (unflatten_bases R (bases_of R Class) (obj_bases o)
                      (w_ar w)) as [[ar1 bs']|] eqn:Hun.
          * right.
            destruct (proj2 (load_total R identifiers_wellformed rank
                               rank_bases fuel)
                        Class 0 instance w o ar1 bs' r Hacc ltac:(lia) Ho
                        Hbs ltac:(rewrite drop_0; lia)
                        ltac:(by rewrite !drop_0)) as [w1 Hw1].
            apply (proj2 (load_characterised R identifiers_wellformed fuel))
              in Hw1 as Hch.
            destruct Hch as (o' & bs1 & Ho' & _ & Hun' & Hput & _).
            rewrite !drop_0 in Hun'. cbn [take app] in Hput.
            assert (o' = o) as -> by congruence.
            exists w1, (mkObject bs1 (obj_fields o)), ar1.
            split; [done|]. split; [congruence|].
            split; [by eapply put_subobject_lookup|done].
          * left.
            apply (IHp Class 0 instance w o r Hacc ltac:(lia) Ho
                     ltac:(rewrite !drop_0; by apply Hcb) Hbs
                     ltac:(rewrite drop_0; lia)
                     ltac:(by rewrite !drop_0)).
        + apply Nat.ltb_ge in Hbs.
          assert (bases_of R Class = []) as Hnil
            by (destruct (bases_of R Class); [done|simpl in *; lia]).
          rewrite Hnil, unflatten_bases_nil_l in Hfail.
          right. by exists w, o, (w_ar w).
      - right. by exists w, o, (w_ar w). }
    destruct Hpar as [-> | (w1 & o1 & ar1 & -> & Har1 & Ho1 & Hfo1 & Hfields)];
      [done|].
    cbn [Outcome_bind].
    (* the member at [index] *)
    destruct (lookup_lt_is_Some_2 (nonstatic_data_members_of R Class) index Hidx)
      as [m Hm].
    unfold member_info. rewrite Hm. cbn [Outcome_bind].
    destruct (lookup_lt_is_Some_2 (obj_fields o) index ltac:(lia))
      as [old Hold].
    rewrite (drop_S _ (type_of m) index) in Hfields
      by (by rewrite list_lookup_fmap, Hm).
    rewrite (drop_S _ _ _ Hold) in Hfields. cbn [load_fields] in Hfields.
    pose proof (lookup_lt_Some _ _ _ Hold) as Hlt.
    unfold member_ref. cbn [info_index]. rewrite Ho1, Hfo1.
    rewrite decide_True by done. cbn [Outcome_bind fst snd].
    unfold ar_load_ref, deref.
    cbn [w_ar w_obj w_log ref_instance ref_index info_member].
    rewrite Ho1, Hfo1, Hold, Har1.
    destruct (ar_ref ar1 (type_of m) old) as [[ar2 new]|] eqn:Har2; [|done].
    rewrite assign_put_subobject, Ho1, Hfo1. rewrite decide_True by done.
    destruct (put_subobject_is_Some instance
                (mkObject (obj_bases o1) (<[index := new]> (obj_fields o)))
                (w_obj w1) o1 Ho1) as [obj2 Hput].
    rewrite Hput. cbn [Outcome_bind].
    destruct (load_fields _ (drop (S index) (obj_fields o)) ar2)
      as [[ar3 news]|] eqn:Hrest; [done|].
    destruct (index + 1 <? _) eqn:Hnext.
    + apply Nat.ltb_lt in Hnext.
      replace (index + 1) with (S index) in * by lia.
      apply (IHh Class (S index) instance _
               (mkObject (obj_bases o1) (<[index := new]> (obj_fields o)))
               Hacc).
      * cbn [w_obj]. by eapply put_subobject_lookup.
      * cbn [obj_fields]. by rewrite length_insert.
      * done.
      * done.
      * lia.
      * intros _. destruct index.
        -- pose proof (frames_members R (rank Class) Class).
           specialize (Hf0 eq_refl). lia.
        -- specialize (Hf1 ltac:(lia)). lia.
      * cbn [Nat.eqb obj_fields w_ar]. by rewrite drop_insert_lt by lia.
    + apply Nat.ltb_ge in Hnext.
      rewrite drop_ge in Hrest by (rewrite length_fmap; lia).
      by rewrite load_fields_nil_l in Hrest.
  - (* loadParents *)
    intros Class index instance w o r Hacc Hrk Ho Hcb Hidx Hf Hun.
    destruct (accepted_instance R _ (hierarchy_accepted_self R _ Hacc))
      as [d Hd].
    destruct (ClassSingleton_instance_counts R _ _ Hd) as (Hmc & Hbc & Hb).
    destruct (lookup_lt_is_Some_2 _ _ Hidx) as [Parent HP].
    assert (HPin : Parent ∈ bases_of R Class)
      by (by eapply list_elem_of_lookup_2).
    pose proof (hierarchy_accepted_base R _ _ Hacc HPin) as HaccP.
    destruct (accepted_instance R _ (hierarchy_accepted_self R _ HaccP))
      as [dP HdP].
    destruct (conforms_bases_drop R _ _ _ _ HP Hcb)
      as (b & Hbk & HconfP & Hcb').
    rewrite (drop_S _ _ _ HP) in Hf, Hun. rewrite (drop_S _ _ _ Hbk) in Hun.
    cbn [parentFrames] in Hf. cbn [unflatten_bases] in Hun.
    rewrite loadParents_S, Hd. cbn [Outcome_bind]. rewrite Hb, HP, Hbc.
    cbn [orFail Outcome_bind]. rewrite HdP. cbn [Outcome_bind].
    pose proof (rank_bases _ _ HPin) as HrkP.
    pose proof (frames_mono R (rank Parent) r Parent ltac:(lia)) as Hfm.
    destruct (hierarchy_accepted_self R _ HaccP) as [_ HposP].
    assert (HoP : subobject (static_cast instance index) (w_obj w) = Some b)
      by (apply subobject_static_cast; eauto).
    apply conforms_unfold in HconfP as [HcbP HlenP].
    rewrite unflatten_unfold in Hun.
    destruct (unflatten_bases R (bases_of R Parent) (obj_bases b) (w_ar w))
      as [[arP bsP]|] eqn:HunPb.
    + destruct (load_fields _ (obj_fields b) arP) as [[arP' fsP]|] eqn:HlfP.
      * destruct (proj1 (load_total R identifiers_wellformed rank rank_bases
                           fuel)
                    Parent 0 (static_cast instance index) w b arP bsP arP'
                    fsP HaccP HoP HposP ltac:(lia) ltac:(lia) HunPb
                    ltac:(by rewrite !drop_0)) as [w1 Hw1].
        rewrite Hw1. cbn [Outcome_bind].
        apply (proj1 (load_characterised R identifiers_wellformed fuel))
          in Hw1 as (b0 & a1 & bs2 & fs2 & Hb0 & _ & Hpar & Hfs & Hput & _).
        cbn [Nat.eqb take app] in Hpar, Hput. rewrite !drop_0 in Hfs.
        assert (b0 = b) as -> by congruence.
        rewrite HunPb in Hpar. injection Hpar as <- <-.
        rewrite HlfP in Hfs. injection Hfs as Hw1ar <-.
        rewrite put_subobject_static_cast, Ho, Hbk in Hput.
        destruct (unflatten_bases R (drop (S index) (bases_of R Class))
                    (drop (S index) (obj_bases o)) arP')
          as [[ar' bs1]|] eqn:Hrest; [done|].
        destruct (index + 1 <? _) eqn:Hnext.
        -- apply Nat.ltb_lt in Hnext.
           replace (index + 1) with (S index) in * by lia.
           apply (IHp Class (S index) instance w1
                    (mkObject (<[index := mkObject bsP fsP]> (obj_bases o))
                       (obj_fields o)) r Hacc Hrk).
           ++ by eapply put_subobject_lookup.
           ++ cbn [obj_bases]. by rewrite drop_insert_lt by lia.
           ++ done.
           ++ lia.
           ++ cbn [obj_bases]. rewrite drop_insert_lt by lia.
              by rewrite <- Hw1ar.
        -- apply Nat.ltb_ge in Hnext.
           rewrite (drop_ge (bases_of R Class)) in Hrest by lia.
           by rewrite unflatten_bases_nil_l in Hrest.
      * rewrite (IHh Parent 0 (static_cast instance index) w b HaccP HoP
                   ltac:(lia) ltac:(done) HposP ltac:(lia) ltac:(lia));
          [done|].
        cbn [Nat.eqb]. by rewrite HunPb, !drop_0, HlfP.
    + rewrite (IHh Parent 0 (static_cast instance index) w b HaccP HoP
                 ltac:(lia) ltac:(done) HposP ltac:(lia) ltac:(lia));
        [done|].
      cbn [Nat.eqb]. by rewrite HunPb.
Qed.

(** X6.  For a class whose hierarchy is accepted and an object with the
    layout of the class, a load with enough calls of stack is the two
    loops and nothing else: the bases are loaded first, base by base, and
    then the own members, each from what the archive yields at that
    point; when the archive yields them all the load returns with the
    object so filled and the members visited in that order; when the
    archive rejects one, the load ends with the archive's failure, and
    with no other. *)
Theorem load_is_the_two_loops {A} `{!InputArchive A Value FieldTy} Class
    (o : Object Value) fuel (ar : A) log :
  hierarchy_accepted R Class →
  conforms R Class o →
  frames R (rank Class) Class ≤ fuel →
  load R fuel Class [] (mkWorld ar o log)
  = match unflatten R Class o ar with
    | Some (ar', o') =>
        Done (mkWorld ar' o' (log ++ visits R MutableAccess Class [] o))
    | None => Failed EArchive
    end.
Proof.
  intros Hacc Hconf Hfuel.
  destruct (accepted_instance R _ (hierarchy_accepted_self R _ Hacc))
    as [d Hd].
  destruct (hierarchy_accepted_self R _ Hacc) as [_ Hpos].
  apply conforms_unfold in Hconf as [Hcb Hlen].
  unfold load. rewrite Hd. cbn [Outcome_bind].
  rewrite unflatten_unfold.
  destruct (unflatten_bases R (bases_of R Class) (obj_bases o) ar)
    as [[ar1 bs']|] eqn:Hun.
  - destruct (load_fields _ (obj_fields o) ar1) as [[ar2 fs']|] eqn:Hlf.
    + destruct (proj1 (load_total R identifiers_wellformed rank rank_bases
                         fuel)
                  Class 0 [] (mkWorld ar o log) o ar1 bs' ar2 fs'
                  Hacc eq_refl Hpos ltac:(done) ltac:(lia) Hun
                  ltac:(by rewrite !drop_0))
        as [wl Hwl].
      rewrite Hwl.
      apply (proj1 (load_characterised R identifiers_wellformed fuel)) in Hwl
        as (o0 & a1 & bs1 & fs1 & Ho & _ & Hun' & Hlf' & Hput & Hlog).
      cbn [Nat.eqb w_ar w_obj w_log subobject take app put_subobject] in *.
      injection Ho as <-. rewrite !drop_0 in Hlf'.
      rewrite Hun in Hun'. injection Hun' as <- <-.
      rewrite Hlf in Hlf'. injection Hlf' as Har <-.
      rewrite take_0 in Hput. cbn [app] in Hput.
      rewrite Nat.sub_0_r, <- visits_unfold in Hlog.
      destruct wl as [ar3 o3 log3]. cbn [w_ar w_obj w_log] in *.
      congruence.
    + apply (proj1 (load_rejected fuel) Class 0 [] (mkWorld ar o log) o
               Hacc eq_refl ltac:(lia) ltac:(done) Hpos ltac:(done)
               ltac:(lia)).
      cbn [Nat.eqb w_ar]. by rewrite Hun, !drop_0, Hlf.
  - apply (proj1 (load_rejected fuel) Class 0 [] (mkWorld ar o log) o
             Hacc eq_refl ltac:(lia) ltac:(done) Hpos ltac:(done)
             ltac:(lia)).
    cbn [Nat.eqb w_ar]. by rewrite Hun.
Qed.
End LoadExactly.

(** A default-constructed [Child] loaded from two recorded values. *)
Lemma load_is_the_two_loops_witness :
  (hierarchy_accepted exampleClasses "Child"
   ∧ conforms exampleClasses "Child" child0
   ∧ frames exampleClasses (exampleRank "Child") "Child" ≤ 3)
  ∧ load exampleClasses 3 "Child" []
      (mkWorld [("foo"%string, VInt 22); ("bar"%string, VInt 42)] child0 [])
    = match unflatten exampleClasses "Child" child0
              [("foo"%string, VInt 22); ("bar"%string, VInt 42)] with
      | Some (ar', o') =>
          Done (mkWorld ar' o'
                  ([] ++ visits exampleClasses MutableAccess "Child" []
                           child0))
      | None => Failed EArchive
      end
  ∧ unflatten exampleClasses "Child" child0
      [("foo"%string, VInt 22); ("bar"%string, VInt 42)]
    = Some ([], child)
  ∧ load exampleClasses 3 "Child" []
      (mkWorld [("foo"%string, VInt 22)] child0 [])
    = Failed EArchive.
Proof.
  assert (Hconf : conforms exampleClasses "Child" child0)
    by (repeat split).
  assert (Hfuel : frames exampleClasses (exampleRank "Child") "Child" ≤ 3)
    by (vm_compute; lia).
  split; [exact (conj Child_accepted (conj Hconf Hfuel))|].
  split; [|split; reflexivity].
  exact (load_is_the_two_loops exampleClasses exampleClasses_identifiers
           exampleRank exampleRank_bases "Child" child0 3
           [("foo"%string, VInt 22); ("bar"%string, VInt 42)] []
           Child_accepted Hconf Hfuel).
Defined.

(** ** What depends on the class and what on the object *)

Lemma run_nvps_recorder {Value} (nvps ar : list (string * Value)) :
  run_nvps ar nvps = Some (ar ++ nvps).
Proof.
  revert ar. induction nvps as [|[name v] nvps IH]; intros ar.
  - by rewrite app_nil_r.
  - cbn [run_nvps]. unfold ar_nvp, recorder_nvp. rewrite IH.
    by rewrite <- app_assoc.
Qed.

Section ClassAndObject.
Context {Value FieldTy : Type}.
Variable R : Reflection FieldTy.

Lemma flatten_names (o1 : Object Value) :
  ∀ Class (o2 : Object Value),
    conforms R Class o1 → conforms R Class o2 →
    (flatten R Class o1).*1 = (flatten R Class o2).*1.
Proof.
  induction o1 as [bases1 fields1 IH] using Object_ind.
  intros Class o2. rewrite !conforms_unfold, !flatten_unfold.
  cbn [obj_bases obj_fields]. intros [Hcb1 Hl1] [Hcb2 Hl2].
  rewrite !fmap_app. f_equal.
  - revert Hcb1 Hcb2. generalize (bases_of R Class) (obj_bases o2).
    induction IH as [|b1 bases1 Hb1 _ IHb]; intros [|c cs] [|b2 bs2];
      simpl; try done.
    intros [Hc1 Hcs1] [Hc2 Hcs2]. rewrite !fmap_app.
    f_equal; [by apply Hb1|by apply IHb].
  - rewrite !fst_zip; [done|..]; unfold memberIdentifiers;
      rewrite length_fmap; lia.
Qed.

Lemma visits_shape mk (o1 : Object Value) :
  ∀ Class instance (o2 : Object Value),
    conforms R Class o1 → conforms R Class o2 →
    visits R mk Class instance o1 = visits R mk Class instance o2.
Proof.
  induction o1 as [bases1 fields1 IH] using Object_ind.
  intros Class instance o2. rewrite !conforms_unfold, !visits_unfold.
  cbn [obj_bases]. intros [Hcb1 _] [Hcb2 _]. f_equal.
  revert Hcb1 Hcb2. generalize 0 (bases_of R Class) (obj_bases o2).
  induction IH as [|b1 bases1 Hb1 _ IHb]; intros k [|c cs] [|b2 bs2];
    simpl; try done.
  intros [Hc1 Hcs1] [Hc2 Hcs2]. f_equal; [by apply Hb1|by apply IHb].
Qed.

Section Overwrite.
Context {A : Type} `{!InputArchive A Value FieldTy}.

(** The archive does not look at the value a member holds before it is
    loaded. *)
Hypothesis ignores_old :
  ∀ (ar : A) ty old old', ar_ref ar ty old = ar_ref ar ty old'.

Lemma load_fields_ignores_old tys :
  ∀ (olds1 olds2 : list Value) (ar : A),
    length olds1 = length tys → length olds2 = length tys →
    load_fields tys olds1 ar = load_fields tys olds2 ar.
Proof.
  induction tys as [|ty tys IH]; intros [|old1 olds1] [|old2 olds2] ar;
    simpl; try done.
  intros Hl1 Hl2. rewrite (ignores_old ar ty old1 old2).
  destruct (ar_ref ar ty old2) as [[ar1 new]|]; [|done].
  by rewrite (IH olds1 olds2 ar1) by lia.
Qed.

Lemma unflatten_ignores_old (o1 : Object Value) :
  ∀ Class (o2 : Object Value) (ar : A),
    conforms R Class o1 → conforms R Class o2 →
    unflatten R Class o1 ar = unflatten R Class o2 ar.
Proof.
  induction o1 as [bases1 fields1 IH] using Object_ind.
  intros Class o2 ar. rewrite !conforms_unfold, !unflatten_unfold.
  cbn [obj_bases obj_fields]. intros [Hcb1 Hl1] [Hcb2 Hl2].
  assert (Hbases :
    unflatten_bases R (bases_of R Class) bases1 ar
    = unflatten_bases R (bases_of R Class) (obj_bases o2) ar).
  { clear Hl1 Hl2. revert ar Hcb1 Hcb2.
    generalize (bases_of R Class) (obj_bases o2).
    induction IH as [|b1 bases1 Hb1 _ IHb]; intros [|c cs] [|b2 bs2] ar;
      simpl; try done.
    intros [Hc1 Hcs1] [Hc2 Hcs2]. rewrite (Hb1 c b2 ar Hc1 Hc2).
    destruct (unflatten R c b2 ar) as [[ar1 b']|]; [|done].
    by rewrite (IHb cs bs2 ar1 Hcs1 Hcs2). }
  rewrite Hbases.
  destruct (unflatten_bases R (bases_of R Class) (obj_bases o2) ar)
    as [[ar1 bs']|]; [|done].
  by rewrite (load_fields_ignores_old _ fields1 (obj_fields o2) ar1)
    by (by rewrite length_fmap).
Qed.
End Overwrite.
End ClassAndObject.

Section ClassAndObjectClaims.
Context {Value FieldTy : Type}.
Variable R : Reflection FieldTy.
Hypothesis identifiers_wellformed :
  ∀ Class, Forall identifier_ok (memberIdentifiers R Class).
Variable rank : string → nat.
Hypothesis rank_bases :
  ∀ Class Parent, Parent ∈ bases_of R Class → rank Parent < rank Class.
Variables (Class : TypeId) (o1 o2 : Object Value) (fuel : nat).
Hypothesis Class_accepted : hierarchy_accepted R Class.
Hypothesis o1_conforms : conforms R Class o1.
Hypothesis o2_conforms : conforms R Class o2.
Hypothesis enough_fuel : frames R (rank Class) Class ≤ fuel.

(** X7.  The names under which a save hands the members to the archive,
    their number and their order, are fixed by the class: saved to an
    archive that keeps the calls it receives, two objects of the class
    give the same sequence of names, and are read in the same order. *)
Theorem saved_names_are_fixed_by_the_class :
  ∃ w1 w2,
    save R fuel Class [] (mkWorld [] o1 []) = Done w1
    ∧ save R fuel Class [] (mkWorld [] o2 []) = Done w2
    ∧ (w_ar w1).*1 = (w_ar w2).*1
    ∧ w_log w1 = w_log w2.
Proof.
  destruct (save_runs_flatten R identifiers_wellformed rank rank_bases
              Class o1 fuel [] _ [] Class_accepted o1_conforms enough_fuel
              (run_nvps_recorder _ _)) as (w1 & Hw1 & Har1 & _).
  destruct (save_runs_flatten R identifiers_wellformed rank rank_bases
              Class o2 fuel [] _ [] Class_accepted o2_conforms enough_fuel
              (run_nvps_recorder _ _)) as (w2 & Hw2 & Har2 & _).
  exists w1, w2. split; [done|]. split; [done|].
  rewrite Har1, Har2. cbn [app].
  split; [by apply flatten_names|].
  unfold save in Hw1, Hw2.
  apply Outcome_bind_Done in Hw1 as (d1 & _ & Hw1).
  apply Outcome_bind_Done in Hw2 as (d2 & _ & Hw2).
  apply (proj1 (save_characterised R identifiers_wellformed fuel)) in Hw1
    as (o1' & Ho1 & _ & _ & _ & _ & Hlog1).
  apply (proj1 (save_characterised R identifiers_wellformed fuel)) in Hw2
    as (o2' & Ho2 & _ & _ & _ & _ & Hlog2).
  cbn [Nat.eqb w_obj w_log subobject app] in *.
  injection Ho1 as <-. injection Ho2 as <-.
  rewrite Nat.sub_0_r, <- visits_unfold in Hlog1, Hlog2.
  rewrite Hlog1, Hlog2. by apply visits_shape.
Qed.

(** X8.  A load leaves nothing of what the object held before: with an
    archive that does not look at the old value of a member, a load that
    returns for one object of the class returns for every other object
    of the class, started on the same archive, with the same loaded
    object and the same archive left. *)
Theorem load_overwrites_every_member {A} `{!InputArchive A Value FieldTy}
    (ar : A) log1 log2 w1 :
  (∀ (ar : A) ty old old', ar_ref ar ty old = ar_ref ar ty old') →
  load R fuel Class [] (mkWorld ar o1 log1) = Done w1 →
  ∃ w2, load R fuel Class [] (mkWorld ar o2 log2) = Done w2
        ∧ w_ar w2 = w_ar w1 ∧ w_obj w2 = w_obj w1.
Proof.
  intros Hign Hw1. unfold load in Hw1.
  apply Outcome_bind_Done in Hw1 as (d1 & _ & Hw1).
  apply (proj1 (load_characterised R identifiers_wellformed fuel)) in Hw1
    as (o & ar1 & bs' & fs' & Ho & _ & Hun & Hlf & Hput & _).
  cbn [Nat.eqb w_ar w_obj subobject take app put_subobject] in *.
  injection Ho as <-. rewrite !drop_0 in Hlf.
  rewrite take_0 in Hput. cbn [app] in Hput. injection Hput as Hobj.
  assert (Hunf : unflatten R Class o1 ar = Some (w_ar w1, w_obj w1)).
  { rewrite unflatten_unfold, Hun, Hlf. by rewrite Hobj. }
  rewrite (unflatten_ignores_old R Hign o1 Class o2 ar o1_conforms
             o2_conforms) in Hunf.
  destruct (load_runs_unflatten R identifiers_wellformed rank rank_bases
              Class o2 (w_obj w1) fuel ar (w_ar w1) log2 Class_accepted
              enough_fuel Hunf) as (w2 & Hw2 & Har2 & Hobj2).
  by exists w2.
Qed.
End ClassAndObjectClaims.

(** [Child {22, 42}] and a default-constructed [Child]: foo, then bar. *)
Lemma saved_names_are_fixed_by_the_class_witness :
  (hierarchy_accepted exampleClasses "Child"
   ∧ conforms exampleClasses "Child" child
   ∧ conforms exampleClasses "Child" child0
   ∧ frames exampleClasses (exampleRank "Child") "Child" ≤ 3)
  ∧ (do w <- save exampleClasses 3 "Child" [] (mkWorld [] child []);
     Done (w_ar w).*1)
    = Done ["foo"; "bar"]%string
  ∧ ∃ w1 w2,
      save exampleClasses 3 "Child" [] (mkWorld [] child []) = Done w1
      ∧ save exampleClasses 3 "Child" [] (mkWorld [] child0 []) = Done w2
      ∧ (w_ar w1).*1 = (w_ar w2).*1
      ∧ w_log w1 = w_log w2.
Proof.
  assert (Hc : conforms exampleClasses "Child" child) by (repeat split).
  assert (Hc0 : conforms exampleClasses "Child" child0) by (repeat split).
  assert (Hfuel : frames exampleClasses (exampleRank "Child") "Child" ≤ 3)
    by (vm_compute; lia).
  split; [exact (conj Child_accepted (conj Hc (conj Hc0 Hfuel)))|].
  split; [reflexivity|].
  exact (saved_names_are_fixed_by_the_class exampleClasses
           exampleClasses_identifiers exampleRank exampleRank_bases
           "Child" child child0 3 Child_accepted Hc Hc0 Hfuel).
Defined.

(** Loading {1, 2} into [Child {22, 42}] and into a default-constructed
    [Child] gives the same object. *)
Lemma load_overwrites_every_member_witness :
  load exampleClasses 3 "Child" []
    (mkWorld [("foo"%string, VInt 1); ("bar"%string, VInt 2)] child [])
  = Done (mkWorld [] (mkObject [mkObject [] [VInt 1]] [VInt 2])
            [MutableAccess [0] 0; MutableAccess [] 0])
  ∧ ∃ w2,
      load exampleClasses 3 "Child" []
        (mkWorld [("foo"%string, VInt 1); ("bar"%string, VInt 2)] child0 [])
      = Done w2
      ∧ w_ar w2
        = w_ar (mkWorld ([] : list (string * CppValue))
                  (mkObject [mkObject [] [VInt 1]] [VInt 2])
                  [MutableAccess [0] 0; MutableAccess [] 0])
      ∧ w_obj w2
        = w_obj (mkWorld ([] : list (string * CppValue))
                   (mkObject [mkObject [] [VInt 1]] [VInt 2])
                   [MutableAccess [0] 0; MutableAccess [] 0]).
Proof.
  assert (Hc : conforms exampleClasses "Child" child) by (repeat split).
  assert (Hc0 : conforms exampleClasses "Child" child0) by (repeat split).
  assert (Hfuel : frames exampleClasses (exampleRank "Child") "Child" ≤ 3)
    by (vm_compute; lia).
  split; [reflexivity|].
  exact (load_overwrites_every_member exampleClasses
           exampleClasses_identifiers exampleRank exampleRank_bases
           "Child" child child0 3 Child_accepted Hc Hc0 Hfuel
           [("foo"%string, VInt 1); ("bar"%string, VInt 2)] [] [] _
           (λ ar ty old old', eq_refl) eq_refl).
Defined.

(** ** The header before the descriptor singleton *)

Section FirstVersionNames.
Context {FieldTy : Type}.
Variable R : Reflection FieldTy.

Lemma class_member_names_spec Class :
  FirstVersion.class_member_names R Class =
    let ids := memberIdentifiers R Class in
    if decide (length ids < MAX_CLASS_MEMBERS) then
      if decide (Forall (λ s, String.length s < MAX_IDENTIFIER_LENGTH) ids)
      then Some ((nameRow <$> ids)
                   ++ replicate (MAX_CLASS_MEMBERS - length ids) zeroRow)
      else None
    else None.
Proof.
  unfold FirstVersion.class_member_names. cbv zeta.
  destruct (decide (length (memberIdentifiers R Class) < MAX_CLASS_MEMBERS))
    as [Hn|Hn]; [|done].
  apply (copyNames_spec (memberIdentifiers R Class) [] MAX_CLASS_MEMBERS).
  lia.
Qed.

Lemma stringify_class_member_names Class names :
  FirstVersion.class_member_names R Class = Some names →
  Forall identifier_ok (memberIdentifiers R Class) →
  FirstVersion.stringify names = Some (memberIdentifiers R Class).
Proof.
  rewrite class_member_names_spec. cbv zeta.
  destruct (decide (length (memberIdentifiers R Class) < MAX_CLASS_MEMBERS))
    as [Hn|]; [|done].
  destruct (decide (Forall _ (memberIdentifiers R Class))) as [Hs|]; [|done].
  intros [= <-] Hok. unfold FirstVersion.stringify.
  replace (MAX_CLASS_MEMBERS - length (memberIdentifiers R Class))
    with (S (MAX_CLASS_MEMBERS - S (length (memberIdentifiers R Class))))
    by lia.
  by apply restringify_identifiers.
Qed.

(** X9.  In the first version of the header, [class_member_names] fails,
    when the program is built, exactly when the class has
    [MAX_CLASS_MEMBERS] or more direct members or one of their
    identifiers has [MAX_IDENTIFIER_LENGTH] or more characters; the
    table it returns otherwise is read back by [stringify] as the
    identifiers of the members, in declaration order and in full, as
    many as [member_list_size] counts. *)
Theorem first_version_member_names Class :
  (FirstVersion.class_member_names R Class = None
   ↔ MAX_CLASS_MEMBERS ≤ length (nonstatic_data_members_of R Class)
     ∨ Exists (λ m, MAX_IDENTIFIER_LENGTH ≤ String.length (identifier_of m))
         (nonstatic_data_members_of R Class))
  ∧ ∀ namesArray,
      FirstVersion.class_member_names R Class = Some namesArray →
      Forall identifier_ok (memberIdentifiers R Class) →
      ∃ names,
        FirstVersion.stringify namesArray = Some names
        ∧ names = identifier_of <$> nonstatic_data_members_of R Class
        ∧ length names = FirstVersion.member_list_size R Class.
Proof.
  split.
  - rewrite class_member_names_spec. cbv zeta.
    assert (Hlen : length (memberIdentifiers R Class)
                   = length (nonstatic_data_members_of R Class))
      by apply length_fmap.
    assert (Hex : Forall (λ s, String.length s < MAX_IDENTIFIER_LENGTH)
                    (memberIdentifiers R Class)
                  ↔ ¬ Exists (λ m, MAX_IDENTIFIER_LENGTH
                                   ≤ String.length (identifier_of m))
                        (nonstatic_data_members_of R Class)).
    { unfold memberIdentifiers. rewrite Forall_fmap, <- Forall_Exists_neg.
      apply Forall_iff. intros m. simpl. lia. }
    destruct (decide (length (memberIdentifiers R Class) < _)) as [Hn|Hn].
    + destruct (decide (Forall _ (memberIdentifiers R Class))) as [Hs|Hs].
      * split; [done|]. intros [Hbig|Hbig]; [lia|]. by apply Hex in Hs.
      * split; [|done]. intros _. right.
        destruct (decide (Exists (λ m, MAX_IDENTIFIER_LENGTH
                                       ≤ String.length (identifier_of m))
                            (nonstatic_data_members_of R Class))) as [|Hne];
          [done|]. by apply Hex in Hne.
    + split; [|done]. intros _. left. lia.
  - intros namesArray Hnames Hok.
    exists (memberIdentifiers R Class).
    split; [by apply stringify_class_member_names|]. split; [done|].
    apply length_fmap.
Qed.
End FirstVersionNames.

Section FirstVersionTraversal.
Context {Value FieldTy : Type}.
Variable R : Reflection FieldTy.
Hypothesis identifiers_wellformed :
  ∀ Class, Forall identifier_ok (memberIdentifiers R Class).

Lemma first_saveHelper_characterised {A} `{!OutputArchive A Value} Class
    instance fuel :
  ∀ index (w w' : World A Value),
    FirstVersion.saveHelper R fuel Class
      (length (nonstatic_data_members_of R Class)) index instance w
    = Done w' →
    ∃ o, subobject instance (w_obj w) = Some o
      ∧ w_obj w' = w_obj w
      ∧ index < length (nonstatic_data_members_of R Class)
      ∧ run_nvps (w_ar w)
          (drop index (zip (memberIdentifiers R Class) (obj_fields o)))
        = Some (w_ar w')
      ∧ w_log w' =
          w_log w
          ++ (ConstAccess instance
                <$> seq index (length (nonstatic_data_members_of R Class)
                               - index)).
Proof.
  induction fuel as [|fuel IH]; [done|].
  intros index w w' H. cbn [FirstVersion.saveHelper] in H.
  apply Outcome_bind_Done in H as (namesArray & Harr & H).
  apply orFail_Done in Harr.
  apply Outcome_bind_Done in H as (names & Hnames & H).
  apply orFail_Done in Hnames.
  rewrite (stringify_class_member_names R Class namesArray Harr
             (identifiers_wellformed Class)) in Hnames.
  injection Hnames as <-.
  destruct (0 <? _) eqn:Hpos in H; [|done]. cbn [negb] in H.
  destruct (index <? _) eqn:Hidx in H; [|done]. cbn [negb] in H.
  apply Nat.ltb_lt in Hidx.
  apply Outcome_bind_Done in H as (info & Hinfo & H).
  unfold member_info in Hinfo.
  destruct (nonstatic_data_members_of R Class !! index) as [m|] eqn:Hm;
    [|done]. injection Hinfo as <-.
  apply Outcome_bind_Done in H as ([v w1] & Hv & H).
  unfold member_ref_const in Hv. cbn [info_index] in Hv.
  destruct (subobject instance (w_obj w)) as [o|] eqn:Ho; [|done].
  destruct (obj_fields o !! index) as [v'|] eqn:Hf; [|done].
  injection Hv as -> <-.
  apply Outcome_bind_Done in H as (name & Hname & H).
  apply orFail_Done in Hname.
  apply Outcome_bind_Done in H as (w2 & Hw2 & H).
  unfold ar_make_nvp in Hw2. cbn [fst snd w_ar w_obj w_log] in Hw2.
  destruct (ar_nvp (w_ar w) name v) as [a2|] eqn:Ha2; [|done].
  injection Hw2 as <-.
  assert (Hown : drop index (zip (memberIdentifiers R Class) (obj_fields o))
                 = (name, v) :: drop (S index)
                                  (zip (memberIdentifiers R Class)
                                     (obj_fields o))).
  { apply drop_S. by apply zip_lookup_Some. }
  assert (Hseq : seq index (length (nonstatic_data_members_of R Class) - index)
                 = index :: seq (S index)
                     (length (nonstatic_data_members_of R Class) - S index)).
  { replace (length (nonstatic_data_members_of R Class) - index)
      with (S (length (nonstatic_data_members_of R Class) - S index)) by lia.
    done. }
  exists o. split; [done|].
  rewrite Hown, Hseq. cbn [run_nvps fmap list_fmap]. rewrite Ha2.
  destruct (index + 1 <? _) eqn:Hnext in H.
  - apply IH in H as (o' & Ho' & Hobj & _ & Hrun & Hlog).
    cbn [w_ar w_obj w_log] in *.
    replace (index + 1) with (S index) in * by lia.
    assert (o' = o) as -> by congruence.
    split; [done|]. split; [done|]. split; [done|].
    by rewrite Hlog, <- app_assoc.
  - apply Nat.ltb_ge in Hnext. injection H as <-.
    cbn [w_ar w_obj w_log].
    rewrite drop_zip_ge
      by (unfold memberIdentifiers; rewrite length_fmap; lia).
    replace (length (nonstatic_data_members_of R Class) - S index)
      with 0 by lia.
    done.
Qed.

Lemma first_loadHelper_characterised {A} `{!InputArchive A Value FieldTy}
    Class instance fuel :
  ∀ index (w w' : World A Value),
    FirstVersion.loadHelper R fuel Class
      (length (nonstatic_data_members_of R Class)) index instance w
    = Done w' →
    ∃ o fields',
      subobject instance (w_obj w) = Some o
      ∧ index < length (nonstatic_data_members_of R Class)
      ∧ load_fields
          (drop index (type_of <$> nonstatic_data_members_of R Class))
          (drop index (obj_fields o)) (w_ar w) = Some (w_ar w', fields')
      ∧ put_subobject instance
          (mkObject (obj_bases o) (take index (obj_fields o) ++ fields'))
          (w_obj w) = Some (w_obj w')
      ∧ w_log w' =
          w_log w
          ++ (MutableAccess instance
                <$> seq index (length (nonstatic_data_members_of R Class)
                               - index)).
Proof.
  induction fuel as [|fuel IH]; [done|].
  intros index w w' H. cbn [FirstVersion.loadHelper] in H.
  destruct (0 <? _) eqn:Hpos in H; [|done]. cbn [negb] in H.
  destruct (index <? _) eqn:Hidx in H; [|done]. cbn [negb] in H.
  apply Nat.ltb_lt in Hidx.
  apply Outcome_bind_Done in H as (info & Hinfo & H).
  unfold member_info in Hinfo.
  destruct (nonstatic_data_members_of R Class !! index) as [m|] eqn:Hm;
    [|done]. injection Hinfo as <-.
  apply Outcome_bind_Done in H as ([ref w1] & Href & H).
  unfold member_ref in Href. cbn [info_index] in Href.
  destruct (subobject instance (w_obj w)) as [o|] eqn:Ho; [|done].
  destruct (decide (index < length (obj_fields o))) as [Hlen|]; [|done].
  injection Href as <- <-.
  apply Outcome_bind_Done in H as (w2 & Hw2 & H).
  unfold ar_load_ref, deref in Hw2.
  cbn [fst snd w_ar w_obj w_log ref_instance ref_index info_member] in Hw2.
  rewrite Ho in Hw2.
  destruct (obj_fields o !! index) as [old|] eqn:Hold; [|done].
  destruct (ar_ref (w_ar w) (type_of m) old) as [[a2 new]|] eqn:Ha2;
    [|done].
  rewrite assign_put_subobject, Ho in Hw2.
  rewrite decide_True in Hw2 by done.
  destruct (put_subobject instance _ (w_obj w)) as [obj2|] eqn:Hput;
    [|done].
  injection Hw2 as <-.
  pose proof (put_subobject_lookup _ _ _ _ Hput) as Ho2.
  assert (Hty : drop index (type_of <$> nonstatic_data_members_of R Class)
                = type_of m
                  :: drop (S index)
                       (type_of <$> nonstatic_data_members_of R Class)).
  { apply drop_S. by rewrite list_lookup_fmap, Hm. }
  assert (Hseq : seq index (length (nonstatic_data_members_of R Class) - index)
                 = index :: seq (S index)
                     (length (nonstatic_data_members_of R Class) - S index)).
  { replace (length (nonstatic_data_members_of R Class) - index)
      with (S (length (nonstatic_data_members_of R Class) - S index)) by lia.
    done. }
  exists o. rewrite Hty, (drop_S _ _ _ Hold), Hseq.
  cbn [load_fields fmap list_fmap]. rewrite Ha2.
  destruct (index + 1 <? _) eqn:Hnext in H.
  - apply IH in H as (o' & fs & Ho' & _ & Hfs & Hput' & Hlog).
    cbn [w_ar w_obj w_log] in *.
    replace (index + 1) with (S index) in * by lia.
    rewrite Ho2 in Ho'. injection Ho' as <-.
    cbn [obj_bases obj_fields] in *.
    rewrite drop_insert_lt in Hfs by lia.
    rewrite take_S_insert in Hput' by done.
    rewrite (put_subobject_again _ _ _ _ _ Hput) in Hput'.
    rewrite <- app_assoc in Hput'.
    exists (new :: fs). rewrite Hfs.
    split; [done|]. split; [done|]. split; [done|]. split; [done|].
    by rewrite Hlog, <- app_assoc.
  - apply Nat.ltb_ge in Hnext. injection H as <-.
    cbn [w_ar w_obj w_log].
    exists (new :: drop (S index) (obj_fields o)).
    rewrite (drop_ge (type_of <$> _)) by (rewrite length_fmap; lia).
    rewrite load_fields_nil_l.
    replace (length (nonstatic_data_members_of R Class) - S index)
      with 0 by lia.
    split; [done|]. split; [done|]. split; [done|]. split; [|done].
    rewrite <- Hput. f_equal. f_equal.
    by rewrite insert_take_drop by done.
Qed.

Section FirstVersionClaims.
Context {Aout Ain : Type}.
Context `{!OutputArchive Aout Value} `{!InputArchive Ain Value FieldTy}.

(** X10.  The first version of the header walks the direct members and
    nothing else: a save that returns has handed the archive the own
    members of the class, in declaration order and under their names,
    and no member of a base; a load that returns has filled the own
    members from the archive and has left every base sub-object as it
    was. *)
Theorem first_version_walks_direct_members_only Class fuel instance :
  (∀ (ws ws' : World Aout Value),
     FirstVersion.save R fuel Class instance ws = Done ws' →
     ∃ o, subobject instance (w_obj ws) = Some o
       ∧ w_obj ws' = w_obj ws
       ∧ run_nvps (w_ar ws)
           (zip (memberIdentifiers R Class) (obj_fields o))
         = Some (w_ar ws')
       ∧ w_log ws' =
           w_log ws
           ++ (ConstAccess instance
                 <$> seq 0 (length (nonstatic_data_members_of R Class))))
  ∧ (∀ (wl wl' : World Ain Value),
       FirstVersion.load R fuel Class instance wl = Done wl' →
       ∃ o o' fields',
         subobject instance (w_obj wl) = Some o
         ∧ subobject instance (w_obj wl') = Some o'
         ∧ obj_bases o' = obj_bases o
         ∧ obj_fields o' = fields'
         ∧ load_fields (type_of <$> nonstatic_data_members_of R Class)
             (obj_fields o) (w_ar wl) = Some (w_ar wl', fields')
         ∧ w_log wl' =
             w_log wl
             ++ (MutableAccess instance
                   <$> seq 0 (length (nonstatic_data_members_of R Class)))).
Proof.
  split.
  - intros ws ws' H. unfold FirstVersion.save in H. cbv zeta in H.
    unfold FirstVersion.member_list_size in H.
    apply first_saveHelper_characterised in H
      as (o & Ho & Hobj & _ & Hrun & Hlog).
    rewrite drop_0 in Hrun. rewrite Nat.sub_0_r in Hlog. eauto 10.
  - intros wl wl' H. unfold FirstVersion.load in H. cbv zeta in H.
    unfold FirstVersion.member_list_size in H.
    apply first_loadHelper_characterised in H
      as (o & fs & Ho & _ & Hlf & Hput & Hlog).
    rewrite !drop_0 in Hlf. rewrite take_0 in Hput. cbn [app] in Hput.
    rewrite Nat.sub_0_r in Hlog.
    exists o, (mkObject (obj_bases o) fs), fs.
    split; [done|]. split; [by eapply put_subobject_lookup|]. done.
Qed.
End FirstVersionClaims.

Lemma first_version_agrees_save {A} `{!OutputArchive A Value} Class
    instance fuel :
  bases_of R Class = [] →
  ClassSingleton_ctor R Class ≠ None →
  ∀ index (w : World A Value),
    FirstVersion.saveHelper R fuel Class
      (length (nonstatic_data_members_of R Class)) index instance w
    = saveHelper R fuel Class index instance w.
Proof.
  intros Hnb Hctor.
  destruct (ClassSingleton_ctor R Class) as [d|] eqn:Hd; [|done].
  assert (Hinst : ClassSingleton_instance R Class = Done d)
    by (unfold ClassSingleton_instance; by rewrite Hd).
  destruct (ClassSingleton_instance_Done R identifiers_wellformed _ _ Hinst)
    as (Hmc & Hbc & _ & Hn).
  assert (Harr : ∃ namesArray,
            FirstVersion.class_member_names R Class = Some namesArray).
  { pose proof (ClassSingleton_ctor_spec R Class) as Hspec.
    cbv zeta in Hspec. rewrite class_member_names_spec. cbv zeta.
    destruct (decide (length (memberIdentifiers R Class)
                      < MAX_CLASS_MEMBERS - 1)) as [Hlt|]; [|congruence].
    destruct (decide (Forall _ (memberIdentifiers R Class))) as [Hs|];
      [|congruence].
    rewrite decide_True by lia. eauto. }
  destruct Harr as [namesArray Harr].
  pose proof (stringify_class_member_names R Class namesArray Harr
                (identifiers_wellformed Class)) as Hnames.
  induction fuel as [|fuel IH]; [done|].
  intros index w. rewrite saveHelper_S.
  cbn [FirstVersion.saveHelper].
  rewrite Harr. cbn [orFail Outcome_bind].
  rewrite Hnames, Hinst. cbn [orFail Outcome_bind].
  rewrite Hmc, Hbc, Hnb. cbn [length].
  destruct (0 <? _); [|done]. cbn [negb].
  destruct (index <? _); [|done]. cbn [negb].
  replace (if index =? 0 then if 0 <? 0 then
             saveParents R fuel Class 0 instance w else Done w
           else Done w) with (Done w) by (by destruct (index =? 0)).
  cbn [Outcome_bind].
  destruct (member_info R Class index) as [info|]; [|done].
  cbn [Outcome_bind].
  destruct (member_ref_const info instance w) as [[v w1]|]; [|done].
  cbn [Outcome_bind]. unfold member_info in *. rewrite Hn.
  destruct (orFail EUndefined _) as [name|]; [|done]. cbn [Outcome_bind].
  destruct (ar_make_nvp name _ _) as [w2|]; [|done]. cbn [Outcome_bind].
  destruct (index + 1 <? _); [|done]. apply IH.
Qed.

Lemma first_version_agrees_load {A} `{!InputArchive A Value FieldTy} Class
    instance fuel :
  bases_of R Class = [] →
  ClassSingleton_ctor R Class ≠ None →
  ∀ index (w : World A Value),
    FirstVersion.loadHelper R fuel Class
      (length (nonstatic_data_members_of R Class)) index instance w
    = loadHelper R fuel Class index instance w.
Proof.
  intros Hnb Hctor.
  destruct (ClassSingleton_ctor R Class) as [d|] eqn:Hd; [|done].
  assert (Hinst : ClassSingleton_instance R Class = Done d)
    by (unfold ClassSingleton_instance; by rewrite Hd).
  destruct (ClassSingleton_instance_counts R _ _ Hinst) as (Hmc & Hbc & _).
  induction fuel as [|fuel IH]; [done|].
  intros index w. rewrite loadHelper_S.
  cbn [FirstVersion.loadHelper].
  rewrite Hinst. cbn [Outcome_bind].
  rewrite Hmc, Hbc, Hnb. cbn [length].
  destruct (0 <? _); [|done]. cbn [negb].
  destruct (index <? _); [|done]. cbn [negb].
  replace (if index =? 0 then if 0 <? 0 then
             loadParents R fuel Class 0 instance w else Done w
           else Done w) with (Done w) by (by destruct (index =? 0)).
  cbn [Outcome_bind].
  destruct (member_info R Class index) as [info|]; [|done].
  cbn [Outcome_bind].
  destruct (member_ref info instance w) as [[ref w1]|]; [|done].
  cbn [Outcome_bind].
  destruct (ar_load_ref _ _ _) as [w2|]; [|done]. cbn [Outcome_bind].
  destruct (index + 1 <? _); [|done]. apply IH.
Qed.

(** X11.  For a class without bases whose descriptor the later header
    can build, the first version and the later one are the same
    function: [cereal::save] gives the same result in both, whatever
    the archive and the object, and so does [cereal::load]. *)
Theorem first_version_agrees_without_bases {Aout Ain}
    `{!OutputArchive Aout Value} `{!InputArchive Ain Value FieldTy}
    Class fuel instance (ws : World Aout Value) (wl : World Ain Value) :
  bases_of R Class = [] →
  ClassSingleton_ctor R Class ≠ None →
  FirstVersion.save R fuel Class instance ws = save R fuel Class instance ws
  ∧ FirstVersion.load R fuel Class instance wl
    = load R fuel Class instance wl.
Proof.
  intros Hnb Hctor. unfold FirstVersion.save, FirstVersion.load, save, load.
  cbv zeta. unfold FirstVersion.member_list_size.
  rewrite first_version_agrees_save, first_version_agrees_load by done.
  unfold ClassSingleton_instance.
  destruct (ClassSingleton_ctor R Class) as [d|]; [|done]. done.
Qed.
End FirstVersionTraversal.

(** The test [Inheritance] on the first version: [Child {22, 42}] is saved
    as bar alone, and a default-constructed [Child] loaded from that has
    bar = 42 and keeps foo = 0. *)
Lemma first_version_walks_direct_members_only_witness :
  FirstVersion.save exampleClasses 1 "Child" [] (mkWorld [] child [])
  = Done (mkWorld [("bar"%string, VInt 42)] child [ConstAccess [] 0])
  ∧ FirstVersion.load exampleClasses 1 "Child" []
      (mkWorld [("bar"%string, VInt 42)] child0 [])
    = Done (mkWorld [] (mkObject [mkObject [] [VInt 0]] [VInt 42])
              [MutableAccess [] 0])
  ∧ ∃ o,
      subobject [] (w_obj (mkWorld ([] : list (string * CppValue)) child []))
      = Some o
      ∧ w_obj (mkWorld [("bar"%string, VInt 42)] child [ConstAccess [] 0])
        = w_obj (mkWorld ([] : list (string * CppValue)) child [])
      ∧ run_nvps (w_ar (mkWorld ([] : list (string * CppValue)) child []))
          (zip (memberIdentifiers exampleClasses "Child") (obj_fields o))
        = Some (w_ar (mkWorld [("bar"%string, VInt 42)] child
                        [ConstAccess [] 0]))
      ∧ w_log (mkWorld [("bar"%string, VInt 42)] child [ConstAccess [] 0])
        = w_log (mkWorld ([] : list (string * CppValue)) child [])
          ++ (ConstAccess []
                <$> seq 0 (length (nonstatic_data_members_of exampleClasses
                                     "Child"))).
Proof.
  split; [reflexivity|]. split; [reflexivity|].
  exact (proj1 (first_version_walks_direct_members_only
                  (Aout := list (string * CppValue))
                  (Ain := list (string * CppValue))
                  exampleClasses exampleClasses_identifiers "Child" 1 [])
           (mkWorld [] child []) _ eq_refl).
Defined.

(** [SerialPleh] has no base: both versions save and load it alike. *)
Lemma first_version_agrees_without_bases_witness :
  (bases_of exampleClasses "SerialPleh" = []
   ∧ ClassSingleton_ctor exampleClasses "SerialPleh" ≠ None)
  ∧ FirstVersion.save exampleClasses 2 "SerialPleh" [] (mkWorld [] pleh [])
    = Done (mkWorld [("foo"%string, VInt 1); ("bar"%string, VString "PLEH!")]
              pleh [ConstAccess [] 0; ConstAccess [] 1])
  ∧ FirstVersion.save exampleClasses 2 "SerialPleh" [] (mkWorld [] pleh [])
    = save exampleClasses 2 "SerialPleh" [] (mkWorld [] pleh [])
  ∧ FirstVersion.load exampleClasses 2 "SerialPleh" []
      (mkWorld [("foo"%string, VInt 1); ("bar"%string, VString "PLEH!")]
         pleh0 [])
    = load exampleClasses 2 "SerialPleh" []
        (mkWorld [("foo"%string, VInt 1); ("bar"%string, VString "PLEH!")]
           pleh0 []).
Proof.
  assert (Hctor : ClassSingleton_ctor exampleClasses "SerialPleh" ≠ None)
    by (by vm_compute).
  split; [by split|]. split; [reflexivity|].
  exact (first_version_agrees_without_bases exampleClasses
           exampleClasses_identifiers "SerialPleh" 2 []
           (mkWorld [] pleh [])
           (mkWorld [("foo"%string, VInt 1); ("bar"%string, VString "PLEH!")]
              pleh0 [])
           eq_refl Hctor).
Defined.

(** ** Which hierarchies a traversal gets through *)

Section OnlyAccepted.
Context {Value FieldTy : Type}.
Variable R : Reflection FieldTy.

Section AnyStep.
Context {A : Type}.
Variable step : ClassSingleton → Info FieldTy → list nat → World A Value
                → Outcome (World A Value).

Lemma traverse_Done_accepted fuel :
  (∀ Class instance w w',
     traverseHelper R step fuel Class 0 instance w = Done w' →
     hierarchy_accepted R Class)
  ∧ (∀ Class index instance w w',
       traverseParents R step fuel Class index instance w = Done w' →
       ∀ k Parent, index ≤ k → bases_of R Class !! k = Some Parent →
                   hierarchy_accepted R Parent).
Proof.
  induction fuel as [|fuel [IHh IHp]]; [done|]. split.
  - intros Class instance w w'. rewrite traverseHelper_S.
    intros (d & Hd & H)%Outcome_bind_Done.
    destruct (ClassSingleton_instance_counts _ _ _ Hd) as (Hmc & Hbc & _).
    rewrite Hmc, Hbc in H.
    destruct (0 <? length (nonstatic_data_members_of R Class)) eqn:H0;
      [|done]. apply Nat.ltb_lt in H0. cbn [negb Nat.eqb] in H.
    apply Outcome_bind_Done in H as (w1 & Hparents & _).
    assert (Hacc : accepted R Class).
    { split; [|done]. unfold ClassSingleton_instance in Hd.
      apply orFail_Done in Hd. congruence. }
    intros Ancestor Hrtc.
    inversion Hrtc as [|? Base ? Hbase Hrest]; subst; [done|].
    apply list_elem_of_lookup in Hbase as [k Hk].
    destruct (0 <? length (bases_of R Class)) eqn:Hb.
    + eapply (IHp _ _ _ _ _ Hparents k Base); [lia|done|done].
    + apply Nat.ltb_ge in Hb. apply lookup_lt_Some in Hk. lia.
  - intros Class index instance w w'. rewrite traverseParents_S.
    intros (d & Hd & H)%Outcome_bind_Done.
    destruct (ClassSingleton_instance_counts _ _ _ Hd) as (_ & Hbc & Hb).
    rewrite Hbc, Hb in H.
    apply Outcome_bind_Done in H as (Parent & HP%orFail_Done & H).
    apply Outcome_bind_Done in H as (dP & _ & H).
    apply Outcome_bind_Done in H as (w1 & Hhelper & H).
    intros k Parent' Hle Hk.
    destruct (decide (k = index)) as [->|Hne].
    + assert (Parent' = Parent) as -> by congruence. by eapply IHh.
    + destruct (index + 1 <? length (bases_of R Class)) eqn:Hn.
      * eapply (IHp _ _ _ _ _ H k); [lia|done].
      * apply Nat.ltb_ge in Hn. apply lookup_lt_Some in Hk. lia.
Qed.
End AnyStep.

(** X13.  A save or a load that returns has checked the whole hierarchy:
    the class and each of its direct and indirect bases has a descriptor
    and at least one direct member.  So neither gets through a class that
    has, anywhere above it, a base without members or with a name too long
    for the table. *)
Theorem returning_traversal_checked_every_base {Aout Ain}
    `{!OutputArchive Aout Value} `{!InputArchive Ain Value FieldTy}
    Class fuel instance (ws ws' : World Aout Value)
    (wl wl' : World Ain Value) :
  save R fuel Class instance ws = Done ws'
  ∨ load R fuel Class instance wl = Done wl' →
  hierarchy_accepted R Class.
Proof.
  unfold save, load.
  intros [(d & _ & H)%Outcome_bind_Done|(d & _ & H)%Outcome_bind_Done].
  - rewrite (proj1 (saveHelper_traverse R fuel)) in H.
    by eapply (proj1 (traverse_Done_accepted save_step fuel)).
  - rewrite (proj1 (loadHelper_traverse R fuel)) in H.
    by eapply (proj1 (traverse_Done_accepted load_step fuel)).
Qed.
End OnlyAccepted.

(** The save of [Child {22, 42}] returns: [Child] and [Parent] are
    accepted. *)
Lemma returning_traversal_checked_every_base_witness :
  save exampleClasses 3 "Child" [] (mkWorld [] child [])
  = Done (mkWorld [("foo"%string, VInt 22); ("bar"%string, VInt 42)] child
            [ConstAccess [0] 0; ConstAccess [] 0])
  ∧ hierarchy_accepted exampleClasses "Child".
Proof.
  split; [reflexivity|].
  apply (returning_traversal_checked_every_base
           (Aout := list (string * CppValue))
           (Ain := list (string * CppValue))
           exampleClasses "Child" 3 []
           (mkWorld [] child [])
           (mkWorld [("foo"%string, VInt 22); ("bar"%string, VInt 42)] child
              [ConstAccess [0] 0; ConstAccess [] 0])
           (mkWorld [] child []) (mkWorld [] child [])).
  left. reflexivity.
Defined.

(** ** Several objects on one archive *)

Section SeveralObjects.
Context {Value FieldTy Tok : Type}.
Context {oar : OutputArchive (list Tok) Value}.
Context {iar : InputArchive (list Tok) Value FieldTy}.
Variable R : Reflection FieldTy.
Hypothesis identifiers_wellformed :
  ∀ Class, Forall identifier_ok (memberIdentifiers R Class).
Variable rank : string → nat.
Hypothesis rank_bases :
  ∀ Class Parent, Parent ∈ bases_of R Class → rank Parent < rank Class.

(** The archive takes a value of a member's type under any name, and what
    the output archive appends for it is what the input archive takes off
    the front and answers with the value. *)
Variable typed : FieldTy → Value → Prop.
Hypothesis archive_round_trip :
  ∀ ty v, typed ty v →
  ∀ ts name, ∃ enc,
    ar_nvp ts name v = Some (ts ++ enc)
    ∧ ∀ old rest, ar_ref (enc ++ rest) ty old = Some (rest, v).

Variables (Class1 Class2 : TypeId) (v1 v01 v2 v02 : Object Value).
Variable fuel : nat.
Hypothesis Class1_accepted : hierarchy_accepted R Class1.
Hypothesis Class2_accepted : hierarchy_accepted R Class2.
Hypothesis v1_typed : well_typed R typed Class1 v1.
Hypothesis v2_typed : well_typed R typed Class2 v2.
Hypothesis v01_conforms : conforms R Class1 v01.
Hypothesis v02_conforms : conforms R Class2 v02.
Hypothesis enough_fuel1 : frames R (rank Class1) Class1 ≤ fuel.
Hypothesis enough_fuel2 : frames R (rank Class2) Class2 ≤ fuel.

(** X12.  Two objects saved one after the other on one archive are
    restored by two loads in the same order: the second save appends to
    what the first has written, the first load takes exactly what the
    first save has written and leaves the rest to the second, and after
    the second load nothing of the two is left on the archive. *)
Theorem two_objects_on_one_archive ts log :
  ∃ ws1 ws2 enc,
    save R fuel Class1 [] (mkWorld ts v1 log) = Done ws1
    ∧ save R fuel Class2 [] (mkWorld (w_ar ws1) v2 (w_log ws1)) = Done ws2
    ∧ w_ar ws2 = ts ++ enc
    ∧ ∀ rest log0, ∃ wl1 wl2,
        load R fuel Class1 [] (mkWorld (enc ++ rest) v01 log0) = Done wl1
        ∧ w_obj wl1 = v1
        ∧ load R fuel Class2 [] (mkWorld (w_ar wl1) v02 (w_log wl1))
          = Done wl2
        ∧ w_obj wl2 = v2
        ∧ w_ar wl2 = rest.
Proof.
  destruct (save_then_load R identifiers_wellformed rank rank_bases typed
              archive_round_trip Class1 v1 v01 fuel Class1_accepted v1_typed
              v01_conforms enough_fuel1 ts log)
    as (enc1 & ws1 & Hs1 & Har1 & _ & Hl1).
  destruct (save_then_load R identifiers_wellformed rank rank_bases typed
              archive_round_trip Class2 v2 v02 fuel Class2_accepted v2_typed
              v02_conforms enough_fuel2 (w_ar ws1) (w_log ws1))
    as (enc2 & ws2 & Hs2 & Har2 & _ & Hl2).
  exists ws1, ws2, (enc1 ++ enc2).
  split; [done|]. split; [done|].
  split; [by rewrite Har2, Har1, app_assoc|].
  intros rest log0.
  destruct (Hl1 (enc2 ++ rest) log0) as (wl1 & Hwl1 & Harl1 & Hobj1).
  destruct (Hl2 rest (w_log wl1)) as (wl2 & Hwl2 & Harl2 & Hobj2).
  exists wl1, wl2. rewrite <- app_assoc.
  split; [done|]. split; [done|]. rewrite Harl1. done.
Qed.
End SeveralObjects.

(** [SerialPleh {1, "PLEH!"}] and then [Child {22, 42}] on one binary
    archive, and back into two default-constructed objects. *)
Lemma two_objects_on_one_archive_witness :
  (hierarchy_accepted exampleClasses "SerialPleh"
   ∧ hierarchy_accepted exampleClasses "Child"
   ∧ well_typed exampleClasses cpp_typed "SerialPleh" pleh
   ∧ well_typed exampleClasses cpp_typed "Child" child
   ∧ conforms exampleClasses "SerialPleh" pleh0
   ∧ conforms exampleClasses "Child" child0
   ∧ frames exampleClasses (exampleRank "SerialPleh") "SerialPleh" ≤ 3
   ∧ frames exampleClasses (exampleRank "Child") "Child" ≤ 3)
  ∧ ∃ ws1 ws2 enc,
      save (oar := cereal_nvp Binary) exampleClasses 3 "SerialPleh" []
        (mkWorld [] pleh []) = Done ws1
      ∧ save (oar := cereal_nvp Binary) exampleClasses 3 "Child" []
          (mkWorld (w_ar ws1) child (w_log ws1)) = Done ws2
      ∧ w_ar ws2 = [] ++ enc
      ∧ ∀ rest log0, ∃ wl1 wl2,
          load (iar := cereal_ref Binary) exampleClasses 3 "SerialPleh" []
            (mkWorld (enc ++ rest) pleh0 log0) = Done wl1
          ∧ w_obj wl1 = pleh
          ∧ load (iar := cereal_ref Binary) exampleClasses 3 "Child" []
              (mkWorld (w_ar wl1) child0 (w_log wl1)) = Done wl2
          ∧ w_obj wl2 = child
          ∧ w_ar wl2 = rest.
Proof.
  assert (Ht1 : well_typed exampleClasses cpp_typed "SerialPleh" pleh).
  { split; [exact I|]. repeat constructor. }
  assert (Ht2 : well_typed exampleClasses cpp_typed "Child" child).
  { split; [|repeat constructor].
    split; [|exact I]. split; [exact I|]. repeat constructor. }
  assert (Hc1 : conforms exampleClasses "SerialPleh" pleh0).
  { split; [exact I|reflexivity]. }
  assert (Hc2 : conforms exampleClasses "Child" child0).
  { split; [|reflexivity]. split; [|exact I]. split; [exact I|reflexivity]. }
  assert (Hf1 :
    frames exampleClasses (exampleRank "SerialPleh") "SerialPleh" ≤ 3).
  { vm_compute. lia. }
  assert (Hf2 : frames exampleClasses (exampleRank "Child") "Child" ≤ 3).
  { vm_compute. lia. }
  split.
  { exact (conj SerialPleh_accepted (conj Child_accepted (conj Ht1
             (conj Ht2 (conj Hc1 (conj Hc2 (conj Hf1 Hf2))))))). }
  exact (two_objects_on_one_archive (oar := cereal_nvp Binary)
           (iar := cereal_ref Binary) exampleClasses
           exampleClasses_identifiers exampleRank exampleRank_bases
           cpp_typed (cereal_archive_round_trip Binary)
           "SerialPleh" "Child" pleh pleh0 child child0 3
           SerialPleh_accepted Child_accepted Ht1 Ht2 Hc1 Hc2 Hf1 Hf2 [] []).
Defined.

(** * The traversal, call by call *)

Lemma parentFrames_elem (need : TypeId → nat) Parents Parent :
  Parent ∈ Parents → need Parent < parentFrames need Parents.
Proof.
  induction Parents as [|P Parents IH]; [by intros ?%not_elem_of_nil|].
  intros [->|Hin]%elem_of_cons; simpl; [lia|].
  specialize (IH Hin). lia.
Qed.

Lemma conforms_bases_lookup_any {Value FieldTy} (R : Reflection FieldTy) cs
    (bs : list (Object Value)) k c :
  conforms_bases R cs bs → cs !! k = Some c →
  ∃ b, bs !! k = Some b ∧ conforms R c b.
Proof.
  revert bs k. induction cs as [|c' cs IH]; intros [|b bs] k; simpl;
    try done.
  intros [Hc Hcs]. destruct k as [|k]; simpl.
  - intros [= <-]. eauto.
  - by apply IH.
Qed.

Lemma conforms_bases_length {Value FieldTy} (R : Reflection FieldTy) cs
    (bs : list (Object Value)) :
  conforms_bases R cs bs → length cs = length bs.
Proof.
  revert bs. induction cs as [|c cs IH]; intros [|b bs]; simpl; try done.
  intros [_ Hcs]. f_equal. by apply IH.
Qed.

Section Exactly.
Context {Value FieldTy : Type}.
Variable R : Reflection FieldTy.
Hypothesis identifiers_wellformed :
  ∀ Class, Forall identifier_ok (memberIdentifiers R Class).

(** The hierarchy is acyclic: every class ranks above its bases. *)
Variable rank : string → nat.
Hypothesis rank_bases :
  ∀ Class Parent, Parent ∈ bases_of R Class → rank Parent < rank Class.

Lemma frames_base Class Parent :
  Parent ∈ bases_of R Class →
  frames R (rank Parent) Parent < frames R (rank Class) Class.
Proof.
  intros Hin. pose proof (rank_bases _ _ Hin) as Hr.
  destruct (rank Class) as [|r] eqn:Hrc; [lia|].
  pose proof (frames_parents R r Class) as Hp.
  pose proof (parentFrames_elem (frames R r) _ _ Hin) as He.
  pose proof (frames_mono R (rank Parent) r Parent ltac:(lia)). lia.
Qed.

Lemma saveHelper_exactly {A} `{!OutputArchive A Value} fuel Class index
    instance (w : World A Value) o :
  hierarchy_accepted R Class →
  subobject instance (w_obj w) = Some o →
  conforms R Class o →
  index < length (nonstatic_data_members_of R Class) →
  frames R (rank Class) Class ≤ fuel →
  saveHelper R fuel Class index instance w
  = match run_nvps (w_ar w)
            ((if index =? 0
              then flatten_bases R (bases_of R Class) (obj_bases o) else [])
             ++ drop index (zip (memberIdentifiers R Class) (obj_fields o)))
    with
    | Some ar' =>
        Done (mkWorld ar' (w_obj w)
                (w_log w
                 ++ (if index =? 0
                     then visits_bases R ConstAccess instance 0
                            (bases_of R Class) (obj_bases o)
                     else [])
                 ++ (ConstAccess instance
                       <$> seq index
                             (length (nonstatic_data_members_of R Class)
                              - index))))
    | None => Failed EArchive
    end.
Proof.
  intros Hacc Ho Hconf Hidx Hfuel.
  pose proof (frames_members R (rank Class) Class) as [_ Hfm].
  destruct (run_nvps (w_ar w) _) as [ar'|] eqn:Hrun.
  - destruct (proj1 (save_total R identifiers_wellformed rank rank_bases
                       fuel)
                Class index instance w o ar' Hacc Ho Hconf Hidx
                ltac:(done) ltac:(lia) Hrun) as [w' Hw'].
    rewrite Hw'.
    apply (proj1 (save_characterised R identifiers_wellformed fuel)) in Hw'
      as (o' & Ho' & Hobj & _ & _ & Hrun' & Hlog).
    rewrite Ho in Ho'. injection Ho' as <-.
    rewrite Hrun in Hrun'. injection Hrun' as ->.
    destruct w' as [ar1 o1 log1]. cbn [w_ar w_obj w_log] in *.
    congruence.
  - by apply (proj1 (save_rejected R identifiers_wellformed rank rank_bases
                       fuel)
                Class index instance w o Hacc Ho Hconf Hidx
                ltac:(done) ltac:(lia)).
Qed.

Lemma loadHelper_exactly {A} `{!InputArchive A Value FieldTy} fuel Class
    index instance (w : World A Value) o :
  hierarchy_accepted R Class →
  subobject instance (w_obj w) = Some o →
  conforms R Class o →
  index < length (nonstatic_data_members_of R Class) →
  frames R (rank Class) Class ≤ fuel →
  match (if index =? 0
         then unflatten_bases R (bases_of R Class) (obj_bases o) (w_ar w)
         else Some (w_ar w, obj_bases o)) with
  | Some (ar1, bases') =>
      match load_fields
              (drop index (type_of <$> nonstatic_data_members_of R Class))
              (drop index (obj_fields o)) ar1 with
      | Some (ar', fields') =>
          ∃ obj',
            put_subobject instance
              (mkObject bases' (take index (obj_fields o) ++ fields'))
              (w_obj w) = Some obj'
            ∧ loadHelper R fuel Class index instance w
              = Done (mkWorld ar' obj'
                        (w_log w
                         ++ (if index =? 0
                             then visits_bases R MutableAccess instance 0
                                    (bases_of R Class) (obj_bases o)
                             else [])
                         ++ (MutableAccess instance
                               <$> seq index
                                     (length (nonstatic_data_members_of R
                                                Class) - index))))
      | None => loadHelper R fuel Class index instance w = Failed EArchive
      end
  | None => loadHelper R fuel Class index instance w = Failed EArchive
  end.
Proof.
  intros Hacc Ho Hconf Hidx Hfuel.
  pose proof (frames_members R (rank Class) Class) as [_ Hfm].
  apply conforms_unfold in Hconf as [Hcb Hlen].
  pose proof (proj1 (load_rejected R identifiers_wellformed rank rank_bases
                       fuel)
                Class index instance w o Hacc Ho ltac:(lia) ltac:(done) Hidx
                ltac:(done) ltac:(lia)) as Hrej.
  destruct (if index =? 0 then _ else _) as [[ar1 bs']|] eqn:Hun;
    [|by apply Hrej].
  destruct (load_fields _ _ ar1) as [[ar' fs']|] eqn:Hlf; [|by apply Hrej].
  clear Hrej.
  destruct (proj1 (load_total R identifiers_wellformed rank rank_bases fuel)
              Class index instance w o ar1 bs' ar' fs' Hacc Ho Hidx
              ltac:(done) ltac:(lia) Hun Hlf) as [w' Hw'].
  rewrite Hw'.
  apply (proj1 (load_characterised R identifiers_wellformed fuel)) in Hw'
    as (o' & a1 & bs1 & fs1 & Ho' & _ & Hun' & Hlf' & Hput & Hlog).
  rewrite Ho in Ho'. injection Ho' as <-.
  rewrite Hun in Hun'. injection Hun' as <- <-.
  rewrite Hlf in Hlf'. injection Hlf' as -> <-.
  exists (w_obj w'). split; [done|].
  destruct w' as [ar2 o2 log2]. cbn [w_ar w_obj w_log] in *.
  congruence.
Qed.
End Exactly.

(** ** The claims about the order of the traversal *)

Section OrderClaims.
Context {Value FieldTy Aout Ain : Type}.
Context `{!OutputArchive Aout Value} `{!InputArchive Ain Value FieldTy}.
Variable R : Reflection FieldTy.
Hypothesis identifiers_wellformed :
  ∀ Class, Forall identifier_ok (memberIdentifiers R Class).
Variable rank : string → nat.
Hypothesis rank_bases :
  ∀ Class Parent, Parent ∈ bases_of R Class → rank Parent < rank Class.

Variables (Class : TypeId) (fuel : nat) (instance : Path).
Variable o : Object Value.
Hypothesis Class_accepted : hierarchy_accepted R Class.
Hypothesis o_conforms : conforms R Class o.
Hypothesis enough_fuel : frames R (rank Class) Class ≤ fuel.

End OrderClaims.


Section MemberOrderClaim.
Context {Value FieldTy Aout Ain : Type}.
Context `{!OutputArchive Aout Value} `{!InputArchive Ain Value FieldTy}.
Variable R : Reflection FieldTy.
Hypothesis identifiers_wellformed :
  ∀ Class, Forall identifier_ok (memberIdentifiers R Class).
Variable rank : string → nat.
Hypothesis rank_bases :
  ∀ Class Parent, Parent ∈ bases_of R Class → rank Parent < rank Class.

Variables (Class : TypeId) (fuel : nat) (instance : Path).
Variable o : Object Value.
Hypothesis Class_accepted : hierarchy_accepted R Class.
Hypothesis o_conforms : conforms R Class o.
Hypothesis enough_fuel : frames R (rank Class) Class ≤ fuel.

End MemberOrderClaim.


(** ** A valid descriptor is not enough for a round trip *)

Lemma memberless_ancestor_never_saved (R : Reflection CppType) Class Ancestor
    f fuel (w ws : World (Stream f) CppValue) :
  rtc (λ C B, B ∈ bases_of R C) Class Ancestor →
  nonstatic_data_members_of R Ancestor = [] →
  to_output_archive R f fuel Class w ≠ Done ws.
Proof.
  intros Hrtc Hnone H. unfold to_output_archive, ar_object_out in H.
  apply Outcome_bind_Done in H as (w1 & Hsave & _).
  unfold save in Hsave. apply Outcome_bind_Done in Hsave as (d & _ & Hsave).
  rewrite (proj1 (saveHelper_traverse R fuel)) in Hsave.
  apply (proj1 (traverse_Done_accepted R save_step fuel)) in Hsave.
  destruct (Hsave Ancestor Hrtc) as [_ Hpos]. rewrite Hnone in Hpos.
  simpl in Hpos. lia.
Qed.

